(** * agrows: signature-driven generation of an RPC dispatcher and its client stubs

    The development follows the generator source: the declaration tree it
    reads, the catalog it extracts, the Go fragments it emits (as a small
    syntax tree with one constructor per emitted statement form), and an
    interpreter for those fragments, so that properties of the generated
    dispatcher and of the generated bridge wrappers can be stated on what
    they compute. *)

From Stdlib Require Import ZArith Lia Ascii String Floats.SpecFloat.
From stdpp Require Import base option list strings gmap pretty.

Open Scope string_scope.
Open Scope list_scope.

#[local] Set Warnings "-register-all".

Module Model.

(** ** The declaration tree read by the generator (package dst) *)

(** A type expression.  The generator only ever looks for identifiers and
    inline struct types, and never inside the latter; every other shape
    (pointer, slice, selector, map, function or interface type, ...) is kept
    as its source text. *)
Inductive Expr :=
| Ident (Name : string)
| StructType (Fields : list (string * string))
| OtherExpr (text : string).

(** One entry of a parameter or result list as the parser produces it:
    [a, b int] is one field with two names, an anonymous result is a field
    with no name. *)
Record Field := mkField {
  Names : list string;
  Type' : Expr
}.

Inductive Token := IMPORT | CONST | TYPE | VAR.

(** The type declarations met while walking below a node that is not itself
    looked at (a function body, the values of a variable declaration), in
    the order of the walk. *)
Definition InnerTypes := list (string * Expr).

Inductive Spec :=
| ImportSpec (Path : string)
| TypeSpec (Name : string) (Type'' : Expr)
| ValueSpec (text : string) (inner : InnerTypes).

Record FuncDeclT := mkFuncDecl {
  Recv : option (list Field);
  FuncName : string;
  Params_ : option (list Field);
  Results_ : option (list Field);
  Body : string;
  BodyInner : InnerTypes
}.

Inductive Decl :=
| FuncDecl (fn : FuncDeclT)
| GenDecl (Tok : Token) (Specs : list Spec)
| BadDecl.

Record File := mkFile {
  PackageName : string;
  Decls : list Decl
}.

(** ** The catalog *)

(** The catalog's own copy of a field: exactly one name slot, which holds a
    nil identifier for an anonymous result. *)
Record DstFieldT := mkDstField {
  FNames : list (option string);
  FType : Expr
}.

Record ParamReflectInfo := mkParamReflectInfo {
  DstField : DstFieldT;
  IsStruct : bool
}.

Record FuncInfo := mkFuncInfo {
  OriginalIdentifier : option string;
  Params : list ParamReflectInfo;
  Results : list ParamReflectInfo
}.

Definition ToIdentifierString (f : FuncInfo) : string :=
  match OriginalIdentifier f with
  | Some name => name
  | None => ""
  end.

Definition isStruct (typeMap : gmap string Expr) (expr : Expr) : bool :=
  match expr with
  | StructType _ => true
  | Ident name =>
      match typeMap !! name with
      | Some (StructType _) => true
      | _ => false
      end
  | OtherExpr _ => false
  end.

(** [typeMap[ts.Name.Name] = ts.Type], a later declaration of a name
    replacing an earlier one. *)
Definition recordTypes (typeMap : gmap string Expr) (ts : InnerTypes)
  : gmap string Expr :=
  fold_left (fun m nt => <[nt.1 := nt.2]> m) ts typeMap.

Definition recordSpec (typeMap : gmap string Expr) (spec : Spec)
  : gmap string Expr :=
  match spec with
  | TypeSpec name ty => <[name := ty]> typeMap
  | _ => typeMap
  end.

(** What the walk finds strictly below a specification. *)
Definition innerOfSpec (spec : Spec) : InnerTypes :=
  match spec with
  | ValueSpec _ inner => inner
  | _ => []
  end.

Definition extractTypeMap (node : File) : gmap string Expr :=
  fold_left (fun typeMap decl =>
    match decl with
    | GenDecl _ specs =>
        let typeMap := fold_left recordSpec specs typeMap in
        recordTypes typeMap (flat_map innerOfSpec specs)
    | FuncDecl fn => recordTypes typeMap (BodyInner fn)
    | BadDecl => typeMap
    end) (Decls node) ∅.

Section Catalog.

(** [token.IsExported]: whether the identifier starts with an upper-case
    letter (a Unicode property, left to the library). *)
Variable IsExported : string -> bool.

Definition paramInfos (typeMap : gmap string Expr) (fields : option (list Field))
  : list ParamReflectInfo :=
  match fields with
  | None => []
  | Some l =>
      flat_map (fun param =>
        map (fun name =>
          {| DstField := {| FNames := [Some name]; FType := Type' param |};
             IsStruct := isStruct typeMap (Type' param) |})
          (Names param)) l
  end.

Definition resultInfos (typeMap : gmap string Expr) (fields : option (list Field))
  : list ParamReflectInfo :=
  match fields with
  | None => []
  | Some l =>
      map (fun result =>
        let resultName := head (Names result) in
        {| DstField := {| FNames := [resultName]; FType := Type' result |};
           IsStruct := isStruct typeMap (Type' result) |}) l
  end.

Definition funcInfoOf (typeMap : gmap string Expr) (fn : FuncDeclT) : FuncInfo :=
  {| OriginalIdentifier := Some (FuncName fn);
     Params := paramInfos typeMap (Params_ fn);
     Results := resultInfos typeMap (Results_ fn) |}.

Definition extractFuncInfo (node : File) (typeMap : gmap string Expr)
  : list FuncInfo :=
  flat_map (fun decl =>
    match decl with
    | FuncDecl fn =>
        if IsExported (FuncName fn) then [funcInfoOf typeMap fn] else []
    | _ => []
    end) (Decls node).

End Catalog.

(** ** Values of the generated programs *)

(** [reflect.Kind]. *)
Inductive Kind :=
| Invalid | Bool
| Int | Int8 | Int16 | Int32 | Int64
| Uint | Uint8 | Uint16 | Uint32 | Uint64 | Uintptr
| Float32 | Float64 | Complex64 | Complex128
| Array | Chan | Func | Interface | Map | Pointer | Slice
| String' | Struct | UnsafePointer.

Global Instance Kind_eq_dec : EqDecision Kind.
Proof. solve_decision. Defined.

(** Values of the bridge ([syscall/js.Value]).  A number is an IEEE double;
    [JsErrorObject] is what [Error.New(message)] builds. *)
Inductive JsValue :=
| JsUndefined
| JsNull
| JsBoolean (b : bool)
| JsNumber (f : spec_float)
| JsString (s : string)
| JsSymbol (description : string)
| JsObject (props : list (string * JsValue))
| JsErrorObject (message : string)
| JsFunction (ident : string).

(** [syscall/js.Type]. *)
Inductive JsType :=
| TypeUndefined | TypeNull | TypeBoolean | TypeNumber | TypeString
| TypeSymbol | TypeObject | TypeFunction.

Definition JsValue_Type (v : JsValue) : JsType :=
  match v with
  | JsUndefined => TypeUndefined
  | JsNull => TypeNull
  | JsBoolean _ => TypeBoolean
  | JsNumber _ => TypeNumber
  | JsString _ => TypeString
  | JsSymbol _ => TypeSymbol
  | JsObject _ | JsErrorObject _ => TypeObject
  | JsFunction _ => TypeFunction
  end.

(** [js.Type.String]. *)
Definition JsType_String (t : JsType) : string :=
  match t with
  | TypeUndefined => "undefined"
  | TypeNull => "null"
  | TypeBoolean => "boolean"
  | TypeNumber => "number"
  | TypeString => "string"
  | TypeSymbol => "symbol"
  | TypeObject => "object"
  | TypeFunction => "function"
  end.

(** How a dynamic type is told apart from another: a predeclared basic type
    by its kind, every other type by its name. *)
Inductive TypeId :=
| IdBasic (k : Kind)
| IdNamed (name : string).

Global Instance TypeId_eq_dec : EqDecision TypeId.
Proof. solve_decision. Defined.

(** A Go value held in an interface ([any]).  [VInt k n] is the integer [n]
    of the predeclared type of integer kind [k], [VFloat k f] likewise for
    the two floating kinds; [VNamed] is a value of a declared type over an
    underlying value; [VOpaque] stands for values whose structure plays no
    role here (slices, pointers, channels, ...). *)
Inductive Value :=
| VNil
| VBool (b : bool)
| VInt (k : Kind) (n : Z)
| VFloat (k : Kind) (f : spec_float)
| VString (s : string)
| VError (msg : string)
| VStruct (tname : string) (fields : list (string * Value))
| VMap (entries : list (string * Value))
| VNamed (tname : string) (v : Value)
| VJs (v : JsValue)
| VOpaque (ty : TypeId) (text : string).

Definition dynType (v : Value) : option TypeId :=
  match v with
  | VNil => None
  | VBool _ => Some (IdBasic Bool)
  | VInt k _ => Some (IdBasic k)
  | VFloat k _ => Some (IdBasic k)
  | VString _ => Some (IdBasic String')
  | VError _ => Some (IdNamed "*errors.errorString")
  | VStruct n _ => Some (IdNamed n)
  | VMap _ => Some (IdNamed "map[string]interface {}")
  | VNamed n _ => Some (IdNamed n)
  | VJs _ => Some (IdNamed "js.Value")
  | VOpaque ty _ => Some ty
  end.

(** A static type as the compiler resolves a type name. *)
Inductive GoType :=
| TBasic (k : Kind)
| TInterface (name : string)
| TStruct (name : string) (fields : list (string * GoType))
| TDefined (name : string) (underlying : GoType).

Fixpoint kindOf (t : GoType) : Kind :=
  match t with
  | TBasic k => k
  | TInterface _ => Interface
  | TStruct _ _ => Struct
  | TDefined _ u => kindOf u
  end.

Definition typeId (t : GoType) : TypeId :=
  match t with
  | TBasic k => IdBasic k
  | TInterface n => IdNamed n
  | TStruct n _ => IdNamed n
  | TDefined n _ => IdNamed n
  end.

Definition zeroBasic (k : Kind) : Value :=
  match k with
  | Bool => VBool false
  | Int | Int8 | Int16 | Int32 | Int64
  | Uint | Uint8 | Uint16 | Uint32 | Uint64 | Uintptr => VInt k 0
  | Float32 | Float64 => VFloat k (S754_zero false)
  | String' => VString ""
  | _ => VOpaque (IdBasic k) "zero"
  end.

(** The zero value of a type, as [var x T] makes it. *)
Fixpoint zeroValue (t : GoType) : Value :=
  match t with
  | TBasic k => zeroBasic k
  | TInterface _ => VNil
  | TStruct n fs =>
      VStruct n ((fix zeros (l : list (string * GoType)) :=
        match l with
        | [] => []
        | (f, ft) :: l' => (f, zeroValue ft) :: zeros l'
        end) fs)
  | TDefined n u =>
      match zeroValue u with
      | VNil => VNil
      | v => VNamed n v
      end
  end.

(** ** Package fmt, as far as the generator and its output use it *)

Section Fmt.

(** What fmt prints for an operand under a verb outside the plain cases
    spelled out in [formatOperand] (floats, structs, maps, values with a
    [String] method, a verb that does not fit the operand), and the
    [%!(EXTRA ...)] text it appends for operands left over. *)
Variable fmtOther : string -> Value -> string.
Variable fmtExtra : list Value -> string.

Definition verbIs (verb : string) (verbs : list string) : bool :=
  bool_decide (verb ∈ verbs).

Definition formatOperand (verb : string) (v : Value) : string :=
  match v with
  | VString s => if verbIs verb ["s"; "v"; "+v"] then s else fmtOther verb v
  | VInt _ n => if verbIs verb ["d"; "v"; "+v"] then pretty n else fmtOther verb v
  | VBool b =>
      if verbIs verb ["t"; "v"; "+v"]
      then (if b then "true" else "false") else fmtOther verb v
  | VError msg => if verbIs verb ["s"; "v"; "+v"] then msg else fmtOther verb v
  | VNil => if verbIs verb ["v"; "+v"] then "<nil>" else fmtOther verb v
  | _ => fmtOther verb v
  end.

Definition leftOver (a : list Value) : string :=
  match a with
  | [] => ""
  | _ => fmtExtra a
  end.

(** One verb: it takes the next operand, or prints the MISSING text. *)
Definition verbStep (verb : string) (c : ascii) (a : list Value)
    (rest : list Value -> string) : string :=
  match a with
  | [] => "%!" +:+ String c "(MISSING)" +:+ rest []
  | v :: a' => formatOperand verb v +:+ rest a'
  end.

(** [fmt.Sprintf] for formats whose verbs are a single letter, possibly
    after the flag [+]; [%%] prints a percent sign. *)
Fixpoint Sprintf (format : string) (a : list Value) : string :=
  match format with
  | EmptyString => leftOver a
  | String c rest =>
      if negb (Ascii.eqb c "%") then String c (Sprintf rest a)
      else
        match rest with
        | EmptyString => "%!(NOVERB)" +:+ leftOver a
        | String c1 rest1 =>
            if Ascii.eqb c1 "%" then String "%" (Sprintf rest1 a)
            else if Ascii.eqb c1 "+" then
              match rest1 with
              | EmptyString => "%!(NOVERB)" +:+ leftOver a
              | String c2 rest2 =>
                  verbStep (String "+" (String c2 "")) c2 a (Sprintf rest2)
              end
            else verbStep (String c1 "") c1 a (Sprintf rest1)
        end
  end.

End Fmt.

(** [fmt.Sprint(i)] for an index. *)
Definition Sprint (i : nat) : string := pretty i.

(** [strings.Repeat]; a negative count panics. *)
Definition strings_Repeat (s : string) (count : Z) : option string :=
  if (count <? 0)%Z then None
  else Some (Nat.iter (Z.to_nat count) (fun acc => s +:+ acc) "").

(** ** The emitted fragments *)

(** One line of the dispatcher's [var ( ... )] block. *)
Inductive VarDef :=
| DefParam (name type : string)         (* name T *)
| DefArgument (name : string)           (* name protocol.Argument *)
| DefReflect (first second : string)    (* first, second reflect.Value *)
| DefOk.                                (* ok bool *)

(** The reply expression of the last [return]. *)
Inductive ReplyExpr :=
| ReplyId (x : string)
| ReplySprintf (format : string) (operands : list string).

(** The statements of a dispatcher case, one constructor per statement
    form the generator emits. *)
Inductive Stmt :=
| SVarDefs (defs : list VarDef)
  (* var ( defs ) *)
| SReflectValueOfArg (target arg : string)
  (* target = reflect.ValueOf(arg.Value) *)
| SReflectElem (target param : string)
  (* target = reflect.ValueOf(&param).Elem() *)
| SCopyFields (target source : string)
  (* for i := 0; i < target.NumField(); i++ {
       key := target.Type().Field(i).Name
       paramValueField := source.FieldByName(key)
       fieldValue := target.Field(i)
       if fieldValue.CanSet() { target.Field(i).Set(paramValueField) } } *)
| SLookupArg (arg key format operand : string)
  (* if arg, ok = args[key]; !ok {
       return "", errors.New(fmt.Sprintf(format, operand)) } *)
| SCastArg (param arg type format operand : string)
  (* if param, ok = arg.Value.(type); !ok {
       return "", errors.New(fmt.Sprintf(format, param, operand)) } *)
| SCall (fn : string) (args : list string)
  (* fn(args) *)
| SDefineCall (lhs : list string) (fn : string) (args : list string)
  (* lhs := fn(args) *)
| SIfNotNilReturn (x : string)
  (* if x != nil { return "", x } *)
| SReturnEmpty
  (* return "", nil *)
| SReturn (reply : ReplyExpr).
  (* return reply, nil *)

Record CaseClause := mkCase {
  CaseKey : string;           (* case "key": *)
  CaseBody : list Stmt
}.

(** func AgrowsReceive(data []byte) (string, error): the call of the
    decoder and the test of its error are the same in every output; the
    switch on functionName has the clauses below and a default clause
    returning errors.New(fmt.Sprintf(DefaultFormat, functionName)). *)
Record Receiver := mkReceiver {
  Cases : list CaseClause;
  DefaultFormat : string
}.

(** The native proxy: func ProxyName(ProxyParams) any, which encodes
    (EncodeName, options, EncodeArgs), returns the encoder's error if any
    and otherwise the result of sendMessage. *)
Record Proxy := mkProxy {
  ProxyName : string;
  ProxyParams : list (option string * string);
  EncodeName : string;
  EncodeArgs : list (string * string)
}.

(** The statements of a bridge wrapper. *)
Inductive WStmt :=
| WCheckLen (paramCount : nat) (format : string)
  (* if len(p) != paramCount {
       return js.Global().Get("Error").New(fmt.Sprintf(format, len(p))) } *)
| WConvert (asAny : string) (index : nat) (type : string)
  (* asAny, err := jsValueToAny(p[index], T), where T is the reflect.Type
     of [type], taken from a nil pointer to it *)
| WCheckErr (format : string)
  (* if err != nil { return Error.New(fmt.Sprintf(format, err)) } *)
| WAssert (param asAny type : string)
  (* param, ok := asAny.(type) *)
| WCheckOk (format : string)
  (* if !ok { return Error.New(fmt.Sprintf(format)) } *)
| WReturnCall (fn : string) (args : list string).
  (* return fn(args) *)

(** func WrapperName(this js.Value, p []js.Value) any *)
Record Wrapper := mkWrapper {
  WrapperName : string;
  WrapperBody : list WStmt
}.

(** One registration of the client's main:
    global.Set(GlobalName, js.FuncOf(Registered)); println(Message). *)
Record Registration := mkRegistration {
  GlobalName : string;
  Registered : string;
  Message : string
}.

(** The declarations a run adds to the output. *)
Inductive Generated :=
| GReceiver (r : Receiver)
| GJsValueToAny
| GProxy (p : Proxy)
| GWrapper (w : Wrapper)
| GSendMessage
| GClientMain (registrations : list Registration).

(** ** The generators *)

Definition modifiedFunctionFormat : string := "agrows_%s".
Definition wrapperFunctionFormat : string := "%sWrapper".

(** [param.Type.( *dst.Ident).Name]: the assertion panics on any other
    type expression. *)
Definition typeIdentName (param : DstFieldT) : option string :=
  match FType param with
  | Ident name => Some name
  | _ => None
  end.

(** [param.Names[0].Name]: panics on an empty list and on a nil name. *)
Definition firstName (param : DstFieldT) : option string :=
  mjoin (FNames param !! 0%nat).

Section Generators.

Variable fmtOther : string -> Value -> string.
Variable fmtExtra : list Value -> string.

Local Abbreviation Sprintf := (Sprintf fmtOther fmtExtra).

(** The lines of the [var] block for one parameter. *)
Definition paramVarDefs (paramInfo : ParamReflectInfo) : option (list VarDef) :=
  let param := DstField paramInfo in
  originalParamName ← firstName param;
  let paramName := originalParamName +:+ "Param" in
  paramType ← typeIdentName param;
  let paramNameArg := paramName +:+ "Arg" in
  Some ([DefParam paramName paramType; DefArgument paramNameArg] ++
        if IsStruct paramInfo
        then [DefReflect (paramName +:+ "Value") (originalParamName +:+ "Value")]
        else []).

(** The statements that fill one parameter variable. *)
Definition paramDecode (paramInfo : ParamReflectInfo) : option (list Stmt) :=
  let param := DstField paramInfo in
  originalParamName ← firstName param;
  let paramName := originalParamName +:+ "Param" in
  paramType ← typeIdentName param;
  let paramNameArg := paramName +:+ "Arg" in
  let paramNameValue := paramName +:+ "Value" in
  let paramValue := originalParamName +:+ "Value" in
  if IsStruct paramInfo then
    Some [SReflectValueOfArg paramNameValue paramNameArg;
          SReflectElem paramValue paramName;
          SCopyFields paramValue paramNameValue]
  else
    Some [SLookupArg paramNameArg originalParamName
            "parameter %s is not in the received arguments" originalParamName;
          SCastArg paramName paramNameArg paramType
            "failed to cast parameter '%s' to '%s'" paramType].

(** The operands of the call of the renamed implementation. *)
Definition callOperand (paramInfo : ParamReflectInfo) : option string :=
  name ← firstName (DstField paramInfo);
  Some (name +:+ "Param").

(** One round of the loop that names the result variables; the state is
    (firstReturnedError, firstReturnedString, varNames). *)
Definition nameResult (acc : option (string * string * list string))
    (ir : nat * ParamReflectInfo) : option (string * string * list string) :=
  '(firstReturnedError, firstReturnedString, varNames) ← acc;
  typeName ← typeIdentName (DstField ir.2);
  if decide (typeName = "error") then
    let varName := "err" +:+ Sprint ir.1 in
    Some (varName, firstReturnedString, varNames ++ [varName])
  else if decide (typeName = "string") then
    let varName := "str" +:+ Sprint ir.1 in
    Some (firstReturnedError, varName, varNames ++ [varName])
  else
    Some (firstReturnedError, firstReturnedString,
          varNames ++ ["ret" +:+ Sprint ir.1]).

Definition resultVars (results : list ParamReflectInfo)
  : option (string * string * list string) :=
  fold_left nameResult (imap pair results) (Some ("", "", [])).

(** The first half of a case: the [var] block, then the statements that
    fill each parameter in declared order. *)
Definition decodePart (fnInfo : FuncInfo) : option (list Stmt) :=
  defs ← (if decide (length (Params fnInfo) = 0%nat) then Some []
          else ds ← mapM paramVarDefs (Params fnInfo);
               Some [SVarDefs (concat ds ++ [DefOk])]);
  decodes ← mapM paramDecode (Params fnInfo);
  Some (defs ++ concat decodes).

(** The second half: the call of the renamed implementation and the
    reply. *)
Definition replyPart (name : string) (fnInfo : FuncInfo) : option (list Stmt) :=
  let modifiedFunctionName := Sprintf modifiedFunctionFormat [VString name] in
  operands ← mapM callOperand (Params fnInfo);
  if decide (length (Results fnInfo) = 0%nat) then
    Some [SCall modifiedFunctionName operands; SReturnEmpty]
  else
    '(firstReturnedError, firstReturnedString, varNames) ←
      resultVars (Results fnInfo);
    let checkError :=
      if decide (firstReturnedError = "") then []
      else [SIfNotNilReturn firstReturnedError] in
    strReturn ←
      (if decide (firstReturnedString = "") then
         repeated ← strings_Repeat ", '%+v'" (Z.of_nat (length varNames) - 1);
         Some (ReplySprintf (Sprintf "'%%+v'%s" [VString repeated]) varNames)
       else Some (ReplyId firstReturnedString));
    Some ([SDefineCall varNames modifiedFunctionName operands] ++
          checkError ++ [SReturn strReturn]).

Definition dispatchCase (fnInfo : FuncInfo) : option CaseClause :=
  name ← OriginalIdentifier fnInfo;
  decode ← decodePart fnInfo;
  reply ← replyPart name fnInfo;
  Some {| CaseKey := name; CaseBody := decode ++ reply |}.

Definition generateServerReceiver (infos : list FuncInfo) : option Receiver :=
  cases ← mapM dispatchCase infos;
  Some {| Cases := cases; DefaultFormat := "unknown function '%s'" |}.

(** The steps of the bridge wrapper for the parameter at position [i]. *)
Definition wrapperSteps (ip : nat * ParamReflectInfo) : option (list WStmt) :=
  let param := DstField ip.2 in
  if decide (length (FNames param) = 0%nat) then Some []
  else
    paramName ← firstName param;
    let paramNameAsAny := paramName +:+ "AsAny" in
    typeName ← typeIdentName param;
    Some [WConvert paramNameAsAny ip.1 typeName;
          WCheckErr (Sprintf "failed to make go type '%s' from js value: %%+v"
                       [VString typeName]);
          WAssert paramName paramNameAsAny typeName;
          WCheckOk (Sprintf "parameter '%s' is not in the received arguments"
                      [VString paramName])].

Definition proxyParam (paramInfo : ParamReflectInfo)
  : option (option string * string) :=
  let param := DstField paramInfo in
  if decide (length (FNames param) = 0%nat) then
    typeName ← typeIdentName param; Some (None, typeName)
  else
    name ← firstName param;
    typeName ← typeIdentName param; Some (Some name, typeName).

Definition encodeArg (paramInfo : ParamReflectInfo) : option (string * string) :=
  name ← firstName (DstField paramInfo);
  Some (name, name).

Definition wrapperOperand (paramInfo : ParamReflectInfo) : option (list string) :=
  let param := DstField paramInfo in
  if decide (length (FNames param) = 0%nat) then Some []
  else name ← firstName param; Some [name].

(** The pair the generator returns for one catalog entry: the native
    proxy [fn] and the bridge wrapper [exposedFn]. *)
Definition generateNewClientFunc (info : FuncInfo) : option (Proxy * Wrapper) :=
  name ← OriginalIdentifier info;
  params ← mapM proxyParam (Params info);
  encoded ← mapM encodeArg (Params info);
  let fn := {| ProxyName := name; ProxyParams := params;
               EncodeName := name; EncodeArgs := encoded |} in
  let paramCount := length (Params info) in
  steps ← mapM wrapperSteps (imap pair (Params info));
  operands ← mapM wrapperOperand (Params info);
  let exposedFn :=
    {| WrapperName := Sprintf wrapperFunctionFormat [VString name];
       WrapperBody :=
         [WCheckLen paramCount
            (Sprintf "expected %d arguments, got %%d"
               [VInt Int (Z.of_nat paramCount)])] ++
         concat steps ++ [WReturnCall name (concat operands)] |} in
  Some (fn, exposedFn).

(** [lo.Reduce] over the parameter types: the names joined by ", ". *)
Definition joinTypes (types : list string) : string :=
  fold_left (fun agg it =>
    agg +:+ it.2 +:+
    (if (Z.of_nat it.1 <? Z.of_nat (length types) - 1)%Z then ", " else ""))
    (imap pair types) "".

Definition registration (fnInfo : FuncInfo) : option Registration :=
  name ← OriginalIdentifier fnInfo;
  types ← mapM (fun item => typeIdentName (DstField item)) (Params fnInfo);
  Some {| GlobalName := name;
          Registered := Sprintf wrapperFunctionFormat [VString name];
          Message := Sprintf "AGROWS: '%s(%s)' function registered"
                       [VString name; VString (joinTypes types)] |}.

Definition generateClientMain (funcInfos : list FuncInfo) : option Generated :=
  registrations ← mapM registration funcInfos;
  Some (GClientMain registrations).

End Generators.

(** ** Running the emitted dispatcher *)

(** [protocol.Argument]: a dynamic value and its type tag. *)
Record Argument := mkArgument {
  ArgValue : Value;
  Typ : N
}.

Definition zeroArgument : Argument := {| ArgValue := VNil; Typ := 0 |}.

(** A [reflect.Value]: the zero Value, the value found in an interface, or
    the addressable variable reached through a pointer. *)
Inductive ReflectValue :=
| RZero
| RConst (v : Value)
| RVar (x : string).

(** What a variable of the dispatcher holds. *)
Inductive Cell :=
| CVal (v : Value)
| CArg (a : Argument)
| CRef (r : ReflectValue).

(** How a call of the dispatcher ends. *)
Inductive Outcome :=
| Returned (reply : string) (err : Value)
| Panicked (reason : string).

(** The variables, and the calls of implementations made so far (oldest
    first). *)
Record State := mkState {
  vars : gmap string Cell;
  calls : list (string * list Value)
}.

(** After a statement: go on, stop with an outcome, or the fragment is not
    a program the Go compiler accepts (a name it cannot resolve, a wrong
    number of values, a missing return).  The compiler's refusal of
    variables that are declared and not used is no part of a run: it is
    [unusedVariables] below. *)
Inductive Flow :=
| Next (st : State)
| Halt (st : State) (o : Outcome)
| Rejected.

Definition assoc {A} (key : string) (l : list (string * A)) : option A :=
  snd <$> find (fun kv => bool_decide (kv.1 = key)) l.

Fixpoint assocSet {A} (key : string) (a : A) (l : list (string * A))
  : list (string * A) :=
  match l with
  | [] => [(key, a)]
  | (k, b) :: l' =>
      if decide (k = key) then (k, a) :: l' else (k, b) :: assocSet key a l'
  end.

Section Dispatcher.

Variable fmtOther : string -> Value -> string.
Variable fmtExtra : list Value -> string.
Variable IsExported : string -> bool.

(** The types the output's package scope gives to type names (predeclared
    and declared), and which values satisfy which interface type. *)
Variable scope : gmap string GoType.
Variable implements : Value -> TypeId -> bool.

(** The renamed implementations the output keeps from the input, by name. *)
Variable implementation : string -> option (list Value -> list Value).

(** The codec's [protocol.DecodeFunctionCall(data, options)]. *)
Variable DecodeFunctionCall :
  list Byte.byte -> string * gmap string Argument * Value.

Local Abbreviation Sprintf := (Sprintf fmtOther fmtExtra).

(** The type assertion [v.(t)]. *)
Definition assertType (v : Value) (t : GoType) : bool :=
  if decide (kindOf t = Interface) then
    match v with
    | VNil => false
    | _ => implements v (typeId t)
    end
  else bool_decide (dynType v = Some (typeId t)).

(** Whether [v] may be stored in a variable of type [t]. *)
Definition assignable (v : Value) (t : GoType) : bool :=
  match v with
  | VNil => bool_decide (kindOf t = Interface)
  | _ => assertType v t
  end.

Definition readVal (st : State) (x : string) : option Value :=
  match vars st !! x with
  | Some (CVal v) => Some v
  | _ => None
  end.

Definition declare (vs : option (gmap string Cell)) (d : VarDef)
  : option (gmap string Cell) :=
  m ← vs;
  match d with
  | DefParam name type =>
      t ← scope !! type; Some (<[name := CVal (zeroValue t)]> m)
  | DefArgument name => Some (<[name := CArg zeroArgument]> m)
  | DefReflect first second =>
      Some (<[second := CRef RZero]> (<[first := CRef RZero]> m))
  | DefOk => Some (<["ok" := CVal (VBool false)]> m)
  end.

(** The value a [reflect.Value] stands for; none for the zero Value. *)
Definition reflected (st : State) (r : ReflectValue) : option Value :=
  match r with
  | RZero => None
  | RConst v => Some v
  | RVar x => readVal st x
  end.

(** [CanSet]: addressable, and reached through an exported field. *)
Definition canSet (r : ReflectValue) (key : string) : bool :=
  match r with
  | RVar _ => IsExported key
  | _ => false
  end.

(** [target.Field(i).Set(v)] for the field called [key] of the struct
    variable [x]. *)
Definition setField (st : State) (x key : string) (v : Value) : Flow :=
  match readVal st x with
  | Some (VStruct n fs) =>
      match scope !! n with
      | Some (TStruct _ fts) =>
          match assoc key fts with
          | Some ft =>
              if assignable v ft then
                Next {| vars := <[x := CVal (VStruct n (assocSet key v fs))]> (vars st);
                        calls := calls st |}
              else Halt st (Panicked "reflect.Set: value is not assignable to the field type")
          | None => Rejected
          end
      | _ => Rejected
      end
  | _ => Rejected
  end.

(** The body of the copying loop, once per field name of the target. *)
Fixpoint copyFields (st : State) (target source : ReflectValue)
    (keys : list string) : Flow :=
  match keys with
  | [] => Next st
  | key :: keys' =>
      match reflected st source with
      | Some (VStruct _ sfs) =>
          let paramValueField := assoc key sfs in
          if canSet target key then
            match paramValueField, target with
            | Some v, RVar x =>
                match setField st x key v with
                | Next st' => copyFields st' target source keys'
                | other => other
                end
            | _, _ =>
                Halt st (Panicked "reflect: call of reflect.Value.Set on zero Value")
            end
          else copyFields st target source keys'
      | _ =>
          Halt st (Panicked "reflect: call of reflect.Value.FieldByName on zero Value")
      end
  end.

Definition bindResults (lhs : list string) (rs : list Value)
    (m : gmap string Cell) : gmap string Cell :=
  fold_left (fun m xv => <[xv.1 := CVal xv.2]> m) (zip lhs rs) m.

Definition exec (args : gmap string Argument) (s : Stmt) (st : State) : Flow :=
  match s with
  | SVarDefs defs =>
      match fold_left declare defs (Some (vars st)) with
      | Some m => Next {| vars := m; calls := calls st |}
      | None => Rejected
      end
  | SReflectValueOfArg target arg =>
      match vars st !! arg with
      | Some (CArg a) =>
          let r := match ArgValue a with VNil => RZero | v => RConst v end in
          Next {| vars := <[target := CRef r]> (vars st); calls := calls st |}
      | _ => Rejected
      end
  | SReflectElem target param =>
      match readVal st param with
      | Some _ =>
          Next {| vars := <[target := CRef (RVar param)]> (vars st);
                  calls := calls st |}
      | None => Rejected
      end
  | SCopyFields target source =>
      match vars st !! target, vars st !! source with
      | Some (CRef rt), Some (CRef rs) =>
          match reflected st rt with
          | Some (VStruct _ fs) => copyFields st rt rs (map fst fs)
          | _ =>
              Halt st (Panicked "reflect: call of reflect.Value.NumField on a Value that is no struct")
          end
      | _, _ => Rejected
      end
  | SLookupArg arg key format operand =>
      match args !! key with
      | Some a =>
          Next {| vars := <[arg := CArg a]> (vars st); calls := calls st |}
      | None =>
          Halt st (Returned "" (VError (Sprintf format [VString operand])))
      end
  | SCastArg param arg type format operand =>
      match vars st !! arg, scope !! type with
      | Some (CArg a), Some t =>
          if assertType (ArgValue a) t then
            Next {| vars := <[param := CVal (ArgValue a)]> (vars st);
                    calls := calls st |}
          else
            Halt st (Returned ""
              (VError (Sprintf format [zeroValue t; VString operand])))
      | _, _ => Rejected
      end
  | SCall fn operands =>
      match implementation fn, mapM (readVal st) operands with
      | Some f, Some vs =>
          Next {| vars := vars st; calls := calls st ++ [(fn, vs)] |}
      | _, _ => Rejected
      end
  | SDefineCall lhs fn operands =>
      match implementation fn, mapM (readVal st) operands with
      | Some f, Some vs =>
          let rs := f vs in
          if decide (length rs = length lhs) then
            Next {| vars := bindResults lhs rs (vars st);
                    calls := calls st ++ [(fn, vs)] |}
          else Rejected
      | _, _ => Rejected
      end
  | SIfNotNilReturn x =>
      match readVal st x with
      | Some VNil => Next st
      | Some v => Halt st (Returned "" v)
      | None => Rejected
      end
  | SReturnEmpty => Halt st (Returned "" VNil)
  | SReturn (ReplyId x) =>
      match readVal st x with
      | Some (VString s) => Halt st (Returned s VNil)
      | _ => Rejected
      end
  | SReturn (ReplySprintf format operands) =>
      match mapM (readVal st) operands with
      | Some vs => Halt st (Returned (Sprintf format vs) VNil)
      | None => Rejected
      end
  end.

Fixpoint execBody (args : gmap string Argument) (body : list Stmt)
    (st : State) : Flow :=
  match body with
  | [] => Rejected
  | s :: rest =>
      match exec args s st with
      | Next st' => execBody args rest st'
      | other => other
      end
  end.

Definition initial : State := {| vars := ∅; calls := [] |}.

(** The emitted [AgrowsReceive]. *)
Definition AgrowsReceive (r : Receiver) (data : list Byte.byte) : Flow :=
  let '(functionName, args, err) := DecodeFunctionCall data in
  match err with
  | VNil =>
      match find (fun c => bool_decide (CaseKey c = functionName)) (Cases r) with
      | Some c => execBody args (CaseBody c) initial
      | None =>
          Halt initial
            (Returned "" (VError (Sprintf (DefaultFormat r) [VString functionName])))
      end
  | _ => Halt initial (Returned "" err)
  end.

End Dispatcher.

(** ** Running the emitted client *)

(** What the client does to the outside: the call of a native proxy by a
    wrapper, and the invocation of the host's sendMessage. *)
Inductive Event :=
| EvCall (fn : string) (operands : list Value)
| EvSend (data : list Byte.byte).

(** After a wrapper statement. *)
Inductive WFlow :=
| WNext (vars : gmap string Value)
| WHalt (result : Value) (events : list Event)
| WPanicked (reason : string)
| WRejected.

Definition int64Min : Z := - 2 ^ 63.
Definition int64Max : Z := 2 ^ 63 - 1.

(** The integer part of a finite double. *)
Definition truncate (f : spec_float) : option Z :=
  match f with
  | S754_zero _ => Some 0%Z
  | S754_finite s m e =>
      let a := Z.shiftl (Z.pos m) e in
      Some (if s then (- a)%Z else a)
  | _ => None
  end.

(** The reflect.Type of the empty interface, the target of every
    property of an object. *)
Definition anyType : GoType := TInterface "interface {}".

Section Client.

Variable fmtOther : string -> Value -> string.
Variable fmtExtra : list Value -> string.
Variable scope : gmap string GoType.
Variable implements : Value -> TypeId -> bool.

(** What the conversion of a double to [int] gives when the integer part
    does not fit (or there is none): Go leaves it to the implementation. *)
Variable implDependentInt : spec_float -> Z.

(** [encoding/json]: Marshal of a map[string]any, and Unmarshal into a
    fresh instance of a type (the instance it leaves, and the error). *)
Variable json_Marshal : list (string * Value) -> list Byte.byte * Value.
Variable json_Unmarshal : list Byte.byte -> GoType -> Value * Value.

(** The codec's [protocol.EncodeFunctionCall(name, options, args)], and
    the global namespace of the host. *)
Variable EncodeFunctionCall :
  string -> list (string * Value) -> list Byte.byte * Value.
Variable hostGlobal : string -> JsValue.

Local Abbreviation Sprintf := (Sprintf fmtOther fmtExtra).

(** js.Global().Get("Error").New(message), as a Go value. *)
Definition jsGlobalError (message : string) : Value :=
  VJs (JsErrorObject message).

(** [js.Value.Int] on a number: the double truncated to an int. *)
Definition Value_Int (f : spec_float) : Z :=
  match truncate f with
  | Some z =>
      if ((int64Min <=? z) && (z <=? int64Max))%Z then z
      else implDependentInt f
  | None => implDependentInt f
  end.

(** The conversion [uint(n)] of an int. *)
Definition toUint (n : Z) : Z := (n mod 2 ^ 64)%Z.

(** The end of the object case: through JSON into the target type. *)
Definition throughJSON (result : list (string * Value)) (targetType : GoType)
  : Value * Value :=
  let '(jsonData, err) := json_Marshal result in
  match err with
  | VNil =>
      let '(targetValue, err) := json_Unmarshal jsonData targetType in
      match err with
      | VNil => (targetValue, VNil)
      | _ =>
          (VNil, jsGlobalError
                   (Sprintf "failed to unmarshal json to target type: %v" [err]))
      end
  | _ =>
      (VNil, jsGlobalError
               (Sprintf "failed to marshal js object to json: %v" [err]))
  end.

(** The emitted [jsValueToAny(v, targetType)]; an object is the list of its
    own enumerable properties, whose keys are distinct. *)
Fixpoint jsValueToAny (v : JsValue) (targetType : GoType) {struct v}
  : Value * Value :=
  match v with
  | JsBoolean b => (VBool b, VNil)
  | JsNumber f =>
      match kindOf targetType with
      | Int | Int8 | Int16 | Int32 | Int64 => (VInt Int (Value_Int f), VNil)
      | Uint | Uint8 | Uint16 | Uint32 | Uint64 =>
          (VInt Uint (toUint (Value_Int f)), VNil)
      | Float32 | Float64 => (VFloat Float64 f, VNil)
      | _ => (VFloat Float64 f, VNil)
      end
  | JsString s => (VString s, VNil)
  | JsObject props =>
      let fix fill (keys : list (string * JsValue))
          (result : list (string * Value))
          : list (string * Value) + Value :=
        match keys with
        | [] => inl result
        | (key, property) :: keys' =>
            match jsValueToAny property anyType with
            | (value, VNil) => fill keys' (assocSet key value result)
            | (_, err) => inr err
            end
        end in
      match fill props [] with
      | inl result => throughJSON result targetType
      | inr err => (VNil, err)
      end
  | JsErrorObject _ => throughJSON [] targetType
  | JsFunction _ => (VJs v, VNil)
  | JsUndefined | JsNull => (VNil, VNil)
  | JsSymbol _ =>
      (VNil, jsGlobalError
               (Sprintf "unsupported js value type: %s"
                  [VString (JsType_String (JsValue_Type v))]))
  end.

(** The emitted [sendMessage(data)]. *)
Definition sendMessage (data : list Byte.byte) : Value * list Event :=
  let sendMessageFunc := hostGlobal "sendMessage" in
  match JsValue_Type sendMessageFunc with
  | TypeFunction => (VNil, [EvSend data])
  | _ => (jsGlobalError "sendMessage is not a JS function", [])
  end.

(** A call of the native proxy with its operands. *)
Definition runProxy (fn : Proxy) (operands : list Value)
  : option (Value * list Event) :=
  if decide (length (ProxyParams fn) = length operands) then
    let frame := zip (ProxyParams fn) operands in
    let lookup x :=
      snd <$> find (fun pv => bool_decide (pv.1.1 = Some x)) frame in
    entries ← mapM (fun kx => v ← lookup kx.2; Some (kx.1, v)) (EncodeArgs fn);
    let '(data, err) := EncodeFunctionCall (EncodeName fn) entries in
    match err with
    | VNil => Some (sendMessage data)
    | _ => Some (err, [])
    end
  else None.

Definition findProxy (program : list Generated) (name : string)
  : option Proxy :=
  head (omap (fun g =>
    match g with
    | GProxy fn => if decide (ProxyName fn = name) then Some fn else None
    | _ => None
    end) program).

Definition wexec (program : list Generated) (p : list JsValue) (s : WStmt)
    (m : gmap string Value) : WFlow :=
  match s with
  | WCheckLen paramCount format =>
      if decide (length p = paramCount) then WNext m
      else WHalt (jsGlobalError
                    (Sprintf format [VInt Int (Z.of_nat (length p))])) []
  | WConvert asAny index type =>
      match scope !! type with
      | Some t =>
          match p !! index with
          | Some v =>
              let '(value, err) := jsValueToAny v t in
              WNext (<["err" := err]> (<[asAny := value]> m))
          | None => WPanicked "index out of range"
          end
      | None => WRejected
      end
  | WCheckErr format =>
      match m !! "err" with
      | Some VNil => WNext m
      | Some err => WHalt (jsGlobalError (Sprintf format [err])) []
      | None => WRejected
      end
  | WAssert param asAny type =>
      match m !! asAny, scope !! type with
      | Some v, Some t =>
          if assertType implements v t
          then WNext (<["ok" := VBool true]> (<[param := v]> m))
          else WNext (<["ok" := VBool false]> (<[param := zeroValue t]> m))
      | _, _ => WRejected
      end
  | WCheckOk format =>
      match m !! "ok" with
      | Some (VBool true) => WNext m
      | Some (VBool false) => WHalt (jsGlobalError (Sprintf format [])) []
      | _ => WRejected
      end
  | WReturnCall fn operands =>
      match findProxy program fn, mapM (fun x => m !! x) operands with
      | Some proxy, Some vs =>
          match runProxy proxy vs with
          | Some (result, events) => WHalt result (EvCall fn vs :: events)
          | None => WRejected
          end
      | _, _ => WRejected
      end
  end.

Fixpoint wexecBody (program : list Generated) (p : list JsValue)
    (body : list WStmt) (m : gmap string Value) : WFlow :=
  match body with
  | [] => WRejected
  | s :: rest =>
      match wexec program p s m with
      | WNext m' => wexecBody program p rest m'
      | other => other
      end
  end.

(** A call of a bridge wrapper by the host with the argument array [p]. *)
Definition runWrapper (program : list Generated) (w : Wrapper)
    (p : list JsValue) : WFlow :=
  wexecBody program p (WrapperBody w) ∅.

End Client.

(** ** A run of the generator *)

Definition SERVER : N := 1.
Definition CLIENT : N := 2.

(** A reading of the clock ([time.Now()]). *)
Record Time := mkTime {
  Year : nat; Month : nat; Day : nat;
  Hour : nat; Minute : nat; Second : nat; Nanosecond : nat
}.

(** A number in decimal, padded with zeros on the left up to a width. *)
Definition padded (width n : nat) : string :=
  let digits := pretty n in
  Nat.iter (width - String.length digits) (String "0") digits.

(** [t.Format("2006-01-02")] and [t.Format("15:04:05")]. *)
Definition formatDate (t : Time) : string :=
  padded 4 (Year t) +:+ "-" +:+ padded 2 (Month t) +:+ "-" +:+ padded 2 (Day t).

Definition formatClock (t : Time) : string :=
  padded 2 (Hour t) +:+ ":" +:+ padded 2 (Minute t) +:+ ":" +:+
  padded 2 (Second t).

Definition newline : string := String (ascii_of_nat 10) "".
Definition tab : string := String (ascii_of_nat 9) "".

(** The raw literal of the provenance header. *)
Definition headerFormat : string :=
  "/*" +:+ newline +:+
  tab +:+ "Code generated by agrows. DO NOT EDIT :)" +:+ newline +:+
  tab +:+ "This code was generated on %s at %s" +:+ newline +:+
  tab +:+ "Any changes made to this file will be lost" +:+ newline +:+
  tab +:+ "*/" +:+ newline +:+
  tab.

(** A declaration of the output: one kept from the input tree, or one the
    run emitted. *)
Inductive OutDecl :=
| Original (d : Decl)
| Emitted (g : Generated).

(** What is handed to the printer and to the canonical formatter, which
    turn it into the bytes written: the text put in front, the package
    name and the declarations. *)
Record Artifact := mkArtifact {
  FilePrefix : string;
  ArtifactName : string;
  Combined : list OutDecl
}.

Definition isImport (x : OutDecl) : bool :=
  match x with
  | Original (GenDecl IMPORT _) => true
  | _ => false
  end.

(** The specifications of the import declarations among [decls]. *)
Definition importSpecs (decls : list OutDecl) : list Spec :=
  flat_map (fun item =>
    match item with
    | Original (GenDecl IMPORT specs) => specs
    | _ => []
    end) decls.

Section Run.

Variable IsExported : string -> bool.
Variable fmtOther : string -> Value -> string.
Variable fmtExtra : list Value -> string.

(** The import specifications jen renders for the packages the emitted
    fragments qualify. *)
Variable renderedImports : list Generated -> list Spec.

Local Abbreviation Sprintf := (Sprintf fmtOther fmtExtra).

Definition modifyOriginalFunctions (tree : File) : File :=
  {| PackageName := PackageName tree;
     Decls := map (fun n =>
       match n with
       | FuncDecl fn =>
           if IsExported (FuncName fn) then
             FuncDecl {| Recv := Recv fn;
                         FuncName := Sprintf modifiedFunctionFormat
                                       [VString (FuncName fn)];
                         Params_ := Params_ fn; Results_ := Results_ fn;
                         Body := Body fn; BodyInner := BodyInner fn |}
           else n
       | _ => n
       end) (Decls tree) |}.

Definition removeOriginalAndUnexportedFunctions (tree : File) : File :=
  {| PackageName := PackageName tree;
     Decls := List.filter (fun decl =>
       match decl with FuncDecl _ => false | _ => true end) (Decls tree) |}.

(** The rendered fragments read back as declarations: the import
    declaration, if any package is qualified, then the functions. *)
Definition decorated (generated : list Generated) : list OutDecl :=
  match renderedImports generated with
  | [] => []
  | specs => [Original (GenDecl IMPORT specs)]
  end ++ map Emitted generated.

Definition writeCombinedTreeAndGenerated (now1 now2 : Time) (tree : File)
    (generated : list Generated) (genType : N) : Artifact :=
  let name :=
    if decide (genType = SERVER) then PackageName tree
    else if decide (genType = CLIENT) then "main"
    else PackageName tree in
  let filePrefix :=
    if decide (genType = SERVER) then ""
    else if decide (genType = CLIENT)
    then "//go:build js && wasm && client" +:+ newline
    else "" in
  let filePrefix :=
    filePrefix +:+
    Sprintf headerFormat [VString (formatDate now1); VString (formatClock now2)] in
  let treeDecls := map Original (Decls tree) in
  let genDst := decorated generated in
  let sourceImportSpecs := importSpecs treeDecls in
  let genImportSpecs := importSpecs genDst in
  let declsWithoutImports :=
    List.filter (fun x => negb (isImport x)) (treeDecls ++ genDst) in
  let rebuildImportSpec :=
    if decide (genType = SERVER)
    then GenDecl IMPORT (sourceImportSpecs ++ genImportSpecs)
    else GenDecl IMPORT genImportSpecs in
  {| FilePrefix := filePrefix;
     ArtifactName := name;
     Combined := Original rebuildImportSpec :: declsWithoutImports |}.

(** The fragments of the client output. *)
Definition clientFragments (functions : list FuncInfo)
  : option (list Generated) :=
  stubs ← mapM (generateNewClientFunc fmtOther fmtExtra) functions;
  main ← generateClientMain fmtOther fmtExtra functions;
  Some ([GJsValueToAny] ++
        flat_map (fun stub => [GProxy stub.1; GWrapper stub.2]) stubs ++
        [GSendMessage; main]).

(** The work of [main] between reading the input and writing the output,
    for the two clock readings taken while the header is built; [None]
    when a generator panics. *)
Definition run (now1 now2 : Time) (tree : File) (generatorType : N)
  : option Artifact :=
  let typeMap := extractTypeMap tree in
  let functions := extractFuncInfo IsExported tree typeMap in
  if decide (generatorType = SERVER) then
    receiver ← generateServerReceiver fmtOther fmtExtra functions;
    Some (writeCombinedTreeAndGenerated now1 now2
            (modifyOriginalFunctions tree) [GReceiver receiver] generatorType)
  else if decide (generatorType = CLIENT) then
    fragments ← clientFragments functions;
    Some (writeCombinedTreeAndGenerated now1 now2
            (removeOriginalAndUnexportedFunctions tree) fragments generatorType)
  else
    Some (writeCombinedTreeAndGenerated now1 now2 tree [] generatorType).

End Run.

(** ** Readings of inputs and outputs used in the statements *)

(** [FieldList.NumFields]: the number of parameters or results a field
    list declares, an anonymous field counting for one. *)
Definition NumFields (fields : option (list Field)) : nat :=
  match fields with
  | None => 0
  | Some l =>
      fold_left (fun n f =>
        match Names f with
        | [] => n + 1
        | names => n + length names
        end) l 0
  end.

(** The exported function declarations of a file, in file order. *)
Definition exportedFunctions (IsExported : string -> bool) (tree : File)
  : list FuncDeclT :=
  flat_map (fun decl =>
    match decl with
    | FuncDecl fn => if IsExported (FuncName fn) then [fn] else []
    | _ => []
    end) (Decls tree).

Definition isIdent (e : Expr) : bool :=
  match e with
  | Ident _ => true
  | _ => false
  end.

(** Every parameter and result type of the declaration is an identifier:
    the input the generators are written for. *)
Definition identTyped (fn : FuncDeclT) : bool :=
  forallb (fun f => isIdent (Type' f)) (default [] (Params_ fn)) &&
  forallb (fun f => isIdent (Type' f)) (default [] (Results_ fn)).

(** The switch cases, the native proxies and the bridge wrappers found in
    an output. *)
Definition switchCases (a : Artifact) : list CaseClause :=
  flat_map (fun d =>
    match d with
    | Emitted (GReceiver r) => Cases r
    | _ => []
    end) (Combined a).

Definition proxies (a : Artifact) : list Proxy :=
  flat_map (fun d =>
    match d with
    | Emitted (GProxy fn) => [fn]
    | _ => []
    end) (Combined a).

Definition wrappers (a : Artifact) : list Wrapper :=
  flat_map (fun d =>
    match d with
    | Emitted (GWrapper w) => [w]
    | _ => []
    end) (Combined a).

(** How often a property holds in a list. *)
Definition occurrences {A} (P : A -> bool) (l : list A) : nat :=
  length (List.filter P l).

(** The end of a run of the dispatcher: its outcome and the calls made. *)
Definition result (fl : Flow) : option (Outcome * list (string * list Value)) :=
  match fl with
  | Halt st o => Some (o, calls st)
  | _ => None
  end.

(** The statements of a case run one after the other, without asking for
    a [return] at the end: the state after them, unless one of them stops. *)
Fixpoint execSteps (fmtOther : string -> Value -> string)
    (fmtExtra : list Value -> string) (IsExported : string -> bool)
    (scope : gmap string GoType) (implements : Value -> TypeId -> bool)
    (implementation : string -> option (list Value -> list Value))
    (args : gmap string Argument) (body : list Stmt) (st : State) : Flow :=
  match body with
  | [] => Next st
  | s :: rest =>
      match exec fmtOther fmtExtra IsExported scope implements implementation
              args s st with
      | Next st' =>
          execSteps fmtOther fmtExtra IsExported scope implements
            implementation args rest st'
      | other => other
      end
  end.

(** The declared type names of a list of results. *)
Definition typeNames (results : list ParamReflectInfo) : option (list string) :=
  mapM (fun r => typeIdentName (DstField r)) results.

(** The variable the dispatcher gives to the result at position [i]. *)
Definition varNameFor (i : nat) (typeName : string) : string :=
  if decide (typeName = "error") then "err" +:+ Sprint i
  else if decide (typeName = "string") then "str" +:+ Sprint i
  else "ret" +:+ Sprint i.

(** The position of the last item equal to [ty], counting from [k]. *)
Fixpoint lastIndexFrom (k : nat) (ty : string) (tys : list string)
  : option nat :=
  match tys with
  | [] => None
  | t :: tys' =>
      match lastIndexFrom (S k) ty tys' with
      | Some j => Some j
      | None => if decide (t = ty) then Some k else None
      end
  end.

Definition lastIndexOf (ty : string) (tys : list string) : option nat :=
  lastIndexFrom 0 ty tys.

(** One value under the verb [%+v], between single quotes; a list of them
    joined by a comma and a space. *)
Definition quoted (fmtOther : string -> Value -> string) (v : Value) : string :=
  "'" +:+ formatOperand fmtOther "+v" v +:+ "'".

Definition joinQuoted (fmtOther : string -> Value -> string)
    (vs : list Value) : string :=
  match vs with
  | [] => ""
  | v :: vs' =>
      quoted fmtOther v +:+
      fold_right (fun w acc => ", " +:+ quoted fmtOther w +:+ acc) "" vs'
  end.

(** The reply of a dispatcher case, read off the declared result types
    [tys] and the values [rs] the implementation returned: the last result
    of type error, when it is not nil, ends the call; otherwise the last
    result of type string is the reply; otherwise every result is printed.
    There is no reply when the value at a string position is no string. *)
Definition replyOf (fmtOther : string -> Value -> string)
    (tys : list string) (rs : list Value) : option Outcome :=
  let failure :=
    match lastIndexOf "error" tys with
    | Some i =>
        match rs !! i with
        | Some VNil | None => None
        | Some e => Some e
        end
    | None => None
    end in
  match failure with
  | Some e => Some (Returned "" e)
  | None =>
      match lastIndexOf "string" tys with
      | Some j =>
          match rs !! j with
          | Some (VString s) => Some (Returned s VNil)
          | _ => None
          end
      | None => Some (Returned (joinQuoted fmtOther rs) VNil)
      end
  end.

(** The values at the positions whose declared type is not error. *)
Definition nonErrorResults (tys : list string) (rs : list Value) : list Value :=
  flat_map (fun tv => if decide (tv.1 = "error") then [] else [tv.2])
    (zip tys rs).

(** The reply as the specification words it, for a signature with at most
    one error and at most one string result: a non-nil error result ends
    the call; else the string result is the reply; else the results other
    than the error are printed, quoted and joined. *)
Definition specifiedReply (fmtOther : string -> Value -> string)
    (tys : list string) (rs : list Value) : option Outcome :=
  let failure :=
    match lastIndexOf "error" tys with
    | Some i =>
        match rs !! i with
        | Some VNil | None => None
        | Some e => Some e
        end
    | None => None
    end in
  match failure with
  | Some e => Some (Returned "" e)
  | None =>
      match lastIndexOf "string" tys with
      | Some j =>
          match rs !! j with
          | Some (VString s) => Some (Returned s VNil)
          | _ => None
          end
      | None =>
          Some (Returned (joinQuoted fmtOther (nonErrorResults tys rs)) VNil)
      end
  end.

(** The integer and floating kinds the conversion routine tells apart. *)
Definition signedKinds : list Kind := [Int; Int8; Int16; Int32; Int64].
Definition unsignedKinds : list Kind := [Uint; Uint8; Uint16; Uint32; Uint64].

(** The integer kinds other than those of [int] and [uint]. *)
Definition narrowSigned : list Kind := [Int8; Int16; Int32; Int64].
Definition narrowUnsigned : list Kind := [Uint8; Uint16; Uint32; Uint64].

(** No percent sign occurs in the text. *)
Fixpoint percentFree (s : string) : bool :=
  match s with
  | EmptyString => true
  | String c s' => negb (Ascii.eqb c "%") && percentFree s'
  end.

(** The repeated part of the reply format. *)
Definition repeated (n : nat) : string :=
  Nat.iter n (fun acc => ", '%+v'" +:+ acc) "".

(** A catalog parameter with a name and an identifier for type. *)
Definition namedAndTyped (q : ParamReflectInfo) : Prop :=
  is_Some (firstName (DstField q)) /\ is_Some (typeIdentName (DstField q)).

(** What the generator needs of a parameter to emit its four statements,
    and the wrapper to run them. *)
Definition resolved (scope : gmap string GoType) (q : ParamReflectInfo)
  : Prop :=
  is_Some (firstName (DstField q)) /\
  exists T t, typeIdentName (DstField q) = Some T /\ scope !! T = Some t.

(** The statements that call no implementation. *)
Definition silent (s : Stmt) : bool :=
  match s with
  | SCall _ _ | SDefineCall _ _ _ => false
  | _ => true
  end.

(** The last result of type error is nil, or there is none. *)
Definition noFailure (tys : list string) (rs : list Value) : Prop :=
  match lastIndexOf "error" tys with
  | Some i => rs !! i = Some VNil
  | None => True
  end.

(** ** Variables declared and not used *)

(** The variables a statement declares in the block of its case. *)
Definition declares (s : Stmt) : list string :=
  match s with
  | SVarDefs defs =>
      flat_map (fun d =>
        match d with
        | DefParam name _ | DefArgument name => [name]
        | DefReflect first second => [first; second]
        | DefOk => ["ok"]
        end) defs
  | SDefineCall lhs _ _ => lhs
  | _ => []
  end.

(** The variables a statement reads.  An assignment to a variable is no
    use of it; taking its address is. *)
Definition reads (s : Stmt) : list string :=
  match s with
  | SVarDefs _ => []
  | SReflectValueOfArg _ arg => [arg]
  | SReflectElem _ param => [param]
  | SCopyFields target source => [target; source]
  | SLookupArg _ _ _ _ => ["args"; "ok"]
  | SCastArg param arg _ _ _ => [arg; "ok"; param]
  | SCall _ args => args
  | SDefineCall _ _ args => args
  | SIfNotNilReturn x => [x]
  | SReturnEmpty => []
  | SReturn (ReplyId x) => [x]
  | SReturn (ReplySprintf _ operands) => operands
  end.

(** The variables of a case that the Go compiler reports as declared and
    not used: those the case declares and no statement of it reads. *)
Definition declaredAndNotUsed (body : list Stmt) : list string :=
  filter (fun x => x ∉ flat_map reads body) (flat_map declares body).

(** The same for the whole of AgrowsReceive.  Its first statement
    declares functionName, args and err; the switch reads functionName
    and the test after the decoder reads err in every output, args is
    read by the lookups of the cases only.  Go compiles no function for
    which this list is not empty. *)
Definition unusedVariables (r : Receiver) : list string :=
  (if bool_decide
        ("args" ∈ flat_map (fun c => flat_map reads (CaseBody c)) (Cases r))
   then [] else ["args"]) ++
  flat_map (fun c => declaredAndNotUsed (CaseBody c)) (Cases r).

(** ** Instances for the worked examples *)

(** fmt on operands outside the plain cases, as a placeholder text: the
    examples below only print strings, integers, nil and errors. *)
Definition plainOther (verb : string) (v : Value) : string :=
  "%!" +:+ verb +:+ "(?)".

Definition plainExtra (a : list Value) : string := "%!(EXTRA ?)".

(** [token.IsExported] on identifiers that start with an ASCII letter. *)
Definition asciiExported (name : string) : bool :=
  match name with
  | String c _ => (65 <=? nat_of_ascii c)%nat && (nat_of_ascii c <=? 90)%nat
  | EmptyString => false
  end.

(** The predeclared type names. *)
Definition predeclared : gmap string GoType :=
  list_to_map
    [("bool", TBasic Bool); ("string", TBasic String');
     ("int", TBasic Int); ("int8", TBasic Int8); ("int16", TBasic Int16);
     ("int32", TBasic Int32); ("int64", TBasic Int64);
     ("uint", TBasic Uint); ("uint8", TBasic Uint8);
     ("uint16", TBasic Uint16); ("uint32", TBasic Uint32);
     ("uint64", TBasic Uint64); ("uintptr", TBasic Uintptr);
     ("byte", TBasic Uint8); ("rune", TBasic Int32);
     ("float32", TBasic Float32); ("float64", TBasic Float64);
     ("complex64", TBasic Complex64); ("complex128", TBasic Complex128);
     ("error", TInterface "error"); ("any", TInterface "interface {}")].

(** Every value satisfies the empty interface, error values satisfy
    [error]. *)
Definition plainImplements (v : Value) (t : TypeId) : bool :=
  match t, v with
  | IdNamed "interface {}", _ => true
  | IdNamed "error", VError _ => true
  | _, _ => false
  end.

Definition field (names : list string) (type : string) : Field :=
  {| Names := names; Type' := Ident type |}.

Definition function (name : string) (params results : list Field) : Decl :=
  FuncDecl {| Recv := None; FuncName := name;
              Params_ := Some params; Results_ := Some results;
              Body := ""; BodyInner := [] |}.

(** func Sum(a, b int) (int, error); func helper(); func Greet(name string) string *)
Definition sampleFile : File :=
  {| PackageName := "functions";
     Decls := [GenDecl IMPORT [ImportSpec "fmt"];
               function "Sum" [field ["a"; "b"] "int"]
                              [field [] "int"; field [] "error"];
               function "helper" [] [];
               function "Greet" [field ["name"] "string"] [field [] "string"]] |}.

(** func Pair() (a, b int) *)
Definition pairFile : File :=
  {| PackageName := "functions";
     Decls := [function "Pair" [] [field ["a"; "b"] "int"]] |}.

(** type CalcInput struct { A int; B int }
    func CrazyMath(inp CalcInput, scale int) string *)
Definition calcFile : File :=
  {| PackageName := "functions";
     Decls := [GenDecl TYPE
                 [TypeSpec "CalcInput" (StructType [("A", "int"); ("B", "int")])];
               function "CrazyMath"
                 [field ["inp"] "CalcInput"; field ["scale"] "int"]
                 [field [] "string"]] |}.

Definition calcScope : gmap string GoType :=
  <["CalcInput" := TStruct "CalcInput" [("A", TBasic Int); ("B", TBasic Int)]]>
    predeclared.

(** type Empty struct {}
    func Ping(e Empty, n int) string *)
Definition emptyFile : File :=
  {| PackageName := "functions";
     Decls := [GenDecl TYPE [TypeSpec "Empty" (StructType [])];
               function "Ping" [field ["e"] "Empty"; field ["n"] "int"]
                               [field [] "string"]] |}.

Definition emptyScope : gmap string GoType :=
  <["Empty" := TStruct "Empty" []]> predeclared.

(** func Twice() (error, error); func Keep(n int) *)
Definition twiceFile : File :=
  {| PackageName := "functions";
     Decls := [function "Twice" [] [field [] "error"; field [] "error"];
               function "Keep" [field ["n"] "int"] []] |}.

(** func Names(n int) (string, string) *)
Definition namesFile : File :=
  {| PackageName := "functions";
     Decls := [function "Names" [field ["n"] "int"]
                                [field [] "string"; field [] "string"]] |}.

(** func Run(); func (w Worker) Run() *)
Definition methodFile : File :=
  {| PackageName := "functions";
     Decls := [function "Run" [] [];
               FuncDecl {| Recv := Some [field ["w"] "Worker"];
                           FuncName := "Run"; Params_ := Some [];
                           Results_ := None; Body := ""; BodyInner := [] |}] |}.

(** A codec that reads every payload as the given call. *)
Definition decodesTo (name : string) (args : gmap string Argument)
  : list Byte.byte -> string * gmap string Argument * Value :=
  fun _ => (name, args, VNil).

Definition noImports (generated : list Generated) : list Spec := [].

(** The double nearest to 3.7: 8331659310635418 / 2^51. *)
Definition threePointSeven : spec_float :=
  S754_finite false 8331659310635418 (-51).

(** The catalog of a file, and the dispatcher emitted for it (an empty
    one should the generator panic). *)
Definition catalogOf (tree : File) : list FuncInfo :=
  extractFuncInfo asciiExported tree (extractTypeMap tree).

Definition receiverOf (tree : File) : Receiver :=
  default {| Cases := []; DefaultFormat := "" |}
    (generateServerReceiver plainOther plainExtra (catalogOf tree)).

(** Implementations for the sample files: Sum adds, Greet greets, and the
    others return a constant. *)
Definition sampleImplementation (fn : string)
  : option (list Value -> list Value) :=
  if decide (fn = "agrows_Sum") then
    Some (fun vs =>
      match vs with
      | [VInt _ a; VInt _ b] => [VInt Int (a + b); VNil]
      | _ => [VInt Int 0; VError "Sum: operands"]
      end)
  else if decide (fn = "agrows_Greet") then
    Some (fun vs =>
      match vs with
      | [VString name] => [VString ("Hello, " +:+ name)]
      | _ => [VString ""]
      end)
  else if decide (fn = "agrows_CrazyMath") then Some (fun _ => [VString "Result: 0"])
  else if decide (fn = "agrows_Ping") then Some (fun _ => [VString "pong"])
  else None.

(** An implementation of Twice whose first result is given and whose
    second result is nil. *)
Definition twiceImplementation (first : Value) (fn : string)
  : option (list Value -> list Value) :=
  if decide (fn = "agrows_Twice") then Some (fun _ => [first; VNil]) else None.

Definition intArgument (n : Z) : Argument := {| ArgValue := VInt Int n; Typ := 0 |}.

(** The table {a: 2, b: 3}. *)
Definition sumArguments : gmap string Argument :=
  <["a" := intArgument 2]> (<["b" := intArgument 3]> ∅).

(** The dispatcher emitted for a sample file, called with a payload that
    decodes to the given name and table. *)
Definition receive (scope : gmap string GoType)
    (implementation : string -> option (list Value -> list Value))
    (tree : File) (name : string) (args : gmap string Argument) : Flow :=
  AgrowsReceive plainOther plainExtra asciiExported scope plainImplements
    implementation (decodesTo name args) (receiverOf tree) [].

(** An outside world for the client: an encoder that always succeeds with
    an empty payload, a JSON codec that is never reached, and a host with
    a sendMessage function. *)
Definition plainEncode (name : string) (args : list (string * Value))
  : list Byte.byte * Value := ([], VNil).

Definition plainMarshal (m : list (string * Value)) : list Byte.byte * Value :=
  ([], VNil).

Definition plainUnmarshal (data : list Byte.byte) (t : GoType) : Value * Value :=
  (zeroValue t, VNil).

Definition plainHost (name : string) : JsValue := JsFunction name.

Definition saturate (f : spec_float) : Z := 0.

(** The pair emitted for the entry at a position of a catalog. *)
Definition stubOf (tree : File) (i : nat) : Proxy * Wrapper :=
  default ({| ProxyName := ""; ProxyParams := []; EncodeName := "";
              EncodeArgs := [] |},
           {| WrapperName := ""; WrapperBody := [] |})
    (catalogOf tree !! i ≫= generateNewClientFunc plainOther plainExtra).

(** func Narrow(n int32) *)
Definition narrowFile : File :=
  {| PackageName := "functions";
     Decls := [function "Narrow" [field ["n"] "int32"] []] |}.

(** ** Readings used for the dispatcher's decoding *)

(** The last character of a text. *)
Fixpoint lastChar (s : string) : option ascii :=
  match s with
  | EmptyString => None
  | String c s' =>
      match s' with
      | EmptyString => Some c
      | _ => lastChar s'
      end
  end.

(** The keys a statement looks up in the argument table. *)
Definition lookedUp (s : Stmt) : list string :=
  match s with
  | SLookupArg _ key _ _ => [key]
  | _ => []
  end.

(** The implementations a statement calls. *)
Definition called (s : Stmt) : list string :=
  match s with
  | SCall fn _ | SDefineCall _ fn _ => [fn]
  | _ => []
  end.

(** The static type a parameter's type name resolves to. *)
Definition typeOfParam (scope : gmap string GoType) (q : ParamReflectInfo)
  : option GoType :=
  T ← typeIdentName (DstField q); scope !! T.

(** Every parameter type resolves, so that the [var] block is accepted. *)
Definition declarable (scope : gmap string GoType)
    (params : list ParamReflectInfo) : bool :=
  forallb (fun q => bool_decide (is_Some (typeOfParam scope q))) params.

(** No parameter is classified as a struct. *)
Definition primitives (params : list ParamReflectInfo) : bool :=
  forallb (fun q => negb (IsStruct q)) params.

(** The table entries found under the names of the parameters, in the
    order of the parameters. *)
Definition argumentsFor (args : gmap string Argument)
    (params : list ParamReflectInfo) : option (list Argument) :=
  mapM (fun q => n ← firstName (DstField q); args !! n) params.

(** The entry holds a value of the type the parameter declares. *)
Definition wellTyped (scope : gmap string GoType)
    (implements : Value -> TypeId -> bool)
    (q : ParamReflectInfo) (a : Argument) : bool :=
  match typeOfParam scope q with
  | Some t => assertType implements (ArgValue a) t
  | None => false
  end.

(** The names of the parameters. *)
Definition paramNames (params : list ParamReflectInfo) : option (list string) :=
  mapM (fun q => firstName (DstField q)) params.

(** The variables of a case after the parameters named [names] were
    filled from the entries [entries]. *)
Definition decoded (m : gmap string Cell) (bindings : list (string * Argument))
  : gmap string Cell :=
  fold_left (fun m na =>
    <[na.1 +:+ "Param" := CVal (ArgValue na.2)]>
      (<[(na.1 +:+ "Param") +:+ "Arg" := CArg na.2]> m)) bindings m.

(** The parameter is decoded as a primitive, and the table holds under
    its name a value of the type it declares. *)
Definition accepted (scope : gmap string GoType)
    (implements : Value -> TypeId -> bool) (args : gmap string Argument)
    (q : ParamReflectInfo) : bool :=
  negb (IsStruct q) &&
  match firstName (DstField q) ≫= (args !!.) with
  | Some a => wellTyped scope implements q a
  | None => false
  end.

(** A codec that reads the empty payload as a call with the first table
    and every other payload as a call with the second. *)
Definition decodesEither (name : string) (args args' : gmap string Argument)
  : list Byte.byte -> string * gmap string Argument * Value :=
  fun data =>
    match data with
    | [] => (name, args, VNil)
    | _ => (name, args', VNil)
    end.

Definition stringArgument (s : string) : Argument :=
  {| ArgValue := VString s; Typ := 0 |}.

(** The calls of implementations a run of the dispatcher has made. *)
Definition callsOf (fl : Flow) : list (string * list Value) :=
  match result fl with
  | Some (_, cs) => cs
  | None => []
  end.

(** ** Readings used for the bridge wrappers *)

(** The names a bridge wrapper uses for itself. *)
Definition wrapperReserved : list string := ["this"; "p"; "err"; "ok"].

(** No parameter name is one of the wrapper's own names, nor the AsAny
    variable of a parameter. *)
Definition hygienic (names : list string) : bool :=
  forallb (fun n =>
    bool_decide (n ∉ wrapperReserved) &&
    forallb (fun n' => bool_decide (n <> n' +:+ "AsAny")) names) names.

(** The variables of a wrapper after the parameters of [bindings] were
    converted and asserted. *)
Definition asserted (m : gmap string Value) (bindings : list (string * Value))
  : gmap string Value :=
  fold_left (fun m nv =>
    <["ok" := VBool true]>
      (<[nv.1 := nv.2]>
         (<["err" := VNil]> (<[nv.1 +:+ "AsAny" := nv.2]> m)))) bindings m.

Section ClientReadings.

Variable fmtOther : string -> Value -> string.
Variable fmtExtra : list Value -> string.
Variable scope : gmap string GoType.
Variable implements : Value -> TypeId -> bool.
Variable implDependentInt : spec_float -> Z.
Variable json_Marshal : list (string * Value) -> list Byte.byte * Value.
Variable json_Unmarshal : list Byte.byte -> GoType -> Value * Value.

(** What the wrapper hands on for a parameter: the bridge value converted
    against the parameter's type, when the conversion gives no error and
    the result has that type. *)
Definition convertedArgument (q : ParamReflectInfo) (v : JsValue)
  : option Value :=
  t ← typeOfParam scope q;
  match jsValueToAny fmtOther fmtExtra implDependentInt json_Marshal
          json_Unmarshal v t with
  | (value, VNil) => if assertType implements value t then Some value else None
  | _ => None
  end.

End ClientReadings.

(** The conversion of a bridge value that is no object against the empty
    interface. *)
Definition scalar (v : JsValue) : option Value :=
  match v with
  | JsBoolean b => Some (VBool b)
  | JsNumber f => Some (VFloat Float64 f)
  | JsString s => Some (VString s)
  | JsFunction _ => Some (VJs v)
  | JsUndefined | JsNull => Some VNil
  | _ => None
  end.

(** The loop of the conversion routine over the properties of an object,
    [conv] converting one property. *)
Fixpoint fillProperties (conv : JsValue -> Value * Value)
    (keys : list (string * JsValue)) (result : list (string * Value))
  : list (string * Value) + Value :=
  match keys with
  | [] => inl result
  | (key, property) :: keys' =>
      match conv property with
      | (value, VNil) => fillProperties conv keys' (assocSet key value result)
      | (_, err) => inr err
      end
  end.

(** The catalog entry at a position, and the fragments of the client
    output of a file (none should the generator panic). *)
Definition entryOf (tree : File) (i : nat) : FuncInfo :=
  default {| OriginalIdentifier := None; Params := []; Results := [] |}
    (catalogOf tree !! i).

Definition clientProgram (tree : File) : list Generated :=
  default [] (clientFragments plainOther plainExtra (catalogOf tree)).

(** The doubles 2 and 3. *)
Definition two : spec_float := S754_finite false 1 1.
Definition three : spec_float := S754_finite false 3 0.

(** The case emitted for the entry at a position of a catalog. *)
Definition caseOf (tree : File) (i : nat) : CaseClause :=
  default {| CaseKey := ""; CaseBody := [] |} (Cases (receiverOf tree) !! i).

(** ** Readings used for the layout of the output *)

(** The declarations an output keeps from the input, and the fragments it
    adds, each in the order of the output. *)
Definition originals (decls : list OutDecl) : list Decl :=
  flat_map (fun d => match d with Original x => [x] | Emitted _ => [] end) decls.

Definition emitted (decls : list OutDecl) : list Generated :=
  flat_map (fun d => match d with Emitted g => [g] | Original _ => [] end) decls.

Definition isImportDecl (d : Decl) : bool :=
  match d with
  | GenDecl IMPORT _ => true
  | _ => false
  end.

Definition isFuncDecl (d : Decl) : bool :=
  match d with
  | FuncDecl _ => true
  | _ => false
  end.

(** The import specifications of a file, in file order. *)
Definition sourceImports (tree : File) : list Spec :=
  flat_map (fun d =>
    match d with
    | GenDecl IMPORT specs => specs
    | _ => []
    end) (Decls tree).

(** The type names of the named parameters of a declaration, one per
    name. *)
Definition paramTypeNames (fn : FuncDeclT) : list string :=
  flat_map (fun f =>
    match Type' f with
    | Ident T => map (fun _ => T) (Names f)
    | _ => []
    end) (default [] (Params_ fn)).

(** The line the client prints when it registers a function. *)
Definition registeredMessage (fn : FuncDeclT) : string :=
  "AGROWS: '" +:+ FuncName fn +:+ "(" +:+
  String.concat ", " (paramTypeNames fn) +:+ ")' function registered".

(** The registrations of the main function of an output. *)
Definition registrations (a : Artifact) : list Registration :=
  flat_map (fun d =>
    match d with
    | Emitted (GClientMain rs) => rs
    | _ => []
    end) (Combined a).

(** What the generators need of a declaration: an identifier for the
    type of every named parameter (client and server) and of every result
    (server). *)
Definition clientReady (fn : FuncDeclT) : bool :=
  forallb (fun f => isIdent (Type' f) || bool_decide (Names f = []))
    (default [] (Params_ fn)).

Definition serverReady (fn : FuncDeclT) : bool :=
  clientReady fn &&
  forallb (fun f => isIdent (Type' f)) (default [] (Results_ fn)).

(** A declaration under its new name, as the server output keeps it. *)
Definition renamed (fn : FuncDeclT) : FuncDeclT :=
  {| Recv := Recv fn; FuncName := "agrows_" +:+ FuncName fn;
     Params_ := Params_ fn; Results_ := Results_ fn;
     Body := Body fn; BodyInner := BodyInner fn |}.

(** A reading of the clock, and the output of a run on a sample file at
    that reading (an empty output should the generator panic). *)
Definition stamp : Time := mkTime 2024 7 1 9 5 3 0.

Definition outputOf (tree : File) (generatorType : N) : Artifact :=
  default {| FilePrefix := ""; ArtifactName := ""; Combined := [] |}
    (run asciiExported plainOther plainExtra noImports stamp stamp tree
       generatorType).

(** ** Readings used for the type map *)

Definition typesOfSpec (spec : Spec) : InnerTypes :=
  match spec with
  | TypeSpec name ty => [(name, ty)]
  | _ => []
  end.

(** The type declarations of a file in the order the walk meets them:
    for a declaration group its own type specifications, then those
    below its specifications; for a function those of its body. *)
Definition declaredTypes (node : File) : InnerTypes :=
  flat_map (fun decl =>
    match decl with
    | GenDecl _ specs => flat_map typesOfSpec specs ++ flat_map innerOfSpec specs
    | FuncDecl fn => BodyInner fn
    | BadDecl => []
    end) (Decls node).

(** The type the last declaration of a name gives it. *)
Definition lastDeclared (name : string) (types : InnerTypes) : option Expr :=
  snd <$> last (List.filter (fun nt => bool_decide (nt.1 = name)) types).

(** ** The debug rendering of the catalog *)

Section Rendering.

Variable fmtOther : string -> Value -> string.
Variable fmtExtra : list Value -> string.

(** [ParamReflectInfo.String]: the name when there is one, else the name
    of the type, which panics when the type is no identifier. *)
Definition ParamReflectInfo_String (p : ParamReflectInfo) : option string :=
  match FNames (DstField p) with
  | Some name :: _ =>
      Some (Sprintf fmtOther fmtExtra "%s isStruct: %t"
              [VString name; VBool (IsStruct p)])
  | _ =>
      name ← typeIdentName (DstField p);
      Some (Sprintf fmtOther fmtExtra "%s isStruct: %t"
              [VString name; VBool (IsStruct p)])
  end.

(** [FuncInfo.String]. *)
Definition FuncInfo_String (f : FuncInfo) : option string :=
  params ← mapM ParamReflectInfo_String (Params f);
  results ← mapM ParamReflectInfo_String (Results f);
  Some (Sprintf fmtOther fmtExtra "func %s(%s) (%s)"
          [VString (ToIdentifierString f);
           VString (String.concat ", " params);
           VString (String.concat ", " results)]).

End Rendering.

(** Every result without a name has an identifier for type. *)
Definition printable (fn : FuncDeclT) : bool :=
  forallb (fun f => isIdent (Type' f) || negb (bool_decide (Names f = [])))
    (default [] (Results_ fn)).

(** ** The catalog of the earlier revision *)

Module Earlier.

(** The catalog entry of the earlier revision keeps field lists. *)
Record FuncInfo := mkFuncInfo {
  OriginalIdentifier : string;
  Params : list Field;
  Results : list Field
}.

Section Catalog.

Variable IsExported : string -> bool.

Definition extractFuncInfo (node : File) : list FuncInfo :=
  flat_map (fun decl =>
    match decl with
    | FuncDecl fn =>
        if IsExported (FuncName fn) then
          [{| OriginalIdentifier := FuncName fn;
              Params :=
                match Params_ fn with
                | None => []
                | Some l =>
                    flat_map (fun param =>
                      map (fun name => {| Names := [name]; Type' := Type' param |})
                        (Names param)) l
                end;
              Results :=
                match Results_ fn with
                | None => []
                | Some l =>
                    flat_map (fun result =>
                      match Names result with
                      | [] => [{| Names := []; Type' := Type' result |}]
                      | names =>
                          map (fun name =>
                                 {| Names := [name]; Type' := Type' result |})
                            names
                      end) l
                end |}]
        else []
    | _ => []
    end) (Decls node).

End Catalog.

End Earlier.

End Model.

Import Model.

(** * Properties *)

#[local] Arguments String.append !_ _ : simpl nomatch.

(** ** Strings and fmt *)

Lemma append_empty_r (s : string) : s +:+ "" = s.
Proof. induction s as [|c s IH]; simpl; congruence. Qed.

Lemma append_assoc (s t u : string) : (s +:+ t) +:+ u = s +:+ (t +:+ u).
Proof. induction s as [|c s IH]; simpl; congruence. Qed.

Lemma append_length (s t : string) :
  String.length (s +:+ t) = String.length s + String.length t.
Proof. induction s as [|c s IH]; simpl; congruence. Qed.

(** A common suffix can be cancelled. *)
Lemma append_inj_l (s1 s2 t : string) : s1 +:+ t = s2 +:+ t -> s1 = s2.
Proof.
  revert s2. induction s1 as [|c s1 IH]; intros [|d s2] H; simpl in H.
  - done.
  - apply (f_equal String.length) in H. simpl in H.
    rewrite append_length in H. lia.
  - apply (f_equal String.length) in H. simpl in H.
    rewrite append_length in H. lia.
  - injection H as -> H. f_equal. by apply IH.
Qed.

Section FmtFacts.

Variable fmtOther : string -> Value -> string.
Variable fmtExtra : list Value -> string.

Local Abbreviation Sprintf := (Sprintf fmtOther fmtExtra).

Lemma Sprintf_modified name :
  Sprintf modifiedFunctionFormat [VString name] = "agrows_" +:+ name.
Proof. simpl. by rewrite append_empty_r. Qed.

Lemma Sprintf_wrapper name :
  Sprintf wrapperFunctionFormat [VString name] = name +:+ "Wrapper".
Proof. reflexivity. Qed.

Lemma Sprintf_unknown name :
  Sprintf "unknown function '%s'" [VString name]
  = "unknown function '" +:+ name +:+ "'".
Proof. reflexivity. Qed.

Lemma Sprintf_missing name :
  Sprintf "parameter %s is not in the received arguments" [VString name]
  = "parameter " +:+ name +:+ " is not in the received arguments".
Proof. reflexivity. Qed.

End FmtFacts.

(** ** The catalog *)

Section CatalogFacts.

Variable IsExported : string -> bool.

Lemma extractFuncInfo_functions tree typeMap :
  extractFuncInfo IsExported tree typeMap
  = map (funcInfoOf typeMap) (exportedFunctions IsExported tree).
Proof.
  unfold extractFuncInfo, exportedFunctions.
  induction (Decls tree) as [|[fn| |] l IH]; simpl; try done.
  rewrite IH. by destruct (IsExported (FuncName fn)).
Qed.

(** Grouped parameter names are exploded, in declaration order. *)
Lemma paramInfos_names typeMap l :
  map (fun info => firstName (DstField info)) (paramInfos typeMap (Some l))
  = map Some (flat_map Names l).
Proof.
  simpl. induction l as [|f l IH]; simpl; [done|].
  rewrite !map_app, IH. f_equal.
  rewrite !map_map. by apply map_ext.
Qed.

(** One entry per result field, whatever the number of names it groups. *)
Lemma resultInfos_length typeMap l :
  length (resultInfos typeMap (Some l)) = length l.
Proof. simpl. by rewrite length_map. Qed.

End CatalogFacts.

(** C7 (the code falls short of it): the catalog builder keeps the
    exported functions in file order and explodes grouped parameters, one
    entry per name; but it records one entry per result field, so that a
    field grouping several names, as in [func Pair() (a, b int)], yields a
    single ResultInfo, named after the first of them: two results are
    declared, one is recorded. *)
Theorem C7_grouped_results_recorded_once :
  (forall IsExported tree typeMap,
     map OriginalIdentifier (extractFuncInfo IsExported tree typeMap)
     = map (fun fn => Some (FuncName fn)) (exportedFunctions IsExported tree)) /\
  (forall typeMap l,
     map (fun info => firstName (DstField info)) (paramInfos typeMap (Some l))
     = map Some (flat_map Names l)) /\
  (forall typeMap l, length (resultInfos typeMap (Some l)) = length l) /\
  let functions := extractFuncInfo asciiExported pairFile (extractTypeMap pairFile) in
  map (fun fn => NumFields (Results_ fn)) (exportedFunctions asciiExported pairFile)
  = [2] /\
  map (fun info => length (Results info)) functions = [1] /\
  map (fun info => map (fun r => FNames (DstField r)) (Results info)) functions
  = [[[Some "a"]]].
Proof.
  split_and!.
  - intros IsExported tree typeMap.
    by rewrite extractFuncInfo_functions, map_map.
  - apply paramInfos_names.
  - apply resultInfos_length.
  - by vm_compute.
Qed.

(** ** The run and its header *)

Section RunFacts.

Variable IsExported : string -> bool.
Variable fmtOther : string -> Value -> string.
Variable fmtExtra : list Value -> string.
Variable renderedImports : list Generated -> list Spec.

Local Abbreviation run := (run IsExported fmtOther fmtExtra renderedImports).
Local Abbreviation writeCombinedTreeAndGenerated :=
  (writeCombinedTreeAndGenerated fmtOther fmtExtra renderedImports).

(** The clock reaches the output through the header only. *)
Lemma writeCombined_clock now1 now2 now1' now2' tree generated genType :
  ArtifactName (writeCombinedTreeAndGenerated now1 now2 tree generated genType)
  = ArtifactName (writeCombinedTreeAndGenerated now1' now2' tree generated genType) /\
  Combined (writeCombinedTreeAndGenerated now1 now2 tree generated genType)
  = Combined (writeCombinedTreeAndGenerated now1' now2' tree generated genType).
Proof. split; unfold Model.writeCombinedTreeAndGenerated; cbv beta iota zeta delta [ArtifactName Combined]; reflexivity. Qed.

(** C8 (as amended): for a fixed source and mode, two runs end alike but
    for the header: both panic, or both hand the printer the same package
    name and the same declarations; and when their clock readings print
    the same date (first reading) and the same time of day (second
    reading), the whole artifact is the same. *)
Theorem C8_same_source_and_mode_same_output_but_for_the_stamp
    now1 now2 now1' now2' tree generatorType :
  (ArtifactName <$> run now1 now2 tree generatorType
   = ArtifactName <$> run now1' now2' tree generatorType /\
   Combined <$> run now1 now2 tree generatorType
   = Combined <$> run now1' now2' tree generatorType) /\
  (formatDate now1 = formatDate now1' ->
   formatClock now2 = formatClock now2' ->
   run now1 now2 tree generatorType = run now1' now2' tree generatorType).
Proof.
  unfold Model.run. split.
  - destruct (decide (generatorType = SERVER)) as [_|_];
      [|destruct (decide (generatorType = CLIENT)) as [_|_]].
    + destruct (generateServerReceiver _ _ _) as [receiver|];
        cbn [mbind option_bind fmap option_fmap option_map];
        [|split; reflexivity].
      split;
        [exact (f_equal Some
                  (proj1 (writeCombined_clock now1 now2 now1' now2' _ _ _)))
        |exact (f_equal Some
                  (proj2 (writeCombined_clock now1 now2 now1' now2' _ _ _)))].
    + destruct (clientFragments _ _ _) as [fragments|];
        cbn [mbind option_bind fmap option_fmap option_map];
        [|split; reflexivity].
      split;
        [exact (f_equal Some
                  (proj1 (writeCombined_clock now1 now2 now1' now2' _ _ _)))
        |exact (f_equal Some
                  (proj2 (writeCombined_clock now1 now2 now1' now2' _ _ _)))].
    + cbn [fmap option_fmap option_map].
      split;
        [exact (f_equal Some
                  (proj1 (writeCombined_clock now1 now2 now1' now2' _ _ _)))
        |exact (f_equal Some
                  (proj2 (writeCombined_clock now1 now2 now1' now2' _ _ _)))].
  - intros Hdate Hclock. unfold Model.writeCombinedTreeAndGenerated.
    by rewrite Hdate, Hclock.
Qed.

End RunFacts.

(** C8, on two clock readings that differ by a nanosecond. *)
Lemma C8_same_stamp_witness :
  formatDate (mkTime 2024 7 1 9 5 3 0) = formatDate (mkTime 2024 7 1 9 5 3 1) /\
  formatClock (mkTime 2024 7 1 9 5 3 0) = formatClock (mkTime 2024 7 1 9 5 3 1) /\
  run asciiExported plainOther plainExtra noImports
    (mkTime 2024 7 1 9 5 3 0) (mkTime 2024 7 1 9 5 3 0) sampleFile SERVER
  = run asciiExported plainOther plainExtra noImports
      (mkTime 2024 7 1 9 5 3 1) (mkTime 2024 7 1 9 5 3 1) sampleFile SERVER.
Proof.
  split; [reflexivity|]. split; [reflexivity|].
  apply (C8_same_source_and_mode_same_output_but_for_the_stamp asciiExported
           plainOther plainExtra noImports); reflexivity.
Defined.

(** C8 as stated fails: the same source and mode, run one second apart,
    give outputs whose headers differ. *)
Lemma C8_counterexample :
  run asciiExported plainOther plainExtra noImports
    (mkTime 2024 7 1 9 5 3 0) (mkTime 2024 7 1 9 5 3 0) sampleFile SERVER
  <> run asciiExported plainOther plainExtra noImports
       (mkTime 2024 7 1 9 5 4 0) (mkTime 2024 7 1 9 5 4 0) sampleFile SERVER.
Proof.
  intros H. apply (f_equal (fmap FilePrefix)) in H.
  vm_compute in H. discriminate H.
Qed.

(** ** The conversion routine *)


Section ConversionFacts.

Variable fmtOther : string -> Value -> string.
Variable fmtExtra : list Value -> string.
Variable implDependentInt : spec_float -> Z.
Variable json_Marshal : list (string * Value) -> list Byte.byte * Value.
Variable json_Unmarshal : list Byte.byte -> GoType -> Value * Value.

Local Abbreviation jsValueToAny :=
  (jsValueToAny fmtOther fmtExtra implDependentInt json_Marshal json_Unmarshal).


Lemma number_signed f t :
  kindOf t ∈ signedKinds ->
  jsValueToAny (JsNumber f) t = (VInt Int (Value_Int implDependentInt f), VNil).
Proof.
  intros Hk. simpl. unfold signedKinds in Hk.
  repeat (apply elem_of_cons in Hk as [->|Hk]; [done|]).
  by apply elem_of_nil in Hk.
Qed.

Lemma number_unsigned f t :
  kindOf t ∈ unsignedKinds ->
  jsValueToAny (JsNumber f) t
  = (VInt Uint (toUint (Value_Int implDependentInt f)), VNil).
Proof.
  intros Hk. simpl. unfold unsignedKinds in Hk.
  repeat (apply elem_of_cons in Hk as [->|Hk]; [done|]).
  by apply elem_of_nil in Hk.
Qed.



End ConversionFacts.

(** ** What the generators emit *)

Lemma filter_absent {A} (key : A -> string) (l : list A) (x : string) :
  x ∉ map key l -> List.filter (fun a => bool_decide (key a = x)) l = [].
Proof.
  induction l as [|a l IH]; simpl; intros Hnotin; [done|].
  apply not_elem_of_cons in Hnotin as [Hne Hnotin].
  rewrite bool_decide_eq_false_2 by done. by apply IH.
Qed.

Lemma occurrences_once {A} (key : A -> string) (l : list A) (x : string) :
  NoDup (map key l) -> x ∈ map key l ->
  occurrences (fun a => bool_decide (key a = x)) l = 1.
Proof.
  unfold occurrences. induction l as [|a l IH]; simpl; intros Hnd Hin.
  - by apply elem_of_nil in Hin.
  - apply NoDup_cons in Hnd as [Hnotin Hnd].
    apply elem_of_cons in Hin as [->|Hin].
    + rewrite bool_decide_eq_true_2 by done. simpl.
      by rewrite filter_absent.
    + rewrite bool_decide_eq_false_2; [by apply IH|].
      intros Heq. apply Hnotin. by rewrite Heq.
Qed.

Section GeneratorFacts.

Variable fmtOther : string -> Value -> string.
Variable fmtExtra : list Value -> string.

Local Abbreviation dispatchCase := (dispatchCase fmtOther fmtExtra).
Local Abbreviation generateServerReceiver :=
  (generateServerReceiver fmtOther fmtExtra).
Local Abbreviation generateNewClientFunc :=
  (generateNewClientFunc fmtOther fmtExtra).

Lemma dispatchCase_key fnInfo c :
  dispatchCase fnInfo = Some c -> OriginalIdentifier fnInfo = Some (CaseKey c).
Proof.
  unfold Model.dispatchCase. intros H.
  destruct (OriginalIdentifier fnInfo) as [name|]; [|done]. simpl in H.
  destruct (decodePart fnInfo); [|done]. simpl in H.
  destruct (replyPart fmtOther fmtExtra name fnInfo); [|done]. simpl in H.
  by injection H as <-.
Qed.

Lemma generateServerReceiver_keys infos r :
  generateServerReceiver infos = Some r ->
  map (fun c => Some (CaseKey c)) (Cases r) = map OriginalIdentifier infos /\
  DefaultFormat r = "unknown function '%s'".
Proof.
  unfold Model.generateServerReceiver. intros H.
  destruct (mapM dispatchCase infos) as [cases|] eqn:Hcases; [|done].
  injection H as <-. simpl. split; [|done].
  apply mapM_Some_1 in Hcases.
  induction Hcases as [|info c infos cases Hc _ IH]; simpl; [done|].
  by rewrite IH, (dispatchCase_key _ _ Hc).
Qed.

Lemma generateNewClientFunc_names info fn w :
  generateNewClientFunc info = Some (fn, w) ->
  exists name, OriginalIdentifier info = Some name /\
    ProxyName fn = name /\ EncodeName fn = name /\
    WrapperName w = name +:+ "Wrapper".
Proof.
  unfold Model.generateNewClientFunc. intros H.
  destruct (OriginalIdentifier info) as [name|]; [|done]. simpl in H.
  destruct (mapM proxyParam (Params info)); [|done]. simpl in H.
  destruct (mapM encodeArg (Params info)); [|done]. simpl in H.
  destruct (mapM _ (imap pair (Params info))); [|done]. simpl in H.
  destruct (mapM wrapperOperand (Params info)); [|done]. simpl in H.
  injection H as <- <-. by exists name.
Qed.

End GeneratorFacts.

(** ** The names of the result variables *)

Lemma nameResult_None l : fold_left nameResult l None = None.
Proof. by induction l. Qed.

Lemma lastIndexFrom_cons k ty t tys :
  lastIndexFrom k ty (t :: tys)
  = match lastIndexFrom (S k) ty tys with
    | Some j => Some j
    | None => if decide (t = ty) then Some k else None
    end.
Proof. done. Qed.

(** One round of the naming loop, after the induction hypothesis [IH] for
    the rounds that follow it. *)
Ltac name_round IH k :=
  rewrite IH;
  match goal with
  | |- context [typeNames ?results] =>
      destruct (typeNames results) as [?tys|]; [|done]
  end;
  cbn [mbind option_bind mret option_ret];
  rewrite !lastIndexFrom_cons, imap_cons;
  rewrite (imap_ext (_ ∘ S) (fun i => varNameFor (S k + i)))
    by (intros; unfold compose; simpl; f_equal; lia);
  replace (k + 0) with k by lia;
  rewrite <-(assoc_L (++));
  try (rewrite !decide_False by done;
       unfold varNameFor at 2; rewrite !decide_False by done);
  repeat match goal with
         | |- context [lastIndexFrom ?j ?ty ?l] =>
             destruct (lastIndexFrom j ty l)
         end;
  done.

Lemma resultVars_from k results fe fs vs :
  fold_left nameResult (imap (fun i r => (k + i, r)) results) (Some (fe, fs, vs))
  = tys ← typeNames results;
    Some (match lastIndexFrom k "error" tys with
          | Some j => "err" +:+ Sprint j
          | None => fe
          end,
          match lastIndexFrom k "string" tys with
          | Some j => "str" +:+ Sprint j
          | None => fs
          end,
          vs ++ imap (fun i => varNameFor (k + i)) tys).
Proof.
  revert k fe fs vs. induction results as [|r results IH]; intros k fe fs vs.
  - simpl. by rewrite app_nil_r.
  - rewrite imap_cons. cbn [fold_left].
    rewrite (imap_ext _ (fun i r => (S k + i, r)))
      by (intros; unfold compose; simpl; f_equal; lia).
    unfold typeNames. cbn [mapM]. fold (typeNames results).
    unfold nameResult at 2. cbn [mbind option_bind snd fst].
    destruct (typeIdentName (DstField r)) as [ty|]; cbn [mbind option_bind];
      [|apply nameResult_None].
    replace (k + 0) with k by lia.
    destruct (decide (ty = "error")) as [->|Hne]; [name_round IH k|].
    destruct (decide (ty = "string")) as [->|Hne']; name_round IH k.
Qed.

Lemma resultVars_spec results :
  resultVars results
  = tys ← typeNames results;
    Some (match lastIndexOf "error" tys with
          | Some j => "err" +:+ Sprint j
          | None => ""
          end,
          match lastIndexOf "string" tys with
          | Some j => "str" +:+ Sprint j
          | None => ""
          end,
          imap varNameFor tys).
Proof.
  unfold resultVars.
  rewrite (imap_ext pair (fun i r => (0 + i, r))) by done.
  rewrite resultVars_from. by destruct (typeNames results).
Qed.

Lemma typeNames_length results tys :
  typeNames results = Some tys -> length tys = length results.
Proof. intros H. symmetry. by eapply length_mapM. Qed.

Lemma lastIndexFrom_lookup k ty tys j :
  lastIndexFrom k ty tys = Some j -> k <= j /\ tys !! (j - k) = Some ty.
Proof.
  revert k. induction tys as [|t tys IH]; intros k; [done|].
  rewrite lastIndexFrom_cons.
  destruct (lastIndexFrom (S k) ty tys) as [j'|] eqn:Hlast.
  - intros [= <-]. apply IH in Hlast as [Hle Hlook]. split; [lia|].
    by replace (j' - k) with (S (j' - S k)) by lia.
  - destruct (decide (t = ty)) as [->|]; [|done]. intros [= <-].
    split; [lia|]. by replace (k - k) with 0 by lia.
Qed.

Lemma lastIndexOf_lookup ty tys j :
  lastIndexOf ty tys = Some j -> tys !! j = Some ty.
Proof.
  intros H. apply lastIndexFrom_lookup in H as [_ H].
  by replace (j - 0) with j in H by lia.
Qed.

Lemma lastIndexFrom_absent k ty tys :
  lastIndexFrom k ty tys = None -> ty ∉ tys.
Proof.
  revert k. induction tys as [|t tys IH]; intros k; [intros _; apply not_elem_of_nil|].
  rewrite lastIndexFrom_cons.
  destruct (lastIndexFrom (S k) ty tys) eqn:Hlast; [done|].
  destruct (decide (t = ty)); [done|]. intros _.
  apply not_elem_of_cons. split; [done|]. by eapply IH.
Qed.

Lemma varNameFor_inj i j t t' : varNameFor i t = varNameFor j t' -> i = j.
Proof.
  unfold varNameFor, Sprint.
  repeat case_decide; simpl; intros Heq; try discriminate Heq;
    injection Heq as Heq; by apply (inj pretty) in Heq.
Qed.

Lemma varNames_NoDup tys : NoDup (imap varNameFor tys).
Proof.
  apply NoDup_alt. intros i j x Hi Hj.
  rewrite list_lookup_imap in Hi, Hj.
  destruct (tys !! i) as [t|]; [|done]. destruct (tys !! j) as [t'|]; [|done].
  simpl in Hi, Hj. injection Hi as <-. injection Hj as Hj.
  symmetry. by eapply varNameFor_inj.
Qed.

(** ** Reading back the bound results *)

Lemma bindResults_other lhs rs m x :
  x ∉ lhs -> bindResults lhs rs m !! x = m !! x.
Proof.
  unfold bindResults. revert rs m.
  induction lhs as [|y lhs IH]; intros rs m Hx; [done|].
  apply not_elem_of_cons in Hx as [Hne Hx].
  destruct rs as [|r rs]; [done|]. simpl.
  rewrite IH by done. by rewrite lookup_insert_ne.
Qed.

Lemma bindResults_lookup lhs rs m i x v :
  NoDup lhs -> lhs !! i = Some x -> rs !! i = Some v ->
  bindResults lhs rs m !! x = Some (CVal v).
Proof.
  revert rs m i. induction lhs as [|y lhs IH]; intros rs m i Hnd Hx Hv; [done|].
  apply NoDup_cons in Hnd as [Hy Hnd].
  destruct rs as [|r rs]; [done|].
  destruct i as [|i]; simpl in Hx, Hv.
  - injection Hx as ->. injection Hv as ->.
    change (bindResults (x :: lhs) (v :: rs) m)
      with (bindResults lhs rs (<[x := CVal v]> m)).
    rewrite bindResults_other by done. apply lookup_insert_eq.
  - change (bindResults (y :: lhs) (r :: rs) m)
      with (bindResults lhs rs (<[y := CVal r]> m)).
    by eapply IH.
Qed.

Lemma readVal_bound lhs rs m cs i x v :
  NoDup lhs -> lhs !! i = Some x -> rs !! i = Some v ->
  readVal {| vars := bindResults lhs rs m; calls := cs |} x = Some v.
Proof.
  intros. unfold readVal. simpl. by erewrite bindResults_lookup.
Qed.

Lemma readVal_all_bound lhs rs m cs :
  NoDup lhs -> length lhs = length rs ->
  mapM (readVal {| vars := bindResults lhs rs m; calls := cs |}) lhs = Some rs.
Proof.
  intros Hnd Hlen. apply mapM_Some_2.
  apply Forall2_same_length_lookup_2; [done|].
  intros i x v Hx Hv. by eapply readVal_bound.
Qed.

(** ** The reply *)

Section ReplyFacts.

Variable fmtOther : string -> Value -> string.
Variable fmtExtra : list Value -> string.
Variable IsExported : string -> bool.
Variable scope : gmap string GoType.
Variable implements : Value -> TypeId -> bool.
Variable implementation : string -> option (list Value -> list Value).

Local Abbreviation Sprintf := (Sprintf fmtOther fmtExtra).
Local Abbreviation quoted := (quoted fmtOther).
Local Abbreviation joinQuoted := (joinQuoted fmtOther).
Local Abbreviation exec :=
  (exec fmtOther fmtExtra IsExported scope implements implementation).
Local Abbreviation execBody :=
  (execBody fmtOther fmtExtra IsExported scope implements implementation).
Local Abbreviation execSteps :=
  (execSteps fmtOther fmtExtra IsExported scope implements implementation).


Lemma strings_Repeat_verbs n :
  strings_Repeat ", '%+v'" (Z.of_nat (S n) - 1) = Some (repeated n).
Proof.
  unfold strings_Repeat.
  replace (Z.of_nat (S n) - 1)%Z with (Z.of_nat n) by lia.
  destruct (Z.ltb_spec (Z.of_nat n) 0); [lia|].
  by rewrite Nat2Z.id.
Qed.

Lemma Sprintf_reply_format r :
  Sprintf "'%%+v'%s" [VString r] = "'%+v'" +:+ r.
Proof. simpl. by rewrite append_empty_r. Qed.

Lemma Sprintf_repeated vs :
  Sprintf ("'" +:+ repeated (length vs)) vs
  = "'" +:+ fold_right (fun w acc => ", " +:+ quoted w +:+ acc) "" vs.
Proof.
  induction vs as [|w vs IH]; [done|].
  cbn [length repeated Nat.iter]. fold (repeated (length vs)).
  simpl in *. rewrite IH. unfold Model.quoted. simpl.
  by rewrite !append_assoc.
Qed.

Lemma Sprintf_reply v vs :
  Sprintf ("'%+v'" +:+ repeated (length vs)) (v :: vs) = joinQuoted (v :: vs).
Proof.
  pose proof (Sprintf_repeated vs) as H. simpl in *. rewrite H.
  unfold Model.quoted. simpl. by rewrite !append_assoc.
Qed.

Lemma execBody_app args a b st :
  execBody args (a ++ b) st
  = match execSteps args a st with
    | Next st' => execBody args b st'
    | other => other
    end.
Proof.
  revert st. induction a as [|s a IH]; intros st; [done|].
  simpl. destruct (exec args s st); by try apply IH.
Qed.

#[local] Arguments String.append : simpl never.

Lemma replyOf_no_results rs o :
  length rs = 0 -> replyOf fmtOther [] rs = Some o -> o = Returned "" VNil.
Proof.
  intros Hlen%length_zero_iff_nil. subst rs. by intros [= <-].
Qed.

Lemma replyPart_run name fnInfo reply tys operands args st vs f o :
  replyPart fmtOther fmtExtra name fnInfo = Some reply ->
  typeNames (Results fnInfo) = Some tys ->
  mapM callOperand (Params fnInfo) = Some operands ->
  mapM (readVal st) operands = Some vs ->
  implementation ("agrows_" +:+ name) = Some f ->
  length (f vs) = length tys ->
  replyOf fmtOther tys (f vs) = Some o ->
  result (execBody args reply st)
  = Some (o, calls st ++ [("agrows_" +:+ name, vs)]).
Proof.
  intros Hreply Htys Hoperands Hvs Himpl Hlen Ho.
  unfold replyPart in Hreply. rewrite Sprintf_modified, Hoperands in Hreply.
  cbn [mbind option_bind] in Hreply.
  pose proof (typeNames_length _ _ Htys) as Hlen'.
  destruct (decide (length (Results fnInfo) = 0)) as [Hzero|Hpos].
  { injection Hreply as <-. simpl. rewrite Himpl, Hvs. simpl.
    destruct tys; [|simpl in Hlen'; lia].
    by rewrite (replyOf_no_results _ _ Hlen Ho). }
  rewrite resultVars_spec, Htys in Hreply. cbn [mbind option_bind] in Hreply.
  destruct tys as [|t tys]; [simpl in Hlen'; lia|].
  set (tys0 := t :: tys) in *.
  set (varNames := imap varNameFor tys0) in *.
  assert (length varNames = S (length tys)) as Hnames
    by (unfold varNames; by rewrite length_imap).
  assert (length varNames = length (f vs)) as Hsame by (simpl in Hlen; lia).
  assert (NoDup varNames) as Hnd by apply varNames_NoDup.
  assert (forall i ty, tys0 !! i = Some ty ->
            varNames !! i = Some (varNameFor i ty)) as Hvar.
  { intros i ty Hi. unfold varNames. by rewrite list_lookup_imap, Hi. }
  rewrite Hnames, strings_Repeat_verbs in Hreply.
  cbn [mbind option_bind] in Hreply. rewrite Sprintf_reply_format in Hreply.
  clearbody varNames. clearbody tys0.
  remember (f vs) as rs eqn:Hrs.
  set (st1 := {| vars := bindResults varNames rs (vars st);
                 calls := calls st ++ [("agrows_" +:+ name, vs)] |}).
  assert (exec args (SDefineCall varNames ("agrows_" +:+ name) operands) st
          = Next st1) as Hcall.
  { cbn [Model.exec]. rewrite Himpl, Hvs, <-Hrs.
    by rewrite decide_True. }
  assert (forall i ty e, tys0 !! i = Some ty -> rs !! i = Some e ->
            readVal st1 (varNameFor i ty) = Some e) as Hread.
  { intros i ty e Hi He. eapply readVal_bound; eauto. }
  unfold replyOf in Ho.
  destruct (lastIndexOf "error" tys0) as [i|] eqn:Herr.
  - pose proof (lastIndexOf_lookup _ _ _ Herr) as Hi.
    destruct (lookup_lt_is_Some_2 rs i) as [e He].
    { rewrite <-Hsame. eapply lookup_lt_Some, Hvar, Hi. }
    pose proof (Hread _ _ _ Hi He) as Hre.
    unfold varNameFor in Hre. rewrite decide_True in Hre by done.
    rewrite He in Ho.
    destruct (decide ("err" +:+ Sprint i = "")) as [Hcontra|_];
      [discriminate Hcontra|].
    destruct (lastIndexOf "string" tys0) as [j|] eqn:Hstr.
    + pose proof (lastIndexOf_lookup _ _ _ Hstr) as Hj.
      destruct (decide ("str" +:+ Sprint j = "")) as [Hcontra|_];
        [discriminate Hcontra|].
      cbn [mbind option_bind] in Hreply. injection Hreply as <-.
      cbn [app Model.execBody]. rewrite Hcall.
      cbn [Model.execBody Model.exec]. rewrite Hre.
      destruct (lookup_lt_is_Some_2 rs j) as [s Hs].
      { rewrite <-Hsame. eapply lookup_lt_Some, Hvar, Hj. }
      pose proof (Hread _ _ _ Hj Hs) as Hrs'.
      unfold varNameFor in Hrs'. rewrite decide_False, decide_True in Hrs' by done.
      rewrite Hs in Ho.
      destruct e; try (injection Ho as <-; done).
      cbn [Model.execBody Model.exec]. rewrite Hrs'.
      destruct s; try done. by injection Ho as <-.
    + destruct (decide ("" = "")) as [_|]; [|done].
      cbn [mbind option_bind] in Hreply. injection Hreply as <-.
      cbn [app Model.execBody]. rewrite Hcall.
      cbn [Model.execBody Model.exec]. rewrite Hre.
      destruct e; try (injection Ho as <-; done).
      cbn [Model.execBody Model.exec].
      unfold st1 at 1. rewrite readVal_all_bound by done.
      destruct rs as [|r rs]; [simpl in Hsame; lia|].
      replace (length tys) with (length rs) by (simpl in Hsame; lia).
      rewrite Sprintf_reply. by injection Ho as <-.
  - destruct (decide ("" = "")) as [_|]; [|done].
    destruct (lastIndexOf "string" tys0) as [j|] eqn:Hstr.
    + pose proof (lastIndexOf_lookup _ _ _ Hstr) as Hj.
      destruct (decide ("str" +:+ Sprint j = "")) as [Hcontra|_];
        [discriminate Hcontra|].
      cbn [mbind option_bind] in Hreply. injection Hreply as <-.
      cbn [app Model.execBody]. rewrite Hcall.
      destruct (lookup_lt_is_Some_2 rs j) as [s Hs].
      { rewrite <-Hsame. eapply lookup_lt_Some, Hvar, Hj. }
      pose proof (Hread _ _ _ Hj Hs) as Hrs'.
      unfold varNameFor in Hrs'. rewrite decide_False, decide_True in Hrs' by done.
      rewrite Hs in Ho.
      cbn [Model.execBody Model.exec]. rewrite Hrs'.
      destruct s; try done. by injection Ho as <-.
    + cbn [mbind option_bind] in Hreply. injection Hreply as <-.
      cbn [app Model.execBody]. rewrite Hcall.
      cbn [Model.execBody Model.exec].
      unfold st1 at 1. rewrite readVal_all_bound by done.
      destruct rs as [|r rs]; [simpl in Hsame; lia|].
      replace (length tys) with (length rs) by (simpl in Hsame; lia).
      rewrite Sprintf_reply. by injection Ho as <-.
Qed.

#[local] Arguments String.append !_ _ : simpl nomatch.

End ReplyFacts.

(** ** The dispatcher as a whole *)

Section DispatcherFacts.

Variable fmtOther : string -> Value -> string.
Variable fmtExtra : list Value -> string.
Variable IsExported : string -> bool.
Variable scope : gmap string GoType.
Variable implements : Value -> TypeId -> bool.
Variable implementation : string -> option (list Value -> list Value).
Variable DecodeFunctionCall :
  list Byte.byte -> string * gmap string Argument * Value.

Local Abbreviation dispatchCase := (dispatchCase fmtOther fmtExtra).
Local Abbreviation generateServerReceiver :=
  (generateServerReceiver fmtOther fmtExtra).
Local Abbreviation execBody :=
  (execBody fmtOther fmtExtra IsExported scope implements implementation).
Local Abbreviation execSteps :=
  (execSteps fmtOther fmtExtra IsExported scope implements implementation).
Local Abbreviation AgrowsReceive :=
  (AgrowsReceive fmtOther fmtExtra IsExported scope implements implementation
     DecodeFunctionCall).

Lemma cases_of_infos infos r :
  generateServerReceiver infos = Some r ->
  Forall2 (fun info c => dispatchCase info = Some c) infos (Cases r).
Proof.
  unfold Model.generateServerReceiver. intros H.
  destruct (mapM dispatchCase infos) as [cases|] eqn:Hcases; [|done].
  injection H as <-. by apply mapM_Some_1.
Qed.

(** The switch takes the clause of the first catalog entry of that name. *)
Lemma find_case infos r name fnInfo :
  generateServerReceiver infos = Some r ->
  find (fun info => bool_decide (OriginalIdentifier info = Some name)) infos
  = Some fnInfo ->
  exists c, find (fun c => bool_decide (CaseKey c = name)) (Cases r) = Some c /\
            dispatchCase fnInfo = Some c.
Proof.
  intros Hgen%cases_of_infos.
  induction Hgen as [|info c infos cases Hc _ IH]; simpl; [done|].
  pose proof (dispatchCase_key _ _ _ _ Hc) as Hkey. rewrite Hkey.
  destruct (decide (CaseKey c = name)) as [<-|Hne].
  - rewrite !bool_decide_eq_true_2 by done. intros [= <-]. by exists c.
  - rewrite !bool_decide_eq_false_2 by congruence. apply IH.
Qed.

Lemma find_no_case infos r name :
  generateServerReceiver infos = Some r ->
  (forall info, info ∈ infos -> OriginalIdentifier info <> Some name) ->
  find (fun c => bool_decide (CaseKey c = name)) (Cases r) = None.
Proof.
  intros Hgen%cases_of_infos Hnone.
  induction Hgen as [|info c infos cases Hc _ IH]; simpl; [done|].
  pose proof (dispatchCase_key _ _ _ _ Hc) as Hkey.
  rewrite bool_decide_eq_false_2.
  - apply IH. intros info' Hin. apply Hnone. by apply elem_of_cons; right.
  - intros <-. by apply (Hnone info); [apply elem_of_cons; left|].
Qed.

(** C4: when the decoded function name is the name of no catalog entry,
    the dispatcher returns the error [unknown function 'name'] and has
    called no implementation. *)
Theorem C4_unknown_function_is_an_error infos r data functionName args :
  generateServerReceiver infos = Some r ->
  DecodeFunctionCall data = (functionName, args, VNil) ->
  (forall info, info ∈ infos -> OriginalIdentifier info <> Some functionName) ->
  result (AgrowsReceive r data)
  = Some (Returned "" (VError ("unknown function '" +:+ functionName +:+ "'")),
          []).
Proof.
  intros Hgen Hdecode Hnone. unfold Model.AgrowsReceive.
  rewrite Hdecode, (find_no_case _ _ _ Hgen Hnone).
  destruct (generateServerReceiver_keys _ _ _ _ Hgen) as [_ ->].
  by rewrite Sprintf_unknown.
Qed.

(** A call that reaches a catalog entry, once its arguments are decoded. *)
Lemma dispatch_reply infos r data name args fnInfo decode st operands vs f tys o :
  generateServerReceiver infos = Some r ->
  DecodeFunctionCall data = (name, args, VNil) ->
  find (fun info => bool_decide (OriginalIdentifier info = Some name)) infos
  = Some fnInfo ->
  decodePart fnInfo = Some decode ->
  execSteps args decode initial = Next st ->
  mapM callOperand (Params fnInfo) = Some operands ->
  mapM (readVal st) operands = Some vs ->
  implementation ("agrows_" +:+ name) = Some f ->
  typeNames (Results fnInfo) = Some tys ->
  length (f vs) = length tys ->
  replyOf fmtOther tys (f vs) = Some o ->
  result (AgrowsReceive r data)
  = Some (o, calls st ++ [("agrows_" +:+ name, vs)]).
Proof.
  intros Hgen Hdecode Hfind Hpart Hsteps Hoperands Hvs Himpl Htys Hlen Ho.
  destruct (find_case _ _ _ _ Hgen Hfind) as (c & Hc & Hcase).
  unfold Model.AgrowsReceive. rewrite Hdecode, Hc.
  unfold Model.dispatchCase in Hcase.
  apply find_some in Hfind as [_ Hname]. apply bool_decide_eq_true_1 in Hname.
  rewrite Hname, Hpart in Hcase. cbn [mbind option_bind] in Hcase.
  destruct (replyPart fmtOther fmtExtra name fnInfo) as [reply|] eqn:Hreply;
    [|done].
  injection Hcase as <-. cbn [CaseBody].
  rewrite execBody_app, Hsteps. by eapply replyPart_run.
Qed.

End DispatcherFacts.

(** ** Decimal numbers in a format *)


Lemma pretty_N_go_percentFree x s :
  percentFree s = true -> percentFree (pretty_N_go x s) = true.
Proof.
  revert s. induction (N.lt_wf_0 x) as [x _ IH]; intros s Hs.
  destruct (decide (0 < x)%N) as [Hpos|Hzero].
  - rewrite pretty_N_go_step by done. apply IH; [by apply N.div_lt|].
    simpl. rewrite Hs. unfold pretty_N_char. by repeat case_match.
  - assert (x = 0%N) as -> by lia. by rewrite pretty_N_go_0.
Qed.

Lemma pretty_N_percentFree (x : N) : percentFree (pretty x) = true.
Proof.
  unfold pretty, pretty_N. case_decide; [done|].
  by apply pretty_N_go_percentFree.
Qed.

Lemma pretty_nat_percentFree (n : nat) : percentFree (pretty (Z.of_nat n)) = true.
Proof.
  destruct n as [|n]; [done|]. simpl.
  unfold pretty, pretty_Z, pretty, pretty_positive. apply pretty_N_percentFree.
Qed.

Section LiteralFacts.

Variable fmtOther : string -> Value -> string.
Variable fmtExtra : list Value -> string.

Local Abbreviation Sprintf := (Sprintf fmtOther fmtExtra).

(** Text without a percent sign is copied. *)
Lemma Sprintf_literal s rest a :
  percentFree s = true -> Sprintf (s +:+ rest) a = s +:+ Sprintf rest a.
Proof.
  induction s as [|c s IH]; intros Hs; [done|].
  simpl in Hs. apply andb_prop in Hs as [Hc Hs].
  change (String c s +:+ rest) with (String c (s +:+ rest)).
  cbn [Model.Sprintf]. rewrite Hc. simpl. by rewrite IH.
Qed.

Lemma Sprintf_expected (n : nat) :
  Sprintf "expected %d arguments, got %%d" [VInt Int (Z.of_nat n)]
  = "expected " +:+ pretty (Z.of_nat n) +:+ " arguments, got %d".
Proof. reflexivity. Qed.

Lemma Sprintf_expected_got (n k : nat) :
  Sprintf ("expected " +:+ pretty (Z.of_nat n) +:+ " arguments, got %d")
    [VInt Int (Z.of_nat k)]
  = "expected " +:+ pretty (Z.of_nat n) +:+ " arguments, got " +:+
    pretty (Z.of_nat k).
Proof.
  rewrite (Sprintf_literal "expected ") by done.
  rewrite Sprintf_literal by apply pretty_nat_percentFree.
  simpl. by rewrite append_empty_r.
Qed.

End LiteralFacts.

(** ** The bridge wrapper *)


Section WrapperFacts.

Variable fmtOther : string -> Value -> string.
Variable fmtExtra : list Value -> string.
Variable scope : gmap string GoType.
Variable implements : Value -> TypeId -> bool.
Variable implDependentInt : spec_float -> Z.
Variable json_Marshal : list (string * Value) -> list Byte.byte * Value.
Variable json_Unmarshal : list Byte.byte -> GoType -> Value * Value.
Variable EncodeFunctionCall :
  string -> list (string * Value) -> list Byte.byte * Value.
Variable hostGlobal : string -> JsValue.

Local Abbreviation Sprintf := (Sprintf fmtOther fmtExtra).
Local Abbreviation generateNewClientFunc :=
  (generateNewClientFunc fmtOther fmtExtra).
Local Abbreviation jsValueToAny :=
  (jsValueToAny fmtOther fmtExtra implDependentInt json_Marshal json_Unmarshal).
Local Abbreviation wexecBody :=
  (wexecBody fmtOther fmtExtra scope implements implDependentInt json_Marshal
     json_Unmarshal EncodeFunctionCall hostGlobal).
Local Abbreviation runWrapper :=
  (runWrapper fmtOther fmtExtra scope implements implDependentInt json_Marshal
     json_Unmarshal EncodeFunctionCall hostGlobal).

Lemma wrapper_body info fn w :
  generateNewClientFunc info = Some (fn, w) ->
  exists steps operands name,
    OriginalIdentifier info = Some name /\
    mapM (wrapperSteps fmtOther fmtExtra) (imap pair (Params info)) = Some steps /\
    mapM encodeArg (Params info) = Some (EncodeArgs fn) /\
    WrapperBody w
    = [WCheckLen (length (Params info))
         ("expected " +:+ pretty (Z.of_nat (length (Params info))) +:+
          " arguments, got %d")] ++
      concat steps ++ [WReturnCall name operands].
Proof.
  unfold Model.generateNewClientFunc. intros H.
  destruct (OriginalIdentifier info) as [name|]; [|done]. simpl in H.
  destruct (mapM proxyParam (Params info)); [|done]. simpl in H.
  destruct (mapM encodeArg (Params info)) as [encoded|]; [|done]. simpl in H.
  destruct (mapM _ (imap pair (Params info))) as [steps|]; [|done]. simpl in H.
  destruct (mapM wrapperOperand (Params info)) as [operands|]; [|done].
  simpl in H. injection H as <- <-.
  exists steps, (concat operands), name. split_and!; reflexivity.
Qed.

(** C5: a bridge wrapper called with an argument array whose length is
    not the number of declared parameters returns the error object
    [expected N arguments, got M], and nothing is called. *)
Theorem C5_wrong_argument_count_is_an_error info fn w program p :
  generateNewClientFunc info = Some (fn, w) ->
  length p <> length (Params info) ->
  runWrapper program w p
  = WHalt (jsGlobalError
             ("expected " +:+ pretty (Z.of_nat (length (Params info))) +:+
              " arguments, got " +:+ pretty (Z.of_nat (length p)))) [].
Proof.
  intros Hgen Hlen.
  destruct (wrapper_body _ _ _ Hgen) as (steps & operands & name & _ & _ & _ & Hbody).
  unfold Model.runWrapper. rewrite Hbody.
  cbn [app Model.wexecBody wexec]. rewrite decide_False by done.
  by rewrite Sprintf_expected_got.
Qed.

Lemma assert_narrow_signed z t :
  kindOf t ∈ narrowSigned -> assertType implements (VInt Int z) t = false.
Proof.
  intros Hk. unfold assertType.
  destruct (decide (kindOf t = Interface)) as [Hi|_].
  { rewrite Hi in Hk. by apply (bool_decide_pack _) in Hk. }
  apply bool_decide_eq_false_2. simpl. intros [= Hid].
  destruct t; simpl in *; try done. injection Hid as <-.
  by apply (bool_decide_pack _) in Hk.
Qed.

Lemma assert_narrow_unsigned z t :
  kindOf t ∈ narrowUnsigned -> assertType implements (VInt Uint z) t = false.
Proof.
  intros Hk. unfold assertType.
  destruct (decide (kindOf t = Interface)) as [Hi|_].
  { rewrite Hi in Hk. by apply (bool_decide_pack _) in Hk. }
  apply bool_decide_eq_false_2. simpl. intros [= Hid].
  destruct t; simpl in *; try done. injection Hid as <-.
  by apply (bool_decide_pack _) in Hk.
Qed.

Lemma narrowSigned_signed k : k ∈ narrowSigned -> k ∈ signedKinds.
Proof. intros Hk. by apply elem_of_cons; right. Qed.

Lemma narrowUnsigned_unsigned k : k ∈ narrowUnsigned -> k ∈ unsignedKinds.
Proof. intros Hk. by apply elem_of_cons; right. Qed.

(** The number converted for a narrow integer parameter does not pass the
    assertion that follows. *)
Lemma narrow_number_fails_assertion f t :
  kindOf t ∈ narrowSigned \/ kindOf t ∈ narrowUnsigned ->
  exists value, jsValueToAny (JsNumber f) t = (value, VNil) /\
                assertType implements value t = false.
Proof.
  intros [Hk|Hk].
  - eexists. split; [by apply number_signed, narrowSigned_signed|].
    by apply assert_narrow_signed.
  - eexists. split; [by apply number_unsigned, narrowUnsigned_unsigned|].
    by apply assert_narrow_unsigned.
Qed.

Lemma asAny_not_err n : n +:+ "AsAny" <> "err".
Proof.
  intros H. apply (f_equal String.length) in H.
  rewrite append_length in H. simpl in H. lia.
Qed.

(** The four statements emitted for one parameter. *)
Lemma group_run program p n i T t v rest m f1 f2 :
  scope !! T = Some t -> p !! i = Some v ->
  wexecBody program p
    ([WConvert (n +:+ "AsAny") i T; WCheckErr f1;
      WAssert n (n +:+ "AsAny") T; WCheckOk f2] ++ rest) m
  = match jsValueToAny v t with
    | (value, VNil) =>
        if assertType implements value t then
          wexecBody program p rest
            (<["ok" := VBool true]>
               (<[n := value]>
                  (<["err" := VNil]> (<[n +:+ "AsAny" := value]> m))))
        else WHalt (jsGlobalError (Sprintf f2 [])) []
    | (_, err) => WHalt (jsGlobalError (Sprintf f1 [err])) []
    end.
Proof.
  intros Hscope Hp. cbn [app Model.wexecBody wexec].
  rewrite Hscope, Hp. destruct (jsValueToAny v t) as [value err].
  rewrite lookup_insert_eq.
  destruct err; try done.
  rewrite lookup_insert_ne by (intros Heq; by apply (asAny_not_err n)).
  rewrite lookup_insert_eq.
  destruct (assertType implements value t); by rewrite lookup_insert_eq.
Qed.


Lemma wrapperSteps_resolved i q :
  resolved scope q ->
  exists n T t f1 f2,
    scope !! T = Some t /\ typeIdentName (DstField q) = Some T /\
    wrapperSteps fmtOther fmtExtra (i, q)
    = Some [WConvert (n +:+ "AsAny") i T; WCheckErr f1;
            WAssert n (n +:+ "AsAny") T; WCheckOk f2].
Proof.
  intros [[n Hn] (T & t & HT & Ht)]. exists n, T, t.
  unfold wrapperSteps. cbn [fst snd].
  destruct (decide (length (FNames (DstField q)) = 0)) as [Hzero|_].
  { apply length_zero_iff_nil in Hzero. unfold firstName in Hn.
    by rewrite Hzero in Hn. }
  rewrite Hn, HT. cbn [mbind option_bind]. by eauto.
Qed.

(** The statements for the parameters from position [k] on end the call
    with an error object when one of these parameters has a narrow
    integer type and the argument at its position is a number. *)
Lemma steps_halt program p params :
  forall k j q T t f steps rest m,
    Forall (resolved scope) params ->
    k + length params <= length p ->
    mapM (wrapperSteps fmtOther fmtExtra) (imap (fun j q => (k + j, q)) params)
    = Some steps ->
    params !! j = Some q ->
    typeIdentName (DstField q) = Some T -> scope !! T = Some t ->
    kindOf t ∈ narrowSigned \/ kindOf t ∈ narrowUnsigned ->
    p !! (k + j) = Some (JsNumber f) ->
    exists msg,
      wexecBody program p (concat steps ++ rest) m
      = WHalt (jsGlobalError msg) [].
Proof.
  induction params as [|q0 params IH];
    intros k j q T t f steps rest m Hres Hlen Hsteps Hq HT Ht Hkind Hp; [done|].
  apply Forall_cons in Hres as [Hq0 Hres].
  rewrite imap_cons in Hsteps. cbn [mapM] in Hsteps.
  destruct (wrapperSteps_resolved (k + 0) q0 Hq0)
    as (n0 & T0 & t0 & f1 & f2 & Ht0 & HT0 & Hgroup).
  rewrite Hgroup in Hsteps. cbn [mbind option_bind] in Hsteps.
  rewrite (imap_ext _ (fun j q => (S k + j, q))) in Hsteps
    by (intros; unfold compose; simpl; f_equal; lia).
  destruct (mapM _ (imap _ params)) as [steps'|] eqn:Hsteps'; [|done].
  injection Hsteps as <-. cbn [concat]. rewrite <-(assoc_L (++)).
  simpl in Hlen.
  destruct (lookup_lt_is_Some_2 p (k + 0)) as [v Hv]; [lia|].
  rewrite (group_run _ _ _ _ _ _ _ _ _ _ _ Ht0 Hv).
  destruct j as [|j].
  - injection Hq as <-. rewrite HT in HT0. injection HT0 as <-.
    rewrite Ht in Ht0. injection Ht0 as <-.
    rewrite Hp in Hv. injection Hv as <-.
    destruct (narrow_number_fails_assertion f t Hkind)
      as (value & Hconv & Hassert).
    rewrite Hconv. cbn beta iota. rewrite Hassert. by eauto.
  - destruct (jsValueToAny v t0) as [value err].
    destruct err; try by eauto.
    destruct (assertType implements value t0); [|by eauto].
    eapply (IH (S k) j); eauto; [lia|].
    by replace (S k + j) with (k + S j) by lia.
Qed.

(** C9: whatever the width of the integer kind of the target type, the
    conversion routine returns a number as an [int] (signed kinds) or a
    [uint] (unsigned kinds); the assertion of that value to a parameter
    type of a narrower or wider integer kind fails, so that a wrapper
    which gets a number for such a parameter returns an error object and
    calls nothing. *)
Theorem C9_declared_integer_width_is_erased :
  (forall f t, kindOf t ∈ signedKinds ->
     dynType (jsValueToAny (JsNumber f) t).1 = Some (IdBasic Int)) /\
  (forall f t, kindOf t ∈ unsignedKinds ->
     dynType (jsValueToAny (JsNumber f) t).1 = Some (IdBasic Uint)) /\
  (forall f t, kindOf t ∈ narrowSigned \/ kindOf t ∈ narrowUnsigned ->
     assertType implements (jsValueToAny (JsNumber f) t).1 t = false) /\
  (forall info fn w program p j q T t f,
     generateNewClientFunc info = Some (fn, w) ->
     length p = length (Params info) ->
     Forall (fun q => exists T t, typeIdentName (DstField q) = Some T /\
                                  scope !! T = Some t) (Params info) ->
     Params info !! j = Some q ->
     typeIdentName (DstField q) = Some T -> scope !! T = Some t ->
     kindOf t ∈ narrowSigned \/ kindOf t ∈ narrowUnsigned ->
     p !! j = Some (JsNumber f) ->
     exists msg, runWrapper program w p = WHalt (jsGlobalError msg) []).
Proof.
  split_and!.
  - intros f t Hk. by rewrite number_signed.
  - intros f t Hk. by rewrite number_unsigned.
  - intros f t Hk.
    destruct (narrow_number_fails_assertion f t Hk)
      as (value & Hconv & Hassert).
    by rewrite Hconv.
  - intros info fn w program p j q T t f Hgen Hlen Hscope Hq HT Ht Hkind Hp.
    destruct (wrapper_body _ _ _ Hgen)
      as (steps & operands & name & _ & Hsteps & Hencode & Hbody).
    unfold Model.runWrapper. rewrite Hbody.
    cbn [app Model.wexecBody wexec]. rewrite decide_True by done.
    rewrite (imap_ext pair (fun j q => (0 + j, q))) in Hsteps by done.
    eapply (steps_halt program p (Params info) 0 j); eauto; [|lia].
    assert (Forall (is_Some ∘ encodeArg) (Params info)) as Hnamed
      by (apply mapM_is_Some_1; by eexists).
    apply Forall_forall. intros q' Hq'. split.
    + rewrite Forall_forall in Hnamed. specialize (Hnamed q' Hq').
      unfold encodeArg, compose in Hnamed.
      destruct (firstName (DstField q')); [by eexists|].
      by destruct Hnamed.
    + rewrite Forall_forall in Hscope. by apply Hscope.
Qed.

End WrapperFacts.

(** ** The generators do not panic on identifier-typed signatures *)


Lemma paramInfos_namedAndTyped typeMap fields :
  forallb (fun f => isIdent (Type' f)) (default [] fields) = true ->
  Forall namedAndTyped (paramInfos typeMap fields).
Proof.
  destruct fields as [l|]; [|by constructor]. simpl.
  induction l as [|f l IH]; simpl; [by constructor|].
  intros [Hf Hl]%andb_prop. apply Forall_app. split; [|by apply IH].
  apply Forall_forall. intros q [name [-> _]]%list_elem_of_fmap.
  split; [by eexists|]. unfold typeIdentName. simpl.
  destruct (Type' f); try done; by eexists.
Qed.

Lemma resultInfos_typed typeMap fields :
  forallb (fun f => isIdent (Type' f)) (default [] fields) = true ->
  is_Some (typeNames (resultInfos typeMap fields)).
Proof.
  intros Hl. apply mapM_is_Some_2.
  destruct fields as [l|]; [|by constructor]. simpl in *.
  induction l as [|f l IH]; simpl; [by constructor|].
  simpl in Hl. apply andb_prop in Hl as [Hf Hl].
  constructor; [|by apply IH].
  unfold compose, typeIdentName. simpl.
  destruct (Type' f); try done; by eexists.
Qed.

Section TotalityFacts.

Variable fmtOther : string -> Value -> string.
Variable fmtExtra : list Value -> string.

Lemma decodePart_total fnInfo :
  Forall namedAndTyped (Params fnInfo) -> is_Some (decodePart fnInfo).
Proof.
  intros Hparams. unfold decodePart.
  assert (is_Some (mapM paramVarDefs (Params fnInfo))) as [ds Hds].
  { apply mapM_is_Some_2. eapply Forall_impl; [done|].
    intros q [[n Hn] [T HT]]. unfold compose, paramVarDefs.
    rewrite Hn, HT. by eexists. }
  assert (is_Some (mapM paramDecode (Params fnInfo))) as [decodes Hdecodes].
  { apply mapM_is_Some_2. eapply Forall_impl; [done|].
    intros q [[n Hn] [T HT]]. unfold compose, paramDecode.
    rewrite Hn, HT. simpl. destruct (IsStruct q); by eexists. }
  rewrite Hds, Hdecodes. simpl.
  destruct (decide (length (Params fnInfo) = 0)); by eexists.
Qed.

Lemma replyPart_total name fnInfo :
  Forall namedAndTyped (Params fnInfo) ->
  is_Some (typeNames (Results fnInfo)) ->
  is_Some (replyPart fmtOther fmtExtra name fnInfo).
Proof.
  intros Hparams [tys Htys]. unfold replyPart.
  assert (is_Some (mapM callOperand (Params fnInfo))) as [operands ->].
  { apply mapM_is_Some_2. eapply Forall_impl; [done|].
    intros q [[n Hn] _]. unfold compose, callOperand. rewrite Hn. by eexists. }
  cbn [mbind option_bind].
  destruct (decide (length (Results fnInfo) = 0)) as [|Hpos]; [by eexists|].
  rewrite resultVars_spec, Htys. cbn [mbind option_bind].
  pose proof (typeNames_length _ _ Htys) as Hlen.
  destruct tys as [|t tys]; [simpl in Hlen; lia|].
  rewrite length_imap. cbn [length]. rewrite strings_Repeat_verbs.
  cbn [mbind option_bind].
  repeat case_decide; cbn [mbind option_bind]; by eexists.
Qed.

Lemma dispatchCase_total fnInfo name :
  OriginalIdentifier fnInfo = Some name ->
  Forall namedAndTyped (Params fnInfo) ->
  is_Some (typeNames (Results fnInfo)) ->
  is_Some (dispatchCase fmtOther fmtExtra fnInfo).
Proof.
  intros Hname Hparams Hresults. unfold dispatchCase. rewrite Hname.
  cbn [mbind option_bind].
  destruct (decodePart_total fnInfo Hparams) as [decode ->].
  cbn [mbind option_bind].
  destruct (replyPart_total name fnInfo Hparams Hresults) as [reply ->].
  by eexists.
Qed.

Lemma generateNewClientFunc_total info name :
  OriginalIdentifier info = Some name ->
  Forall namedAndTyped (Params info) ->
  is_Some (generateNewClientFunc fmtOther fmtExtra info).
Proof.
  intros Hname Hparams. unfold generateNewClientFunc. rewrite Hname.
  cbn [mbind option_bind].
  assert (is_Some (mapM proxyParam (Params info))) as [params ->].
  { apply mapM_is_Some_2. eapply Forall_impl; [done|].
    intros q [[n Hn] [T HT]]. unfold compose, proxyParam.
    rewrite Hn, HT. destruct (decide _); by eexists. }
  cbn [mbind option_bind].
  assert (is_Some (mapM encodeArg (Params info))) as [encoded ->].
  { apply mapM_is_Some_2. eapply Forall_impl; [done|].
    intros q [[n Hn] _]. unfold compose, encodeArg. rewrite Hn. by eexists. }
  cbn [mbind option_bind].
  assert (is_Some (mapM (wrapperSteps fmtOther fmtExtra)
                     (imap pair (Params info)))) as [steps ->].
  { apply mapM_is_Some_2. apply Forall_forall.
    intros [i q] Hin. apply list_elem_of_lookup in Hin as [j Hj].
    rewrite list_lookup_imap in Hj.
    destruct (Params info !! j) as [q'|] eqn:Hq'; [|done].
    injection Hj as <- <-.
    rewrite Forall_forall in Hparams.
    destruct (Hparams q') as [[n Hn] [T HT]]; [by eapply list_elem_of_lookup_2|].
    unfold compose, wrapperSteps. cbn [fst snd]. rewrite Hn, HT.
    destruct (decide _); by eexists. }
  cbn [mbind option_bind].
  assert (is_Some (mapM wrapperOperand (Params info))) as [operands ->].
  { apply mapM_is_Some_2. eapply Forall_impl; [done|].
    intros q [[n Hn] _]. unfold compose, wrapperOperand. rewrite Hn.
    destruct (decide _); by eexists. }
  by eexists.
Qed.

Lemma registration_total info name :
  OriginalIdentifier info = Some name ->
  Forall namedAndTyped (Params info) ->
  is_Some (registration fmtOther fmtExtra info).
Proof.
  intros Hname Hparams. unfold registration. rewrite Hname.
  cbn [mbind option_bind].
  assert (is_Some (mapM (fun item => typeIdentName (DstField item))
                     (Params info))) as [types ->].
  { apply mapM_is_Some_2. eapply Forall_impl; [done|]. by intros q [_ HT]. }
  by eexists.
Qed.

End TotalityFacts.

(** ** What an output contains *)

Lemma map_Some_inj {A B} (f : A -> string) (g : B -> string) l l' :
  map (fun a => Some (f a)) l = map (fun b => Some (g b)) l' ->
  map f l = map g l'.
Proof.
  revert l'. induction l as [|a l IH]; intros [|b l'] H; try done.
  simpl in H. injection H as Hab H. simpl. rewrite Hab. f_equal. by apply IH.
Qed.

Lemma forallb_Forall {A} (f : A -> bool) l :
  forallb f l = true -> Forall (fun x => f x = true) l.
Proof.
  induction l as [|x l IH]; simpl; [by constructor|].
  intros [Hx Hl]%andb_prop. constructor; auto.
Qed.

Lemma wrapperName_NoDup (names : list string) :
  NoDup names -> NoDup (map (fun n => n +:+ "Wrapper") names).
Proof.
  intros Hnd.
  assert (Inj (=) (=) (fun n => n +:+ "Wrapper")) as Hinj
    by (intros n1 n2 H; by eapply append_inj_l).
  by apply (NoDup_fmap_2 _).
Qed.

Section OutputFacts.

Variable IsExported : string -> bool.
Variable fmtOther : string -> Value -> string.
Variable fmtExtra : list Value -> string.
Variable renderedImports : list Generated -> list Spec.

Local Abbreviation run := (run IsExported fmtOther fmtExtra renderedImports).
Local Abbreviation writeCombinedTreeAndGenerated :=
  (writeCombinedTreeAndGenerated fmtOther fmtExtra renderedImports).

(** Whatever is read off the emitted declarations only is read off the
    fragments of the run. *)
Lemma combined_emitted {B} (pick : OutDecl -> list B) now1 now2 tree
    generated genType :
  (forall d, pick (Original d) = []) ->
  flat_map pick
    (Combined (writeCombinedTreeAndGenerated now1 now2 tree generated genType))
  = flat_map pick (map Emitted generated).
Proof.
  intros Hpick. unfold Model.writeCombinedTreeAndGenerated, decorated.
  cbn [Combined flat_map]. rewrite Hpick. cbn [app].
  rewrite !List.filter_app, !flat_map_app.
  assert (forall ds, flat_map pick
            (List.filter (fun x => negb (isImport x)) (map Original ds)) = [])
    as Horiginal.
  { induction ds as [|d ds IH]; [done|]. simpl.
    destruct (negb _); simpl; by rewrite ?Hpick, IH. }
  rewrite Horiginal. cbn [app].
  assert (flat_map pick
            (List.filter (fun x => negb (isImport x))
               match renderedImports generated with
               | [] => []
               | specs => [Original (GenDecl IMPORT specs)]
               end) = []) as ->.
  { by destruct (renderedImports generated). }
  cbn [app]. f_equal.
  induction generated as [|g gs IH]; [done|]. simpl. by rewrite IH.
Qed.

Lemma proxies_of_stubs (stubs : list (Proxy * Wrapper)) rest :
  (forall g, g ∈ rest -> match g with GProxy _ => False | _ => True end) ->
  flat_map (fun d => match d with Emitted (GProxy fn) => [fn] | _ => [] end)
    (map Emitted
       ([GJsValueToAny] ++
        flat_map (fun stub => [GProxy stub.1; GWrapper stub.2]) stubs ++ rest))
  = map fst stubs.
Proof.
  intros Hrest. cbn [app map flat_map].
  induction stubs as [|stub stubs IH]; simpl.
  - induction rest as [|g rest IH]; [done|]. simpl.
    rewrite IH by (intros g' Hg'; apply Hrest; by apply elem_of_cons; right).
    specialize (Hrest g). destruct g; try done.
    exfalso. apply Hrest. by apply elem_of_cons; left.
  - by rewrite IH.
Qed.

Lemma wrappers_of_stubs (stubs : list (Proxy * Wrapper)) rest :
  (forall g, g ∈ rest -> match g with GWrapper _ => False | _ => True end) ->
  flat_map (fun d => match d with Emitted (GWrapper w) => [w] | _ => [] end)
    (map Emitted
       ([GJsValueToAny] ++
        flat_map (fun stub => [GProxy stub.1; GWrapper stub.2]) stubs ++ rest))
  = map snd stubs.
Proof.
  intros Hrest. cbn [app map flat_map].
  induction stubs as [|stub stubs IH]; simpl.
  - induction rest as [|g rest IH]; [done|]. simpl.
    rewrite IH by (intros g' Hg'; apply Hrest; by apply elem_of_cons; right).
    specialize (Hrest g). destruct g; try done.
    exfalso. apply Hrest. by apply elem_of_cons; left.
  - by rewrite IH.
Qed.

(** What the catalog of a file with identifier-typed exported functions
    offers to the generators. *)
Lemma catalog_entries tree :
  forallb identTyped (exportedFunctions IsExported tree) = true ->
  Forall (fun info =>
            exists name, OriginalIdentifier info = Some name /\
              Forall namedAndTyped (Params info) /\
              is_Some (typeNames (Results info)))
    (extractFuncInfo IsExported tree (extractTypeMap tree)).
Proof.
  intros Htyped%forallb_Forall. rewrite extractFuncInfo_functions.
  apply Forall_fmap. eapply Forall_impl; [done|].
  intros fn [Hparams Hresults]%andb_prop. exists (FuncName fn).
  split; [done|]. split.
  - by apply paramInfos_namedAndTyped.
  - by apply resultInfos_typed.
Qed.

(** C1 (as amended): given a file whose exported function declarations
    have identifier-typed signatures, the server run and the client run
    both succeed; the switch of the dispatcher has one case per exported
    declaration, keyed by its name, in declaration order; the client
    output has one native proxy, which puts that name on the wire, and one
    bridge wrapper per exported declaration, in the same order; and when
    the names are pairwise distinct, each name keys exactly one case, one
    proxy and one wrapper. *)
Theorem C1_one_case_and_one_stub_pair_per_declaration now1 now2 tree :
  forallb identTyped (exportedFunctions IsExported tree) = true ->
  exists server client,
    run now1 now2 tree SERVER = Some server /\
    run now1 now2 tree CLIENT = Some client /\
    map CaseKey (switchCases server)
    = map FuncName (exportedFunctions IsExported tree) /\
    map ProxyName (proxies client)
    = map FuncName (exportedFunctions IsExported tree) /\
    map EncodeName (proxies client)
    = map FuncName (exportedFunctions IsExported tree) /\
    map WrapperName (wrappers client)
    = map (fun n => n +:+ "Wrapper")
        (map FuncName (exportedFunctions IsExported tree)) /\
    (NoDup (map FuncName (exportedFunctions IsExported tree)) ->
     forall name, name ∈ map FuncName (exportedFunctions IsExported tree) ->
       occurrences (fun c => bool_decide (CaseKey c = name))
         (switchCases server) = 1 /\
       occurrences (fun fn => bool_decide (EncodeName fn = name))
         (proxies client) = 1 /\
       occurrences (fun w => bool_decide (WrapperName w = name +:+ "Wrapper"))
         (wrappers client) = 1).
Proof.
  intros Htyped.
  pose proof (catalog_entries tree Htyped) as Hentries.
  pose proof (extractFuncInfo_functions IsExported tree (extractTypeMap tree))
    as Hinfos.
  set (names := map FuncName (exportedFunctions IsExported tree)) in *.
  set (infos := extractFuncInfo IsExported tree (extractTypeMap tree)) in *.
  assert (map OriginalIdentifier infos = map Some names) as Hnames.
  { rewrite Hinfos. unfold names. by rewrite !map_map. }
  (* the server run *)
  assert (is_Some (generateServerReceiver fmtOther fmtExtra infos)) as [r Hr].
  { unfold generateServerReceiver.
    assert (is_Some (mapM (dispatchCase fmtOther fmtExtra) infos)) as [cs ->];
      [|by eexists].
    apply mapM_is_Some_2. eapply Forall_impl; [done|].
    intros info (name & Hname & Hparams & Hresults).
    by eapply dispatchCase_total. }
  assert (map CaseKey (Cases r) = names) as Hkeys.
  { destruct (generateServerReceiver_keys _ _ _ _ Hr) as [Hk _].
    rewrite Hnames in Hk. rewrite <-(map_id names).
    by apply (map_Some_inj CaseKey id). }
  (* the client run *)
  assert (is_Some (mapM (generateNewClientFunc fmtOther fmtExtra) infos))
    as [stubs Hstubs].
  { apply mapM_is_Some_2. eapply Forall_impl; [done|].
    intros info (name & Hname & Hparams & _).
    by eapply generateNewClientFunc_total. }
  assert (is_Some (mapM (registration fmtOther fmtExtra) infos))
    as [registrations Hregistrations].
  { apply mapM_is_Some_2. eapply Forall_impl; [done|].
    intros info (name & Hname & Hparams & _).
    by eapply registration_total. }
  assert (map (fun stub => Some (ProxyName stub.1)) stubs
          = map OriginalIdentifier infos /\
          map (fun stub => Some (EncodeName stub.1)) stubs
          = map OriginalIdentifier infos /\
          map (fun stub => Some (WrapperName stub.2)) stubs
          = map (fmap (fun n => n +:+ "Wrapper"))
              (map OriginalIdentifier infos)) as (Hp & He & Hw).
  { apply mapM_Some_1 in Hstubs. clear -Hstubs.
    induction Hstubs as [|info [fn w] infos stubs Hstub _ (IH1 & IH2 & IH3)];
      [done|].
    apply generateNewClientFunc_names in Hstub
      as (name & Hname & Hfn & Hen & Hwn).
    simpl. by rewrite IH1, IH2, IH3, Hname, Hfn, Hen, Hwn. }
  rewrite Hnames in Hp, He, Hw. rewrite map_map in Hw. simpl in Hw.
  eexists _, _. split.
  { unfold Model.run. fold infos. rewrite decide_True by done.
    rewrite Hr. reflexivity. }
  split.
  { unfold Model.run. fold infos. rewrite decide_False by done.
    rewrite decide_True by done. unfold clientFragments, generateClientMain.
    rewrite Hstubs, Hregistrations. reflexivity. }
  assert (switchCases (writeCombinedTreeAndGenerated now1 now2
            (modifyOriginalFunctions IsExported fmtOther fmtExtra tree)
            [GReceiver r] SERVER) = Cases r) as Hcases.
  { unfold switchCases. rewrite combined_emitted by done. simpl.
    by rewrite app_nil_r. }
  rewrite Hcases.
  match goal with
  | |- context [proxies ?a] => set (client := a)
  end.
  assert (proxies client = map fst stubs) as Hproxies.
  { unfold proxies, client. rewrite combined_emitted by done.
    apply proxies_of_stubs. intros g Hg.
    repeat (apply elem_of_cons in Hg as [->|Hg]; [done|]).
    by apply elem_of_nil in Hg. }
  assert (wrappers client = map snd stubs) as Hwrappers.
  { unfold wrappers, client. rewrite combined_emitted by done.
    apply wrappers_of_stubs. intros g Hg.
    repeat (apply elem_of_cons in Hg as [->|Hg]; [done|]).
    by apply elem_of_nil in Hg. }
  rewrite Hproxies, Hwrappers, !map_map.
  assert (map (fun stub => ProxyName stub.1) stubs = names) as Hp'.
  { rewrite <-(map_id names). by apply (map_Some_inj _ id). }
  assert (map (fun stub => EncodeName stub.1) stubs = names) as He'.
  { rewrite <-(map_id names). by apply (map_Some_inj _ id). }
  assert (map (fun stub => WrapperName stub.2) stubs
          = map (fun n => n +:+ "Wrapper") names) as Hw'.
  { by apply (map_Some_inj _ (fun n => n +:+ "Wrapper")). }
  split_and!; try done.
  intros Hnd name Hin. split_and!.
  - apply occurrences_once; by rewrite Hkeys.
  - rewrite <-(map_map fst EncodeName) in He'.
    apply occurrences_once; by rewrite He'.
  - rewrite <-(map_map snd WrapperName) in Hw'.
    apply occurrences_once; rewrite Hw'.
    + by apply wrapperName_NoDup.
    + by apply (list_elem_of_fmap_2 (fun n => n +:+ "Wrapper")).
Qed.

End OutputFacts.

(** ** Decoding the arguments calls nothing *)

Section DecodeFacts.

Variable fmtOther : string -> Value -> string.
Variable fmtExtra : list Value -> string.
Variable IsExported : string -> bool.
Variable scope : gmap string GoType.
Variable implements : Value -> TypeId -> bool.
Variable implementation : string -> option (list Value -> list Value).

Local Abbreviation exec :=
  (exec fmtOther fmtExtra IsExported scope implements implementation).
Local Abbreviation execSteps :=
  (execSteps fmtOther fmtExtra IsExported scope implements implementation).

Lemma setField_calls st x key v st' :
  setField scope implements st x key v = Next st' -> calls st' = calls st.
Proof.
  unfold setField. repeat case_match; try done. by intros [= <-].
Qed.

Lemma copyFields_calls keys st target source st' :
  copyFields IsExported scope implements st target source keys = Next st' ->
  calls st' = calls st.
Proof.
  revert st. induction keys as [|key keys IH]; intros st; simpl.
  - by intros [= <-].
  - repeat case_match; try done; intros Hrest; apply IH in Hrest;
      try done; rewrite Hrest; by eapply setField_calls.
Qed.

Lemma exec_silent args s st st' :
  silent s = true -> exec args s st = Next st' -> calls st' = calls st.
Proof.
  destruct s; try done; intros _; cbn [Model.exec];
    repeat case_match; try done; try (by intros [= <-]).
  apply copyFields_calls.
Qed.

Lemma execSteps_silent args body st st' :
  Forall (fun s => silent s = true) body ->
  execSteps args body st = Next st' -> calls st' = calls st.
Proof.
  revert st. induction body as [|s body IH]; intros st Hsilent; simpl.
  - by intros [= <-].
  - apply Forall_cons in Hsilent as [Hs Hbody].
    destruct (exec args s st) as [st1| |] eqn:Hexec; try done.
    intros Hrest. apply IH in Hrest; [|done]. rewrite Hrest.
    by eapply exec_silent.
Qed.

Lemma decodePart_silent fnInfo decode :
  decodePart fnInfo = Some decode -> Forall (fun s => silent s = true) decode.
Proof.
  unfold decodePart. intros H.
  destruct (if decide (length (Params fnInfo) = 0) then _ else _)
    as [defs|] eqn:Hdefs; [|done]. cbn [mbind option_bind] in H.
  destruct (mapM paramDecode (Params fnInfo)) as [decodes|] eqn:Hdecodes;
    [|done]. cbn [mbind option_bind] in H. injection H as <-.
  apply Forall_app. split.
  - destruct (decide (length (Params fnInfo) = 0)).
    + injection Hdefs as <-. by constructor.
    + destruct (mapM paramVarDefs (Params fnInfo)); [|done].
      injection Hdefs as <-. by repeat constructor.
  - apply mapM_Some_1 in Hdecodes. clear -Hdecodes.
    induction Hdecodes as [|q ss qs sss Hq _ IH]; simpl; [by constructor|].
    apply Forall_app. split; [|done].
    unfold paramDecode in Hq.
    destruct (firstName (DstField q)); [|done].
    destruct (typeIdentName (DstField q)); [|done]. simpl in Hq.
    destruct (IsStruct q); injection Hq as <-; by repeat constructor.
Qed.

Lemma decode_calls fnInfo decode args st :
  decodePart fnInfo = Some decode ->
  execSteps args decode initial = Next st -> calls st = [].
Proof.
  intros Hpart%decodePart_silent Hsteps.
  by apply (execSteps_silent _ _ _ _ Hpart) in Hsteps.
Qed.

End DecodeFacts.

(** ** The reply of the dispatcher *)

Section ReplyClaims.

Variable fmtOther : string -> Value -> string.
Variable fmtExtra : list Value -> string.
Variable IsExported : string -> bool.
Variable scope : gmap string GoType.
Variable implements : Value -> TypeId -> bool.
Variable implementation : string -> option (list Value -> list Value).
Variable DecodeFunctionCall :
  list Byte.byte -> string * gmap string Argument * Value.

Local Abbreviation generateServerReceiver :=
  (generateServerReceiver fmtOther fmtExtra).
Local Abbreviation execSteps :=
  (execSteps fmtOther fmtExtra IsExported scope implements implementation).
Local Abbreviation AgrowsReceive :=
  (AgrowsReceive fmtOther fmtExtra IsExported scope implements implementation
     DecodeFunctionCall).

(** C3 (as amended): a call that reaches a catalog entry and whose
    arguments decode invokes the renamed implementation once and then: if
    the result of type error (the last one) is not nil, returns the empty
    reply with that error; otherwise, if there is a result of type string,
    returns it (the last one) as it is; otherwise prints every result,
    the nil error included, under the verb [%+v], each between single
    quotes, joined by a comma and a space, with a nil error. *)
Theorem C3_reply_formatting
    infos r data name args fnInfo decode st operands vs f tys o :
  generateServerReceiver infos = Some r ->
  DecodeFunctionCall data = (name, args, VNil) ->
  find (fun info => bool_decide (OriginalIdentifier info = Some name)) infos
  = Some fnInfo ->
  decodePart fnInfo = Some decode ->
  execSteps args decode initial = Next st ->
  mapM callOperand (Params fnInfo) = Some operands ->
  mapM (readVal st) operands = Some vs ->
  implementation ("agrows_" +:+ name) = Some f ->
  typeNames (Results fnInfo) = Some tys ->
  length (f vs) = length tys ->
  replyOf fmtOther tys (f vs) = Some o ->
  result (AgrowsReceive r data) = Some (o, [("agrows_" +:+ name, vs)]).
Proof.
  intros Hgen Hdecode Hfind Hpart Hsteps Hoperands Hvs Himpl Htys Hlen Ho.
  erewrite dispatch_reply by done.
  by erewrite decode_calls.
Qed.

End ReplyClaims.

(** ** The claims on the sample files *)

(** C2 (the code falls short of it): the statements emitted for a
    primitive parameter start with the lookup of its name in the table,
    those emitted for a struct parameter contain no lookup at all.  With
    the table {scale: 2} the call for
    [CrazyMath(inp CalcInput, scale int)] panics inside the copying loop
    instead of returning an error that names [inp]; for a struct type
    without fields the implementation is even invoked, with the zero
    struct.  The sibling path of a primitive parameter does return the
    error. *)
Theorem C2_aggregate_parameter_is_never_looked_up :
  (forall q name ss, firstName (DstField q) = Some name ->
     paramDecode q = Some ss ->
     if IsStruct q
     then Forall (fun s => match s with
                           | SLookupArg _ _ _ _ => False
                           | _ => True
                           end) ss
     else exists arg rest,
            ss = SLookupArg arg name
                   "parameter %s is not in the received arguments" name :: rest) /\
  result (receive calcScope sampleImplementation calcFile "CrazyMath"
            (<["scale" := intArgument 2]> ∅))
  = Some (Panicked "reflect: call of reflect.Value.FieldByName on zero Value",
          []) /\
  result (receive emptyScope sampleImplementation emptyFile "Ping"
            (<["n" := intArgument 1]> ∅))
  = Some (Returned "pong" VNil,
          [("agrows_Ping", [VStruct "Empty" []; VInt Int 1])]) /\
  result (receive predeclared sampleImplementation sampleFile "Sum"
            (<["a" := intArgument 2]> ∅))
  = Some (Returned "" (VError "parameter b is not in the received arguments"),
          []).
Proof.
  split_and!.
  - intros q name ss Hname. unfold paramDecode. rewrite Hname.
    cbn [mbind option_bind].
    destruct (typeIdentName (DstField q)); [|done]. cbn [mbind option_bind].
    destruct (IsStruct q); intros [= <-].
    + by repeat constructor.
    + by eexists _, _.
  - by vm_compute.
  - by vm_compute.
  - by vm_compute.
Qed.

(** C1, on the sample file. *)
Lemma C1_witness :
  forallb identTyped (exportedFunctions asciiExported sampleFile) = true /\
  exists server client,
    run asciiExported plainOther plainExtra noImports
      (mkTime 2024 7 1 9 5 3 0) (mkTime 2024 7 1 9 5 3 0) sampleFile SERVER
    = Some server /\
    run asciiExported plainOther plainExtra noImports
      (mkTime 2024 7 1 9 5 3 0) (mkTime 2024 7 1 9 5 3 0) sampleFile CLIENT
    = Some client /\
    map CaseKey (switchCases server) = ["Sum"; "Greet"] /\
    map EncodeName (proxies client) = ["Sum"; "Greet"] /\
    map WrapperName (wrappers client) = ["SumWrapper"; "GreetWrapper"].
Proof.
  assert (forallb identTyped (exportedFunctions asciiExported sampleFile) = true)
    as Htyped by reflexivity.
  split; [exact Htyped|].
  destruct (C1_one_case_and_one_stub_pair_per_declaration asciiExported
              plainOther plainExtra noImports (mkTime 2024 7 1 9 5 3 0)
              (mkTime 2024 7 1 9 5 3 0) sampleFile Htyped)
    as (server & client & Hs & Hc & Hkeys & _ & Hencode & Hwrappers & _).
  exists server, client. split_and!; assumption.
Defined.

(** C1 as stated fails: in a file that declares a function Run and a
    method Run, two cases of the switch are keyed by that name, and two
    proxies put it on the wire. *)
Lemma C1_counterexample :
  exists server client,
    run asciiExported plainOther plainExtra noImports
      (mkTime 2024 7 1 9 5 3 0) (mkTime 2024 7 1 9 5 3 0) methodFile SERVER
    = Some server /\
    run asciiExported plainOther plainExtra noImports
      (mkTime 2024 7 1 9 5 3 0) (mkTime 2024 7 1 9 5 3 0) methodFile CLIENT
    = Some client /\
    map FuncName (exportedFunctions asciiExported methodFile) = ["Run"; "Run"] /\
    occurrences (fun c => bool_decide (CaseKey c = "Run")) (switchCases server)
    = 2 /\
    occurrences (fun fn => bool_decide (EncodeName fn = "Run")) (proxies client)
    = 2.
Proof. eexists _, _. split_and!; by vm_compute. Qed.

(** C4, on the sample file and the name Nope. *)
Lemma C4_witness :
  result (receive predeclared sampleImplementation sampleFile "Nope" ∅)
  = Some (Returned "" (VError "unknown function 'Nope'"), []).
Proof.
  apply (C4_unknown_function_is_an_error plainOther plainExtra asciiExported
           predeclared plainImplements sampleImplementation
           (decodesTo "Nope" ∅) (catalogOf sampleFile) (receiverOf sampleFile)
           [] "Nope" ∅).
  - reflexivity.
  - reflexivity.
  - intros info Hin.
    repeat (apply elem_of_cons in Hin as [->|Hin]; [discriminate|]).
    by apply elem_of_nil in Hin.
Defined.

(** The wrapper of [Narrow(n int32)] called with the number 3.7: the
    conversion gives the int 3, which is no int32. *)
Example narrow_wrapper_returns_an_error :
  runWrapper plainOther plainExtra predeclared plainImplements saturate
    plainMarshal plainUnmarshal plainEncode plainHost []
    (stubOf narrowFile 0).2 [JsNumber threePointSeven]
  = WHalt (jsGlobalError "parameter 'n' is not in the received arguments") [].
Proof. by vm_compute. Qed.

(** C5, on the wrapper of Sum called with one argument. *)
Lemma C5_witness :
  runWrapper plainOther plainExtra predeclared plainImplements saturate
    plainMarshal plainUnmarshal plainEncode plainHost []
    (stubOf sampleFile 0).2 [JsNumber threePointSeven]
  = WHalt (jsGlobalError "expected 2 arguments, got 1") [].
Proof.
  apply (C5_wrong_argument_count_is_an_error plainOther plainExtra predeclared
           plainImplements saturate plainMarshal plainUnmarshal plainEncode
           plainHost
           {| OriginalIdentifier := Some "Sum";
              Params := [{| DstField := {| FNames := [Some "a"]; FType := Ident "int" |};
                            IsStruct := false |};
                         {| DstField := {| FNames := [Some "b"]; FType := Ident "int" |};
                            IsStruct := false |}];
              Results := [{| DstField := {| FNames := [None]; FType := Ident "int" |};
                             IsStruct := false |};
                          {| DstField := {| FNames := [None]; FType := Ident "error" |};
                             IsStruct := false |}] |}
           (stubOf sampleFile 0).1 (stubOf sampleFile 0).2 []
           [JsNumber threePointSeven]).
  - reflexivity.
  - simpl. lia.
Defined.

(** C3, on Sum called with {a: 2, b: 3}. *)
Lemma C3_witness :
  result (receive predeclared sampleImplementation sampleFile "Sum" sumArguments)
  = Some (Returned "'5', '<nil>'" VNil,
          [("agrows_Sum", [VInt Int 2; VInt Int 3])]).
Proof.
  eapply (C3_reply_formatting plainOther plainExtra asciiExported predeclared
            plainImplements sampleImplementation
            (decodesTo "Sum" sumArguments) (catalogOf sampleFile)
            (receiverOf sampleFile) [] "Sum" sumArguments);
    try reflexivity.
Defined.

(** C3 as stated fails: for [Sum(a, b int) (int, error)] returning
    (5, nil) the reply also prints the nil error, where the specified
    reply prints the one result that is no error. *)
Lemma C3_counterexample :
  result (receive predeclared sampleImplementation sampleFile "Sum" sumArguments)
  = Some (Returned "'5', '<nil>'" VNil,
          [("agrows_Sum", [VInt Int 2; VInt Int 3])]) /\
  specifiedReply plainOther ["int"; "error"] [VInt Int 5; VNil]
  = Some (Returned "'5'" VNil) /\
  fst <$> result (receive predeclared sampleImplementation sampleFile "Sum"
                    sumArguments)
  <> specifiedReply plainOther ["int"; "error"] [VInt Int 5; VNil].
Proof. split_and!; by vm_compute. Qed.

(** * Further properties of the generator and of the generated code *)


(** ** Names of the dispatcher's variables *)

Lemma lastChar_append s t : t <> "" -> lastChar (s +:+ t) = lastChar t.
Proof.
  intros Ht. induction s as [|c s IH]; [done|].
  simpl. rewrite <-IH. destruct (s +:+ t) eqn:E; [|done].
  destruct s, t; simplify_eq/=.
Qed.

Lemma suffix_neq s t a b :
  a <> "" -> b <> "" -> lastChar a <> lastChar b -> s +:+ a <> t +:+ b.
Proof.
  intros Ha Hb Hne Heq. apply Hne.
  by rewrite <-(lastChar_append s a), <-(lastChar_append t b), Heq.
Qed.

Lemma append_length_neq s t a b :
  String.length s + String.length a <> String.length t + String.length b ->
  s +:+ a <> t +:+ b.
Proof.
  intros Hne Heq. apply Hne. by rewrite <-!append_length, Heq.
Qed.


Lemma decoded_other bindings : forall m x,
  (forall n, n ∈ bindings.*1 ->
     x <> n +:+ "Param" /\ x <> (n +:+ "Param") +:+ "Arg") ->
  decoded m bindings !! x = m !! x.
Proof.
  induction bindings as [|[n a] l IH]; intros m x Hx; [done|].
  unfold decoded in *. cbn [fold_left fst snd].
  rewrite IH.
  - destruct (Hx n) as [H1 H2]; [by left|].
    by rewrite !lookup_insert_ne.
  - intros n' Hn'. apply Hx. by right.
Qed.

Lemma param_neq_arg n n' : n +:+ "Param" <> (n' +:+ "Param") +:+ "Arg".
Proof. by apply suffix_neq. Qed.

Lemma decoded_elem bindings : forall m n a,
  NoDup bindings.*1 -> (n, a) ∈ bindings ->
  decoded m bindings !! (n +:+ "Param") = Some (CVal (ArgValue a)).
Proof.
  induction bindings as [|[n' a'] l IH]; intros m n a Hnd Hin.
  { by apply elem_of_nil in Hin. }
  cbn [fmap list_fmap fst] in Hnd. apply NoDup_cons in Hnd as [Hn' Hnd].
  apply elem_of_cons in Hin as [Heq|Hin].
  - simplify_eq. unfold decoded. cbn [fold_left fst snd].
    fold (decoded (<[n' +:+ "Param":=CVal (ArgValue a')]>
                     (<[(n' +:+ "Param") +:+ "Arg":=CArg a']> m)) l).
    rewrite decoded_other; [by rewrite lookup_insert_eq|].
    intros n Hn. split; [|apply param_neq_arg].
    intros Heq. apply append_inj_l in Heq. by subst.
  - unfold decoded. cbn [fold_left fst snd]. by apply IH.
Qed.

Lemma readVal_decoded names entries m cs :
  NoDup names -> length names = length entries ->
  mapM (readVal {| vars := decoded m (zip names entries); calls := cs |})
    (map (fun n => n +:+ "Param") names)
  = Some (map ArgValue entries).
Proof.
  intros Hnd Hlen. apply mapM_Some, Forall2_fmap.
  apply Forall2_same_length_lookup_2; [done|].
  intros i n a Hn Ha. unfold readVal. cbn [vars].
  rewrite (decoded_elem _ m n a); [done| |].
  - rewrite fst_zip; [done|lia].
  - apply list_elem_of_lookup. exists i.
    apply lookup_zip_with_Some. by eexists _, _.
Qed.

Section DecodeRun.

Variable fmtOther : string -> Value -> string.
Variable fmtExtra : list Value -> string.
Variable IsExported : string -> bool.
Variable scope : gmap string GoType.
Variable implements : Value -> TypeId -> bool.
Variable implementation : string -> option (list Value -> list Value).
Variable DecodeFunctionCall :
  list Byte.byte -> string * gmap string Argument * Value.

Local Abbreviation Sprintf := (Sprintf fmtOther fmtExtra).
Local Abbreviation dispatchCase := (dispatchCase fmtOther fmtExtra).
Local Abbreviation generateServerReceiver :=
  (generateServerReceiver fmtOther fmtExtra).
Local Abbreviation exec :=
  (exec fmtOther fmtExtra IsExported scope implements implementation).
Local Abbreviation execBody :=
  (execBody fmtOther fmtExtra IsExported scope implements implementation).
Local Abbreviation execSteps :=
  (execSteps fmtOther fmtExtra IsExported scope implements implementation).
Local Abbreviation AgrowsReceive :=
  (AgrowsReceive fmtOther fmtExtra IsExported scope implements implementation
     DecodeFunctionCall).

Lemma execSteps_app args a b st :
  execSteps args (a ++ b) st
  = match execSteps args a st with
    | Next st' => execSteps args b st'
    | other => other
    end.
Proof.
  revert st. induction a as [|s a IH]; intros st; [done|].
  simpl. by destruct (exec args s st).
Qed.

Lemma execBody_steps args a b st :
  execBody args (a ++ b) st
  = match execSteps args a st with
    | Next st' => execBody args b st'
    | other => other
    end.
Proof.
  revert st. induction a as [|s a IH]; intros st; [done|].
  simpl. by destruct (exec args s st).
Qed.

Lemma dispatchCase_parts fnInfo c :
  dispatchCase fnInfo = Some c ->
  exists name decode reply,
    OriginalIdentifier fnInfo = Some name /\
    decodePart fnInfo = Some decode /\
    replyPart fmtOther fmtExtra name fnInfo = Some reply /\
    c = {| CaseKey := name; CaseBody := decode ++ reply |}.
Proof.
  unfold Model.dispatchCase. intros H.
  destruct (OriginalIdentifier fnInfo) as [name|]; [|done].
  destruct (decodePart fnInfo) as [decode|]; [|done].
  cbn [mbind option_bind] in H.
  destruct (replyPart fmtOther fmtExtra name fnInfo) as [reply|] eqn:Hr; [|done].
  cbn [mbind option_bind] in H. simplify_eq. by eexists _, _, _.
Qed.

Lemma decodePart_parts fnInfo decode :
  decodePart fnInfo = Some decode ->
  exists defs decodes,
    mapM paramDecode (Params fnInfo) = Some decodes /\
    decode = defs ++ concat decodes /\
    (defs = [] /\ Params fnInfo = [] \/
     exists ds, mapM paramVarDefs (Params fnInfo) = Some ds /\
                defs = [SVarDefs (concat ds ++ [DefOk])]).
Proof.
  unfold decodePart. intros H.
  case_decide as Hlen.
  - cbn [mbind option_bind] in H.
    destruct (mapM paramDecode (Params fnInfo)) as [decodes|]; [|done].
    cbn [mbind option_bind] in H. simplify_eq.
    eexists [], decodes. split_and!; [done..|].
    left. split; [done|]. by apply nil_length_inv.
  - destruct (mapM paramVarDefs (Params fnInfo)) as [ds|]; [|done].
    cbn [mbind option_bind] in H.
    destruct (mapM paramDecode (Params fnInfo)) as [decodes|]; [|done].
    cbn [mbind option_bind] in H. simplify_eq.
    eexists _, decodes. split_and!; [done..|]. right. by eexists.
Qed.

Lemma paramDecode_primitive q n T :
  IsStruct q = false -> firstName (DstField q) = Some n ->
  typeIdentName (DstField q) = Some T ->
  paramDecode q
  = Some [SLookupArg ((n +:+ "Param") +:+ "Arg") n
            "parameter %s is not in the received arguments" n;
          SCastArg (n +:+ "Param") ((n +:+ "Param") +:+ "Arg") T
            "failed to cast parameter '%s' to '%s'" T].
Proof.
  intros Hs Hn HT. unfold paramDecode. rewrite Hn, HT, Hs. done.
Qed.

Lemma paramDecode_named q ss :
  paramDecode q = Some ss ->
  exists n T, firstName (DstField q) = Some n /\
              typeIdentName (DstField q) = Some T.
Proof.
  unfold paramDecode. intros H.
  destruct (firstName (DstField q)) as [n|]; [|done].
  destruct (typeIdentName (DstField q)) as [T|]; [|done].
  by eexists _, _.
Qed.


Lemma declare_defs params : forall ds m0,
  mapM paramVarDefs params = Some ds -> declarable scope params = true ->
  is_Some (fold_left (declare scope) (concat ds) (Some m0)).
Proof.
  induction params as [|q params IH]; intros ds m0 Hds Hdecl.
  - apply mapM_Some, Forall2_nil_inv_l in Hds as ->. by eexists.
  - apply mapM_Some in Hds. inversion Hds as [|? d ? ds' Hd Hds']; subst.
    apply mapM_Some in Hds'.
    simpl in Hdecl. apply andb_prop in Hdecl as [Hq Hdecl].
    apply bool_decide_eq_true in Hq as [t Ht].
    unfold typeOfParam in Ht. unfold paramVarDefs in Hd.
    destruct (firstName (DstField q)) as [n|]; [|done].
    destruct (typeIdentName (DstField q)) as [T|]; [|done].
    cbn [mbind option_bind] in Ht, Hd. simplify_eq.
    simpl. rewrite fold_left_app. simpl. rewrite Ht. cbn [mbind option_bind].
    destruct (IsStruct q); simpl; by apply IH.
Qed.

Lemma exec_var_block args params ds st :
  mapM paramVarDefs params = Some ds -> declarable scope params = true ->
  exists m, exec args (SVarDefs (concat ds ++ [DefOk])) st
            = Next {| vars := m; calls := calls st |}.
Proof.
  intros Hds Hdecl.
  destruct (declare_defs params ds (vars st) Hds Hdecl) as [m Hm].
  simpl. rewrite fold_left_app, Hm. simpl. by eexists.
Qed.

Lemma accepted_inv args q :
  accepted scope implements args q = true ->
  exists n T t a,
    IsStruct q = false /\ firstName (DstField q) = Some n /\
    typeIdentName (DstField q) = Some T /\ scope !! T = Some t /\
    args !! n = Some a /\ assertType implements (ArgValue a) t = true.
Proof.
  unfold accepted, wellTyped, typeOfParam. intros H.
  apply andb_prop in H as [Hs H]. apply negb_true_iff in Hs.
  destruct (firstName (DstField q)) as [n|]; [|done].
  cbn [mbind option_bind] in H.
  destruct (args !! n) as [a|] eqn:Ha; [|done].
  destruct (typeIdentName (DstField q)) as [T|]; [|done].
  cbn [mbind option_bind] in H.
  destruct (scope !! T) as [t|] eqn:Ht; [|done].
  by eexists n, T, t, a.
Qed.

Lemma accepted_declarable args params :
  forallb (accepted scope implements args) params = true ->
  declarable scope params = true.
Proof.
  unfold declarable. rewrite !forallb_forall. intros H q Hq.
  destruct (accepted_inv args q (H q Hq)) as (n & T & t & a & _ & _ & HT & Ht & _).
  apply bool_decide_eq_true. exists t. unfold typeOfParam. by rewrite HT.
Qed.

(** The statements of the first [i] parameters, when each is accepted,
    run to the state that holds their values. *)
Lemma decode_prefix args params : forall i decodes rest st,
  mapM paramDecode params = Some decodes ->
  forallb (accepted scope implements args) (take i params) = true ->
  exists names entries,
    paramNames (take i params) = Some names /\
    argumentsFor args (take i params) = Some entries /\
    execSteps args (concat decodes ++ rest) st
    = execSteps args (concat (drop i decodes) ++ rest)
        {| vars := decoded (vars st) (zip names entries); calls := calls st |}.
Proof.
  induction params as [|q params IH]; intros i decodes rest st Hdec Hacc.
  - apply mapM_Some, Forall2_nil_inv_l in Hdec as ->.
    exists [], []. rewrite take_nil, drop_nil. by destruct st.
  - apply mapM_Some in Hdec. inversion Hdec as [|? d ? decodes' Hd Hdec']; subst.
    apply mapM_Some in Hdec'.
    destruct i as [|i].
    { exists [], []. by destruct st. }
    simpl in Hacc. apply andb_prop in Hacc as [Hq Hacc].
    destruct (accepted_inv args q Hq)
      as (n & T & t & a & Hs & Hn & HT & Ht & Ha & Hassert).
    rewrite (paramDecode_primitive q n T Hs Hn HT) in Hd. simplify_eq.
    destruct (IH i decodes' rest
                {| vars := <[n +:+ "Param" := CVal (ArgValue a)]>
                             (<[(n +:+ "Param") +:+ "Arg" := CArg a]> (vars st));
                   calls := calls st |} Hdec' Hacc)
      as (names & entries & Hnames & Hentries & Hrun).
    exists (n :: names), (a :: entries). split_and!.
    + unfold paramNames in *. cbn [take mapM]. rewrite Hn, Hnames. done.
    + unfold argumentsFor in *. cbn [take mapM]. rewrite Hn.
      cbn [mbind option_bind]. rewrite Ha, Hentries. done.
    + cbn [concat app drop]. cbn [Model.execSteps Model.exec].
      rewrite Ha. cbn [vars calls]. rewrite lookup_insert_eq, Ht, Hassert.
      exact Hrun.
Qed.

Lemma dispatch_body infos r data name args fnInfo :
  generateServerReceiver infos = Some r ->
  DecodeFunctionCall data = (name, args, VNil) ->
  find (fun info => bool_decide (OriginalIdentifier info = Some name)) infos
  = Some fnInfo ->
  exists decode reply,
    decodePart fnInfo = Some decode /\
    replyPart fmtOther fmtExtra name fnInfo = Some reply /\
    AgrowsReceive r data = execBody args (decode ++ reply) initial.
Proof.
  intros Hgen Hdata Hfind.
  destruct (find_case fmtOther fmtExtra infos r name fnInfo Hgen Hfind)
    as (c & Hc & Hcase).
  apply find_some in Hfind as [_ Hname]. apply bool_decide_eq_true in Hname.
  destruct (dispatchCase_parts fnInfo c Hcase)
    as (name' & decode & reply & Hname' & Hdecode & Hreply & ->).
  rewrite Hname in Hname'. simplify_eq.
  exists decode, reply. split_and!; [done..|].
  unfold Model.AgrowsReceive. rewrite Hdata, Hc. done.
Qed.

(** The run of a case up to the statements of the parameter at position
    [i], the parameters before it being accepted: the [var] block gives
    the variables [m], the statements of the parameters before fill
    theirs. *)
Lemma dispatch_prefix infos r data name args fnInfo i q :
  generateServerReceiver infos = Some r ->
  DecodeFunctionCall data = (name, args, VNil) ->
  find (fun info => bool_decide (OriginalIdentifier info = Some name)) infos
  = Some fnInfo ->
  declarable scope (Params fnInfo) = true ->
  forallb (accepted scope implements args) (take i (Params fnInfo)) = true ->
  Params fnInfo !! i = Some q ->
  exists d ds m names entries rest,
    paramDecode q = Some d /\
    mapM paramVarDefs (Params fnInfo) = Some ds /\
    fold_left (declare scope) (concat ds ++ [DefOk]) (Some ∅) = Some m /\
    paramNames (take i (Params fnInfo)) = Some names /\
    argumentsFor args (take i (Params fnInfo)) = Some entries /\
    AgrowsReceive r data
    = match execSteps args (d ++ rest)
              {| vars := decoded m (zip names entries); calls := [] |} with
      | Next st' => execBody args
                      (default [] (replyPart fmtOther fmtExtra name fnInfo)) st'
      | other => other
      end.
Proof.
  intros Hgen Hdata Hfind Hdecl Hacc Hq.
  destruct (dispatch_body infos r data name args fnInfo Hgen Hdata Hfind)
    as (decode & reply & Hdecode & Hreply & ->).
  destruct (decodePart_parts fnInfo decode Hdecode)
    as (defs & decodes & Hdecs & -> & [[-> Hnil]|(ds & Hds & ->)]).
  { by rewrite Hnil in Hq. }
  destruct (declare_defs (Params fnInfo) ds ∅ Hds Hdecl) as [m0 Hm0].
  assert (exists m, fold_left (declare scope) (concat ds ++ [DefOk]) (Some ∅)
                    = Some m) as [m Hm].
  { rewrite fold_left_app, Hm0. simpl. by eexists. }
  rewrite <-(assoc_L (++)). cbn [app Model.execBody Model.exec].
  cbn [vars calls initial]. rewrite Hm.
  rewrite execBody_steps.
  destruct (decode_prefix args (Params fnInfo) i decodes []
              {| vars := m; calls := [] |} Hdecs Hacc)
    as (names & entries & Hnames & Hentries & Hrun).
  rewrite !app_nil_r in Hrun. rewrite Hrun.
  apply mapM_Some in Hdecs.
  destruct (Forall2_lookup_l _ _ _ _ _ Hdecs Hq) as (d & Hd & Hpd).
  rewrite (drop_S _ _ _ Hd). cbn [concat].
  rewrite Hreply. cbn [default vars calls].
  eexists d, ds, m, names, entries, (concat (drop (S i) decodes)).
  split_and!; last reflexivity; done.
Qed.

(** X1: a parameter decoded as a primitive and absent from the table: the
    dispatcher returns the error that names it and calls nothing. *)
Theorem missing_argument_is_reported_by_name
    infos r data name args fnInfo i q n :
  generateServerReceiver infos = Some r ->
  DecodeFunctionCall data = (name, args, VNil) ->
  find (fun info => bool_decide (OriginalIdentifier info = Some name)) infos
  = Some fnInfo ->
  declarable scope (Params fnInfo) = true ->
  forallb (accepted scope implements args) (take i (Params fnInfo)) = true ->
  Params fnInfo !! i = Some q ->
  IsStruct q = false -> firstName (DstField q) = Some n ->
  args !! n = None ->
  result (AgrowsReceive r data)
  = Some (Returned ""
            (VError ("parameter " +:+ n +:+ " is not in the received arguments")),
          []).
Proof.
  intros Hgen Hdata Hfind Hdecl Hacc Hq Hs Hn Hnone.
  destruct (dispatch_prefix infos r data name args fnInfo i q
              Hgen Hdata Hfind Hdecl Hacc Hq)
    as (d & ds & m & names & entries & rest & Hd & _ & _ & _ & _ & ->).
  destruct (paramDecode_named q d Hd) as (n' & T & Hn' & HT).
  rewrite Hn in Hn'. simplify_eq.
  rewrite (paramDecode_primitive q n' T Hs Hn HT) in Hd. simplify_eq.
  cbn [app Model.execSteps Model.exec]. rewrite Hnone.
  cbn [result calls]. by rewrite Sprintf_missing.
Qed.

Lemma Sprintf_cast v T :
  Sprintf "failed to cast parameter '%s' to '%s'" [v; VString T]
  = "failed to cast parameter '" +:+ formatOperand fmtOther "s" v +:+
    "' to '" +:+ T +:+ "'".
Proof. reflexivity. Qed.

(** X2: a parameter decoded as a primitive whose table entry holds a value of
    another type: the dispatcher returns an error whose text shows the zero
    value of the declared type where the format has the parameter, then the
    type name, and calls nothing. *)
Theorem wrong_argument_type_is_reported_with_the_zero_value
    infos r data name args fnInfo i q n a T t :
  generateServerReceiver infos = Some r ->
  DecodeFunctionCall data = (name, args, VNil) ->
  find (fun info => bool_decide (OriginalIdentifier info = Some name)) infos
  = Some fnInfo ->
  declarable scope (Params fnInfo) = true ->
  forallb (accepted scope implements args) (take i (Params fnInfo)) = true ->
  Params fnInfo !! i = Some q ->
  IsStruct q = false -> firstName (DstField q) = Some n ->
  typeIdentName (DstField q) = Some T -> scope !! T = Some t ->
  args !! n = Some a -> assertType implements (ArgValue a) t = false ->
  result (AgrowsReceive r data)
  = Some (Returned ""
            (VError ("failed to cast parameter '" +:+
                     formatOperand fmtOther "s" (zeroValue t) +:+
                     "' to '" +:+ T +:+ "'")),
          []).
Proof.
  intros Hgen Hdata Hfind Hdecl Hacc Hq Hs Hn HT Ht Ha Hassert.
  destruct (dispatch_prefix infos r data name args fnInfo i q
              Hgen Hdata Hfind Hdecl Hacc Hq)
    as (d & ds & m & names & entries & rest & Hd & _ & _ & _ & _ & ->).
  rewrite (paramDecode_primitive q n T Hs Hn HT) in Hd. simplify_eq.
  cbn [app Model.execSteps Model.exec]. rewrite Ha.
  cbn [vars calls]. rewrite lookup_insert_eq, Ht, Hassert.
  cbn [result vars calls]. by rewrite Sprintf_cast.
Qed.

Lemma callOperands_of_names params names :
  paramNames params = Some names ->
  mapM callOperand params = Some (map (fun n => n +:+ "Param") names).
Proof.
  unfold paramNames. intros H. apply mapM_Some in H. apply mapM_Some.
  apply Forall2_fmap_r. eapply Forall2_impl; [exact H|].
  intros q n Hn. unfold callOperand. by rewrite Hn.
Qed.

(** X3: every parameter is decoded as a primitive and found in the table with
    a value of its type: the implementation is called once, with the
    values of the table in the order of the parameters, and its results
    make the reply. *)
Theorem dispatch_passes_the_arguments_in_declared_order
    infos r data name args fnInfo names entries f tys o :
  generateServerReceiver infos = Some r ->
  DecodeFunctionCall data = (name, args, VNil) ->
  find (fun info => bool_decide (OriginalIdentifier info = Some name)) infos
  = Some fnInfo ->
  forallb (accepted scope implements args) (Params fnInfo) = true ->
  paramNames (Params fnInfo) = Some names -> NoDup names ->
  argumentsFor args (Params fnInfo) = Some entries ->
  implementation ("agrows_" +:+ name) = Some f ->
  typeNames (Results fnInfo) = Some tys ->
  length (f (map ArgValue entries)) = length tys ->
  replyOf fmtOther tys (f (map ArgValue entries)) = Some o ->
  result (AgrowsReceive r data)
  = Some (o, [("agrows_" +:+ name, map ArgValue entries)]).
Proof.
  intros Hgen Hdata Hfind Hacc Hnames Hnd Hentries Himpl Htys Hlen Hreply.
  destruct (dispatch_body infos r data name args fnInfo Hgen Hdata Hfind)
    as (decode & reply & Hdecode & _ & _).
  assert (length names = length entries) as Hsame.
  { apply length_mapM in Hnames. apply length_mapM in Hentries. lia. }
  assert (exists m, execSteps args decode initial
                    = Next {| vars := decoded m (zip names entries);
                              calls := [] |}) as [m Hrun].
  { destruct (decodePart_parts fnInfo decode Hdecode)
      as (defs & decodes & Hdecs & -> & [[-> Hnil]|(ds & Hds & ->)]).
    - rewrite Hnil in *.
      apply mapM_Some, Forall2_nil_inv_l in Hdecs as ->.
      apply mapM_Some, Forall2_nil_inv_l in Hnames as ->.
      by exists ∅.
    - destruct (exec_var_block args (Params fnInfo) ds initial Hds
                  (accepted_declarable args _ Hacc)) as [m Hm].
      exists m. rewrite execSteps_app. cbn [Model.execSteps]. rewrite Hm.
      destruct (decode_prefix args (Params fnInfo) (length (Params fnInfo))
                  decodes [] {| vars := m; calls := calls initial |} Hdecs)
        as (names' & entries' & Hnames' & Hentries' & Hstep).
      { by rewrite firstn_all. }
      rewrite firstn_all in Hnames', Hentries'. simplify_eq.
      rewrite !app_nil_r in Hstep. rewrite Hstep.
      rewrite drop_ge; [done|].
      apply length_mapM in Hdecs. lia. }
  rewrite (dispatch_reply fmtOther fmtExtra IsExported scope implements
             implementation DecodeFunctionCall infos r data name args fnInfo
             decode {| vars := decoded m (zip names entries); calls := [] |}
             (map (fun n => n +:+ "Param") names)
             (map ArgValue entries) f tys o); try done.
  - by apply callOperands_of_names.
  - by apply readVal_decoded.
Qed.

(** ** The table is read at the names of the primitive parameters only *)

Lemma exec_frame args args' s st :
  (forall k, k ∈ lookedUp s -> args !! k = args' !! k) ->
  exec args s st = exec args' s st.
Proof.
  intros H. destruct s; try done.
  simpl. rewrite (H key); [done|]. by left.
Qed.

Lemma execBody_frame args args' body : forall st,
  (forall k, k ∈ flat_map lookedUp body -> args !! k = args' !! k) ->
  execBody args body st = execBody args' body st.
Proof.
  induction body as [|s body IH]; intros st H; [done|].
  simpl. rewrite (exec_frame args args' s st).
  - destruct (exec args' s st); try done. apply IH.
    intros k Hk. apply H. simpl. apply elem_of_app. by right.
  - intros k Hk. apply H. simpl. apply elem_of_app. by left.
Qed.

Lemma replyPart_lookedUp name fnInfo reply :
  replyPart fmtOther fmtExtra name fnInfo = Some reply ->
  flat_map lookedUp reply = [].
Proof.
  unfold replyPart. intros H.
  destruct (mapM callOperand (Params fnInfo)) as [operands|]; [|done].
  cbn [mbind option_bind] in H.
  case_decide; [by simplify_eq|].
  destruct (resultVars (Results fnInfo)) as [[[fe fs] vn]|]; [|done].
  cbn [mbind option_bind] in H.
  repeat case_decide; simplify_option_eq; done.
Qed.

Lemma paramDecode_lookedUp q ss :
  paramDecode q = Some ss ->
  map Some (flat_map lookedUp ss)
  = if IsStruct q then [] else [firstName (DstField q)].
Proof.
  unfold paramDecode. intros H.
  destruct (firstName (DstField q)) as [n|]; [|done].
  destruct (typeIdentName (DstField q)) as [T|]; [|done].
  cbn [mbind option_bind] in H.
  destruct (IsStruct q); by simplify_eq.
Qed.

(** The keys a case looks up: the names of the parameters not classified
    as structs, each once, in declared order. *)
Lemma dispatchCase_lookedUp fnInfo c :
  dispatchCase fnInfo = Some c ->
  map Some (flat_map lookedUp (CaseBody c))
  = flat_map (fun q => if IsStruct q then [] else [firstName (DstField q)])
      (Params fnInfo).
Proof.
  intros Hc.
  destruct (dispatchCase_parts fnInfo c Hc)
    as (name & decode & reply & _ & Hdecode & Hreply & ->).
  destruct (decodePart_parts fnInfo decode Hdecode)
    as (defs & decodes & Hdecs & -> & Hdefs).
  cbn [CaseBody]. rewrite !flat_map_app, (replyPart_lookedUp _ _ _ Hreply).
  rewrite app_nil_r.
  assert (flat_map lookedUp defs = []) as ->.
  { by destruct Hdefs as [[-> _]|(ds & _ & ->)]. }
  cbn [app]. apply mapM_Some in Hdecs. clear Hdecode Hdefs Hc.
  induction Hdecs as [|q ss params decodes Hq _ IH]; [done|].
  cbn [concat flat_map]. rewrite flat_map_app, map_app, IH.
  by rewrite (paramDecode_lookedUp q ss Hq).
Qed.

(** X4: two payloads that name the same function and agree on the entries
    under the names of its primitive parameters get the same run: entries
    under other keys, and entries under the names of struct parameters,
    are never read. *)
Theorem only_the_primitive_parameters_are_read_from_the_table
    infos r data data' name args args' fnInfo :
  generateServerReceiver infos = Some r ->
  DecodeFunctionCall data = (name, args, VNil) ->
  DecodeFunctionCall data' = (name, args', VNil) ->
  find (fun info => bool_decide (OriginalIdentifier info = Some name)) infos
  = Some fnInfo ->
  (forall q n, q ∈ Params fnInfo -> IsStruct q = false ->
     firstName (DstField q) = Some n -> args !! n = args' !! n) ->
  AgrowsReceive r data = AgrowsReceive r data'.
Proof.
  intros Hgen Hdata Hdata' Hfind Hagree.
  destruct (find_case fmtOther fmtExtra infos r name fnInfo Hgen Hfind)
    as (c & Hc & Hcase).
  unfold Model.AgrowsReceive. rewrite Hdata, Hdata', Hc.
  apply execBody_frame. intros k Hk.
  assert (Some k ∈ map Some (flat_map lookedUp (CaseBody c))) as Hin.
  { apply list_elem_of_fmap. by exists k. }
  rewrite (dispatchCase_lookedUp fnInfo c Hcase) in Hin.
  apply list_elem_of_In, in_flat_map in Hin as (q & Hq & Hin).
  apply list_elem_of_In in Hq.
  destruct (IsStruct q) eqn:Hs; [by apply in_nil in Hin|].
  destruct Hin as [Hin|[]]. by apply (Hagree q).
Qed.

(** ** Struct parameters *)

Lemma declare_fold_None l : fold_left (declare scope) l None = None.
Proof. by induction l. Qed.

Lemma paramVarDefs_inv q d :
  paramVarDefs q = Some d ->
  exists n T,
    firstName (DstField q) = Some n /\ typeIdentName (DstField q) = Some T /\
    d = [DefParam (n +:+ "Param") T; DefArgument ((n +:+ "Param") +:+ "Arg")] ++
        if IsStruct q
        then [DefReflect ((n +:+ "Param") +:+ "Value") (n +:+ "Value")]
        else [].
Proof.
  unfold paramVarDefs. intros H.
  destruct (firstName (DstField q)) as [n|]; [|done].
  destruct (typeIdentName (DstField q)) as [T|]; [|done].
  cbn [mbind option_bind] in H. simplify_eq. by eexists _, _.
Qed.

(** The variables a parameter's lines of the [var] block declare. *)
Lemma declare_one q d m0 m :
  paramVarDefs q = Some d ->
  fold_left (declare scope) d (Some m0) = Some m ->
  exists n T t,
    firstName (DstField q) = Some n /\ typeIdentName (DstField q) = Some T /\
    scope !! T = Some t /\
    m = (if IsStruct q
         then fun m => <[n +:+ "Value" := CRef RZero]>
                         (<[(n +:+ "Param") +:+ "Value" := CRef RZero]> m)
         else fun m => m)
          (<[(n +:+ "Param") +:+ "Arg" := CArg zeroArgument]>
             (<[n +:+ "Param" := CVal (zeroValue t)]> m0)).
Proof.
  intros Hd Hm.
  destruct (paramVarDefs_inv q d Hd) as (n & T & Hn & HT & ->).
  exists n, T. cbn [app fold_left declare mbind option_bind] in Hm.
  destruct (scope !! T) as [t|] eqn:Ht.
  - exists t. cbn [mbind option_bind] in Hm.
    destruct (IsStruct q); simpl in Hm; by simplify_eq.
  - cbn [mbind option_bind] in Hm. by rewrite declare_fold_None in Hm.
Qed.

Lemma declare_fold_other params : forall ds m0 m x,
  mapM paramVarDefs params = Some ds ->
  fold_left (declare scope) (concat ds) (Some m0) = Some m ->
  (forall q n, q ∈ params -> firstName (DstField q) = Some n ->
     x <> n +:+ "Param" /\ x <> (n +:+ "Param") +:+ "Arg" /\
     x <> (n +:+ "Param") +:+ "Value" /\ x <> n +:+ "Value") ->
  m !! x = m0 !! x.
Proof.
  induction params as [|q params IH]; intros ds m0 m x Hds Hm Hx.
  - apply mapM_Some, Forall2_nil_inv_l in Hds as ->. by simplify_eq/=.
  - apply mapM_Some in Hds. inversion Hds as [|? d ? ds' Hd Hds']; subst.
    apply mapM_Some in Hds'.
    cbn [concat] in Hm. rewrite fold_left_app in Hm.
    destruct (fold_left (declare scope) d (Some m0)) as [m1|] eqn:Hm1;
      [|by rewrite declare_fold_None in Hm].
    destruct (declare_one q d m0 m1 Hd Hm1) as (n & T & t & Hn & _ & _ & ->).
    rewrite (IH ds' _ m x Hds' Hm).
    + destruct (Hx q n) as (H1 & H2 & H3 & H4); [by left|done|].
      destruct (IsStruct q); by rewrite !lookup_insert_ne.
    + intros q' n' Hq'. apply Hx. by right.
Qed.

Lemma NoDup_lookup_not_before {A} (l : list A) i x :
  NoDup l -> l !! i = Some x -> x ∉ take i l.
Proof.
  intros Hnd Hx. rewrite <-(take_drop_middle l i x Hx) in Hnd.
  apply NoDup_app in Hnd as (_ & Hdis & _).
  intros Hin. apply (Hdis x Hin). by left.
Qed.

Lemma NoDup_lookup_not_after {A} (l : list A) i x :
  NoDup l -> l !! i = Some x -> x ∉ drop (S i) l.
Proof.
  intros Hnd Hx. rewrite <-(take_drop_middle l i x Hx) in Hnd.
  apply NoDup_app in Hnd as (_ & _ & Hnd).
  by apply NoDup_cons in Hnd as [? _].
Qed.

Lemma paramNames_elem params names q n :
  paramNames params = Some names -> q ∈ params ->
  firstName (DstField q) = Some n -> n ∈ names.
Proof.
  unfold paramNames. intros H Hq Hn. apply mapM_Some in H.
  apply list_elem_of_lookup in Hq as [i Hq].
  destruct (Forall2_lookup_l _ _ _ _ _ H Hq) as (n' & Hn' & Hqn).
  rewrite Hn in Hqn. simplify_eq. by eapply list_elem_of_lookup_2.
Qed.

Lemma other_parameter n n' :
  n <> n' ->
  (n +:+ "Param" <> n' +:+ "Param" /\
   n +:+ "Param" <> (n' +:+ "Param") +:+ "Arg" /\
   n +:+ "Param" <> (n' +:+ "Param") +:+ "Value" /\
   n +:+ "Param" <> n' +:+ "Value") /\
  ((n +:+ "Param") +:+ "Arg" <> n' +:+ "Param" /\
   (n +:+ "Param") +:+ "Arg" <> (n' +:+ "Param") +:+ "Arg" /\
   (n +:+ "Param") +:+ "Arg" <> (n' +:+ "Param") +:+ "Value" /\
   (n +:+ "Param") +:+ "Arg" <> n' +:+ "Value").
Proof.
  intros Hne. split_and!; try by apply suffix_neq.
  - intros H. by apply append_inj_l in H.
  - intros H. by do 2 apply append_inj_l in H.
Qed.

(** After the [var] block, the variables of a parameter hold the zero
    value of its type and the zero entry. *)
Lemma declare_fold_elem params : forall names ds m0 m i q n T t,
  mapM paramVarDefs params = Some ds ->
  fold_left (declare scope) (concat ds) (Some m0) = Some m ->
  paramNames params = Some names -> NoDup names ->
  params !! i = Some q -> firstName (DstField q) = Some n ->
  typeIdentName (DstField q) = Some T -> scope !! T = Some t ->
  m !! (n +:+ "Param") = Some (CVal (zeroValue t)) /\
  m !! ((n +:+ "Param") +:+ "Arg") = Some (CArg zeroArgument).
Proof.
  induction params as [|q' params IH];
    intros names ds m0 m i q n T t Hds Hm Hnames Hnd Hq Hn HT Ht; [done|].
  apply mapM_Some in Hds. inversion Hds as [|? d ? ds' Hd Hds']; subst.
  apply mapM_Some in Hds'.
  unfold paramNames in Hnames. apply mapM_Some in Hnames.
  inversion Hnames as [|? n' ? names' Hn' Hnames']; subst.
  apply mapM_Some in Hnames'. apply NoDup_cons in Hnd as [Hfresh Hnd].
  cbn [concat] in Hm. rewrite fold_left_app in Hm.
  destruct (fold_left (declare scope) d (Some m0)) as [m1|] eqn:Hm1;
    [|by rewrite declare_fold_None in Hm].
  destruct i as [|i].
  - simplify_eq/=.
    destruct (declare_one q d m0 m1 Hd Hm1)
      as (n0 & T0 & t0 & Hn0 & HT0 & Ht0 & ->).
    simplify_eq.
    assert (forall x,
              (forall n', n <> n' ->
                 x <> n' +:+ "Param" /\ x <> (n' +:+ "Param") +:+ "Arg" /\
                 x <> (n' +:+ "Param") +:+ "Value" /\ x <> n' +:+ "Value") ->
              m !! x
              = (if IsStruct q
                 then fun m => <[n +:+ "Value" := CRef RZero]>
                                 (<[(n +:+ "Param") +:+ "Value" := CRef RZero]> m)
                 else fun m => m)
                  (<[(n +:+ "Param") +:+ "Arg" := CArg zeroArgument]>
                     (<[n +:+ "Param" := CVal (zeroValue t)]> m0)) !! x)
      as Hkeep.
    { intros x Hx. apply (declare_fold_other params ds'); [done..|].
      intros q'' n'' Hq'' Hn''. apply Hx. intros ->.
      apply Hfresh. by eapply paramNames_elem. }
    split.
    + rewrite Hkeep by (intros n' Hne; by apply other_parameter).
      assert (n +:+ "Param" <> (n +:+ "Param") +:+ "Arg") by by apply suffix_neq.
      assert (n +:+ "Param" <> (n +:+ "Param") +:+ "Value") by by apply suffix_neq.
      assert (n +:+ "Param" <> n +:+ "Value") by by apply suffix_neq.
      destruct (IsStruct q); rewrite ?lookup_insert_ne by done;
        by rewrite lookup_insert_eq.
    + rewrite Hkeep by (intros n' Hne; by apply other_parameter).
      assert ((n +:+ "Param") +:+ "Arg" <> (n +:+ "Param") +:+ "Value")
        by by apply suffix_neq.
      assert ((n +:+ "Param") +:+ "Arg" <> n +:+ "Value") by by apply suffix_neq.
      destruct (IsStruct q); rewrite ?lookup_insert_ne by done;
        by rewrite lookup_insert_eq.
  - by apply (IH names' ds' m1 m i q n T t).
Qed.

Lemma paramDecode_struct q n T :
  IsStruct q = true -> firstName (DstField q) = Some n ->
  typeIdentName (DstField q) = Some T ->
  paramDecode q
  = Some [SReflectValueOfArg ((n +:+ "Param") +:+ "Value")
            ((n +:+ "Param") +:+ "Arg");
          SReflectElem (n +:+ "Value") (n +:+ "Param");
          SCopyFields (n +:+ "Value") ((n +:+ "Param") +:+ "Value")].
Proof.
  intros Hs Hn HT. unfold paramDecode. rewrite Hn, HT, Hs. done.
Qed.

(** X5: a parameter classified as a struct whose type has at least one field,
    the parameters before it being accepted: the table is not consulted
    for it, the copying loop reads a field of the zero reflect.Value, and
    the call panics before any implementation is called. *)
Theorem struct_parameter_with_a_field_panics
    infos r data name args fnInfo names i q sname fts :
  generateServerReceiver infos = Some r ->
  DecodeFunctionCall data = (name, args, VNil) ->
  find (fun info => bool_decide (OriginalIdentifier info = Some name)) infos
  = Some fnInfo ->
  declarable scope (Params fnInfo) = true ->
  paramNames (Params fnInfo) = Some names -> NoDup names ->
  forallb (accepted scope implements args) (take i (Params fnInfo)) = true ->
  Params fnInfo !! i = Some q -> IsStruct q = true ->
  typeOfParam scope q = Some (TStruct sname fts) -> fts <> [] ->
  result (AgrowsReceive r data)
  = Some (Panicked "reflect: call of reflect.Value.FieldByName on zero Value",
          []).
Proof.
  intros Hgen Hdata Hfind Hdecl Hnames Hnd Hacc Hq Hs Hty Hfts.
  destruct (dispatch_prefix infos r data name args fnInfo i q
              Hgen Hdata Hfind Hdecl Hacc Hq)
    as (d & ds & m & names' & entries & rest & Hd & Hds & Hm & Hnames' &
        Hentries & ->).
  destruct (paramDecode_named q d Hd) as (n & T & Hn & HT).
  unfold typeOfParam in Hty. rewrite HT in Hty. cbn [mbind option_bind] in Hty.
  rewrite (paramDecode_struct q n T Hs Hn HT) in Hd. simplify_eq.
  rewrite fold_left_app in Hm.
  destruct (fold_left (declare scope) (concat ds) (Some ∅)) as [m1|] eqn:Hm1;
    [|done].
  simpl in Hm. simplify_eq.
  destruct (declare_fold_elem (Params fnInfo) names ds ∅ m1 i q n T
              (TStruct sname fts) Hds Hm1 Hnames Hnd Hq Hn HT Hty)
    as [Hparam Harg].
  assert (names !! i = Some n) as Hi.
  { unfold paramNames in Hnames. apply mapM_Some in Hnames.
    destruct (Forall2_lookup_l _ _ _ _ _ Hnames Hq) as (n' & Hn' & Hqn).
    by simplify_eq. }
  assert (names' = take i names) as ->.
  { unfold paramNames in Hnames, Hnames'.
    apply mapM_Some in Hnames. apply mapM_Some in Hnames'.
    apply (Forall2_take _ _ _ i) in Hnames.
    eapply Forall2_unique; [exact Hnames'|exact Hnames|]. congruence. }
  assert (forall x,
            (forall n', n <> n' ->
               x <> n' +:+ "Param" /\ x <> (n' +:+ "Param") +:+ "Arg") ->
            decoded (<["ok":=CVal (VBool false)]> m1) (zip (take i names) entries)
              !! x
            = <["ok":=CVal (VBool false)]> m1 !! x) as Hkeep.
  { intros x Hx. apply decoded_other. intros n' Hn'. apply Hx. intros ->.
    apply (NoDup_lookup_not_before names i n' Hnd Hi).
    apply list_elem_of_fmap in Hn' as ([n'' a] & -> & Hin).
    by apply elem_of_zip_l in Hin. }
  assert ("ok" <> n +:+ "Param") by by apply (suffix_neq "" n "ok" "Param").
  assert ("ok" <> (n +:+ "Param") +:+ "Arg")
    by by apply (suffix_neq "" (n +:+ "Param") "ok" "Arg").
  assert ((n +:+ "Param") +:+ "Value" <> n +:+ "Param") by by apply suffix_neq.
  assert (n +:+ "Value" <> n +:+ "Param") by by apply suffix_neq.
  assert (n +:+ "Value" <> (n +:+ "Param") +:+ "Value") as Hvalue.
  { apply append_length_neq. rewrite append_length. simpl. lia. }
  cbn [app Model.execSteps Model.exec vars calls].
  rewrite Hkeep
    by (intros n' Hne; split; [apply other_parameter|apply other_parameter];
        done).
  rewrite lookup_insert_ne, Harg by done.
  cbn [ArgValue zeroArgument vars calls]. unfold readVal. cbn [vars].
  rewrite lookup_insert_ne by done.
  rewrite Hkeep by (intros n' Hne; split; by apply other_parameter).
  rewrite lookup_insert_ne, Hparam by done.
  cbn [vars calls]. rewrite lookup_insert_eq.
  rewrite lookup_insert_ne, lookup_insert_eq by done.
  cbn [reflected]. unfold readVal. cbn [vars].
  rewrite !lookup_insert_ne by done.
  rewrite Hkeep by (intros n' Hne; split; by apply other_parameter).
  rewrite lookup_insert_ne, Hparam by done.
  destruct fts as [|[fname ft] fts]; [done|].
  cbn [zeroValue map fst copyFields reflected]. done.
Qed.

End DecodeRun.

(** Sum called with {a: 2}: the missing b is named. *)
Lemma missing_argument_witness :
  result (receive predeclared sampleImplementation sampleFile "Sum"
            (<["a" := intArgument 2]> ∅))
  = Some (Returned "" (VError "parameter b is not in the received arguments"),
          []).
Proof.
  eapply (missing_argument_is_reported_by_name plainOther plainExtra
            asciiExported predeclared plainImplements sampleImplementation
            (decodesTo "Sum" (<["a" := intArgument 2]> ∅))
            (catalogOf sampleFile) (receiverOf sampleFile) [] "Sum"
            (<["a" := intArgument 2]> ∅) _ 1 _ "b");
    reflexivity.
Defined.

(** Greet called with {name: 5}: the text shows the zero value of string
    between the first pair of quotes. *)
Lemma wrong_argument_type_witness :
  result (receive predeclared sampleImplementation sampleFile "Greet"
            (<["name" := intArgument 5]> ∅))
  = Some (Returned "" (VError "failed to cast parameter '' to 'string'"), []).
Proof.
  eapply (wrong_argument_type_is_reported_with_the_zero_value plainOther
            plainExtra asciiExported predeclared plainImplements
            sampleImplementation
            (decodesTo "Greet" (<["name" := intArgument 5]> ∅))
            (catalogOf sampleFile) (receiverOf sampleFile) [] "Greet"
            (<["name" := intArgument 5]> ∅) _ 0 _ "name" (intArgument 5)
            "string" (TBasic String'));
    reflexivity.
Defined.

(** Greet called with {name: Bob}. *)
Lemma dispatch_passes_the_arguments_witness :
  result (receive predeclared sampleImplementation sampleFile "Greet"
            (<["name" := stringArgument "Bob"]> ∅))
  = Some (Returned "Hello, Bob" VNil, [("agrows_Greet", [VString "Bob"])]).
Proof.
  eapply (dispatch_passes_the_arguments_in_declared_order plainOther
            plainExtra asciiExported predeclared plainImplements
            sampleImplementation
            (decodesTo "Greet" (<["name" := stringArgument "Bob"]> ∅))
            (catalogOf sampleFile) (receiverOf sampleFile) [] "Greet"
            (<["name" := stringArgument "Bob"]> ∅) _ ["name"]
            [stringArgument "Bob"]);
    try reflexivity.
  apply NoDup_singleton.
Defined.

(** Sum called with {a: 2, b: 3} and with {a: 2, b: 3, c: 9}. *)
Lemma only_the_primitive_parameters_witness :
  AgrowsReceive plainOther plainExtra asciiExported predeclared plainImplements
    sampleImplementation
    (decodesEither "Sum" sumArguments (<["c" := intArgument 9]> sumArguments))
    (receiverOf sampleFile) []
  = AgrowsReceive plainOther plainExtra asciiExported predeclared
      plainImplements sampleImplementation
      (decodesEither "Sum" sumArguments (<["c" := intArgument 9]> sumArguments))
      (receiverOf sampleFile) [Byte.x00].
Proof.
  eapply (only_the_primitive_parameters_are_read_from_the_table plainOther
            plainExtra asciiExported predeclared plainImplements
            sampleImplementation
            (decodesEither "Sum" sumArguments
               (<["c" := intArgument 9]> sumArguments))
            (catalogOf sampleFile) (receiverOf sampleFile) [] [Byte.x00] "Sum"
            sumArguments (<["c" := intArgument 9]> sumArguments));
    try reflexivity.
  intros q n Hq _ Hn. simpl in Hq.
  repeat (apply elem_of_cons in Hq as [->|Hq];
          [vm_compute in Hn; simplify_eq; by vm_compute|]).
  by apply elem_of_nil in Hq.
Defined.

(** CrazyMath(inp CalcInput, scale int) called with {scale: 2}. *)
Lemma struct_parameter_witness :
  result (receive calcScope sampleImplementation calcFile "CrazyMath"
            (<["scale" := intArgument 2]> ∅))
  = Some (Panicked "reflect: call of reflect.Value.FieldByName on zero Value",
          []).
Proof.
  eapply (struct_parameter_with_a_field_panics plainOther plainExtra
            asciiExported calcScope plainImplements sampleImplementation
            (decodesTo "CrazyMath" (<["scale" := intArgument 2]> ∅))
            (catalogOf calcFile) (receiverOf calcFile) [] "CrazyMath"
            (<["scale" := intArgument 2]> ∅) _ ["inp"; "scale"] 0);
    try reflexivity; try done.
  apply (bool_decide_unpack _). by vm_compute.
Defined.

(** ** The native proxy and the bridge wrapper *)

Lemma percentFree_append s t :
  percentFree s = true -> percentFree t = true -> percentFree (s +:+ t) = true.
Proof.
  intros Hs Ht. induction s as [|c s IH]; [done|].
  simpl in *. apply andb_prop in Hs as [Hc Hs]. rewrite Hc. by apply IH.
Qed.

Lemma asserted_other bindings : forall m x,
  x <> "ok" -> x <> "err" ->
  (forall n, n ∈ bindings.*1 -> x <> n /\ x <> n +:+ "AsAny") ->
  asserted m bindings !! x = m !! x.
Proof.
  induction bindings as [|[n v] l IH]; intros m x Hok Herr Hx; [done|].
  unfold asserted in *. cbn [fold_left fst snd].
  rewrite IH; [|done..|].
  - destruct (Hx n) as [H1 H2]; [by left|].
    by rewrite !lookup_insert_ne.
  - intros n' Hn'. apply Hx. by right.
Qed.

Lemma hygienic_inv names n :
  hygienic names = true -> n ∈ names ->
  n <> "ok" /\ n <> "err" /\ forall n', n' ∈ names -> n <> n' +:+ "AsAny".
Proof.
  unfold hygienic. rewrite forallb_forall. intros H Hn.
  apply list_elem_of_In in Hn. specialize (H n Hn).
  apply andb_prop in H as [Hres Has].
  apply bool_decide_eq_true in Hres. unfold wrapperReserved in Hres.
  split_and!.
  - intros ->. apply Hres. set_solver.
  - intros ->. apply Hres. set_solver.
  - intros n' Hn'. rewrite forallb_forall in Has.
    apply list_elem_of_In in Hn'. exact (proj1 (bool_decide_eq_true _) (Has n' Hn')).
Qed.

Lemma asserted_elem names : forall vs m n v,
  NoDup names -> hygienic names = true ->
  length names = length vs -> (n, v) ∈ zip names vs ->
  asserted m (zip names vs) !! n = Some v.
Proof.
  intros vs m n v Hnd Hhyg Hlen Hin.
  assert (forall l, l ⊆ zip names vs -> NoDup l.*1 ->
            forall m, (n, v) ∈ l -> asserted m l !! n = Some v) as Hgen.
  { induction l as [|[n' v'] l IH]; intros Hsub Hndl m' Hinl.
    { by apply elem_of_nil in Hinl. }
    cbn [fmap list_fmap fst] in Hndl. apply NoDup_cons in Hndl as [Hn' Hndl].
    assert (n' ∈ names) as Hn'names.
    { eapply elem_of_zip_l. apply Hsub. by left. }
    destruct (hygienic_inv names n' Hhyg Hn'names) as (Hok & Herr & Has).
    apply elem_of_cons in Hinl as [Heq|Hinl].
    - simplify_eq. unfold asserted. cbn [fold_left fst snd].
      fold (asserted (<["ok":=VBool true]> (<[n':=v']>
              (<["err":=VNil]> (<[n' +:+ "AsAny":=v']> m')))) l).
      rewrite asserted_other; [| done | done |].
      + rewrite lookup_insert_ne by done. by rewrite lookup_insert_eq.
      + intros n Hn. split; [by intros ->|].
        apply Has. apply list_elem_of_fmap in Hn as ([n0 v0] & -> & Hn).
        eapply elem_of_zip_l. apply Hsub. by right.
    - unfold asserted. cbn [fold_left fst snd]. apply IH; [|done..].
      intros x Hx. apply Hsub. by right. }
  apply Hgen; [done| |done].
  rewrite fst_zip; [done|lia].
Qed.

Lemma lookup_asserted names vs m :
  NoDup names -> hygienic names = true -> length names = length vs ->
  mapM (fun x => asserted m (zip names vs) !! x) names = Some vs.
Proof.
  intros Hnd Hhyg Hlen. apply mapM_Some.
  apply Forall2_same_length_lookup_2; [done|].
  intros i n v Hn Hv. apply asserted_elem; [done..|].
  apply list_elem_of_lookup. exists i.
  apply lookup_zip_with_Some. by eexists _, _.
Qed.

Section ClientRun.

Variable fmtOther : string -> Value -> string.
Variable fmtExtra : list Value -> string.
Variable scope : gmap string GoType.
Variable implements : Value -> TypeId -> bool.
Variable implDependentInt : spec_float -> Z.
Variable json_Marshal : list (string * Value) -> list Byte.byte * Value.
Variable json_Unmarshal : list Byte.byte -> GoType -> Value * Value.
Variable EncodeFunctionCall :
  string -> list (string * Value) -> list Byte.byte * Value.
Variable hostGlobal : string -> JsValue.

Local Abbreviation Sprintf := (Sprintf fmtOther fmtExtra).
Local Abbreviation generateNewClientFunc :=
  (generateNewClientFunc fmtOther fmtExtra).
Local Abbreviation jsValueToAny :=
  (jsValueToAny fmtOther fmtExtra implDependentInt json_Marshal json_Unmarshal).
Local Abbreviation convertedArgument :=
  (convertedArgument fmtOther fmtExtra scope implements implDependentInt
     json_Marshal json_Unmarshal).
Local Abbreviation sendMessage := (sendMessage hostGlobal).
Local Abbreviation runProxy := (runProxy EncodeFunctionCall hostGlobal).
Local Abbreviation wexecBody :=
  (wexecBody fmtOther fmtExtra scope implements implDependentInt json_Marshal
     json_Unmarshal EncodeFunctionCall hostGlobal).
Local Abbreviation runWrapper :=
  (runWrapper fmtOther fmtExtra scope implements implDependentInt json_Marshal
     json_Unmarshal EncodeFunctionCall hostGlobal).

Lemma named_nonempty q n :
  firstName (DstField q) = Some n -> length (FNames (DstField q)) <> 0.
Proof.
  unfold firstName. intros H Hlen. apply nil_length_inv in Hlen.
  by rewrite Hlen in H.
Qed.

Lemma Sprintf_not_received n :
  percentFree n = true ->
  Sprintf (Sprintf "parameter '%s' is not in the received arguments" [VString n])
    []
  = "parameter '" +:+ n +:+ "' is not in the received arguments".
Proof.
  intros Hn.
  change (Sprintf "parameter '%s' is not in the received arguments" [VString n])
    with ("parameter '" +:+ n +:+ "' is not in the received arguments").
  rewrite <-(append_empty_r
               ("parameter '" +:+ n +:+ "' is not in the received arguments"))
    at 1.
  rewrite (Sprintf_literal fmtOther fmtExtra); [by rewrite append_empty_r|].
  apply (percentFree_append "parameter '"); [done|].
  by apply percentFree_append.
Qed.

Lemma Sprintf_not_made T err :
  percentFree T = true ->
  Sprintf (Sprintf "failed to make go type '%s' from js value: %%+v" [VString T])
    [err]
  = "failed to make go type '" +:+ T +:+ "' from js value: " +:+
    formatOperand fmtOther "+v" err.
Proof.
  intros HT.
  change (Sprintf "failed to make go type '%s' from js value: %%+v" [VString T])
    with ("failed to make go type '" +:+ T +:+ "' from js value: %+v").
  rewrite (Sprintf_literal fmtOther fmtExtra "failed to make go type '") by done.
  rewrite (Sprintf_literal fmtOther fmtExtra T) by done.
  simpl. by rewrite append_empty_r.
Qed.

(** The parts of the pair emitted for a catalog entry whose parameters
    are all named. *)
Lemma generateNewClientFunc_inv info fn w names :
  generateNewClientFunc info = Some (fn, w) ->
  paramNames (Params info) = Some names ->
  exists name steps,
    OriginalIdentifier info = Some name /\
    ProxyName fn = name /\ EncodeName fn = name /\
    (ProxyParams fn).*1 = map Some names /\
    EncodeArgs fn = map (fun n => (n, n)) names /\
    mapM (wrapperSteps fmtOther fmtExtra) (imap pair (Params info)) = Some steps /\
    WrapperBody w
    = [WCheckLen (length (Params info))
         ("expected " +:+ pretty (Z.of_nat (length (Params info))) +:+
          " arguments, got %d")] ++
      concat steps ++ [WReturnCall name names].
Proof.
  unfold Model.generateNewClientFunc, paramNames. intros H Hnames.
  destruct (OriginalIdentifier info) as [name|]; [|done].
  cbn [mbind option_bind] in H.
  destruct (mapM proxyParam (Params info)) as [pps|] eqn:Hpps; [|done].
  cbn [mbind option_bind] in H.
  destruct (mapM encodeArg (Params info)) as [encoded|] eqn:Henc; [|done].
  cbn [mbind option_bind] in H.
  destruct (mapM _ (imap pair (Params info))) as [steps|] eqn:Hsteps; [|done].
  cbn [mbind option_bind] in H.
  destruct (mapM wrapperOperand (Params info)) as [operands|] eqn:Hops; [|done].
  cbn [mbind option_bind] in H. simplify_eq.
  apply mapM_Some in Hnames.
  exists name, steps. cbn [ProxyName EncodeName ProxyParams EncodeArgs WrapperBody].
  split_and!; try done.
  - apply mapM_Some in Hpps. clear -Hpps Hnames.
    revert pps Hpps. induction Hnames as [|q n params names Hq _ IH];
      intros pps Hpps.
    + by apply Forall2_nil_inv_l in Hpps as ->.
    + inversion Hpps as [|? pp ? pps' Hpp Hpps']; subst.
      cbn [fmap list_fmap map]. rewrite (IH pps' Hpps').
      unfold proxyParam in Hpp.
      rewrite decide_False in Hpp by by eapply named_nonempty.
      rewrite Hq in Hpp. cbn [mbind option_bind] in Hpp.
      destruct (typeIdentName (DstField q)); by simplify_eq/=.
  - apply mapM_Some in Henc. clear -Henc Hnames.
    revert encoded Henc. induction Hnames as [|q n params names Hq _ IH];
      intros encoded Henc.
    + by apply Forall2_nil_inv_l in Henc as ->.
    + inversion Henc as [|? e ? encoded' He Henc']; subst.
      cbn [map]. rewrite (IH encoded' Henc').
      unfold encodeArg in He. rewrite Hq in He. by simplify_eq/=.
  - rewrite Sprintf_expected.
    assert (concat operands = names) as ->; [|done].
    apply mapM_Some in Hops. clear -Hops Hnames.
    revert operands Hops. induction Hnames as [|q n params names Hq _ IH];
      intros operands Hops.
    + by apply Forall2_nil_inv_l in Hops as ->.
    + inversion Hops as [|? o ? operands' Ho Hops']; subst.
      cbn [concat]. rewrite (IH operands' Hops').
      unfold wrapperOperand in Ho.
      rewrite decide_False in Ho by by eapply named_nonempty.
      rewrite Hq in Ho. by simplify_eq/=.
Qed.

Lemma wrapperSteps_named i q n T :
  firstName (DstField q) = Some n -> typeIdentName (DstField q) = Some T ->
  wrapperSteps fmtOther fmtExtra (i, q)
  = Some [WConvert (n +:+ "AsAny") i T;
          WCheckErr (Sprintf "failed to make go type '%s' from js value: %%+v"
                       [VString T]);
          WAssert n (n +:+ "AsAny") T;
          WCheckOk (Sprintf "parameter '%s' is not in the received arguments"
                      [VString n])].
Proof.
  intros Hn HT. unfold wrapperSteps. cbn [fst snd].
  rewrite decide_False by by eapply named_nonempty.
  by rewrite Hn, HT.
Qed.

Lemma convertedArgument_inv q v value :
  convertedArgument q v = Some value ->
  exists T t, typeIdentName (DstField q) = Some T /\ scope !! T = Some t /\
    jsValueToAny v t = (value, VNil) /\ assertType implements value t = true.
Proof.
  unfold Model.convertedArgument, typeOfParam. intros H.
  destruct (typeIdentName (DstField q)) as [T|]; [|done].
  cbn [mbind option_bind] in H.
  destruct (scope !! T) as [t|] eqn:Ht; [|done].
  cbn [mbind option_bind] in H.
  destruct (jsValueToAny v t) as [value' err] eqn:Hconv.
  destruct err; try done.
  destruct (assertType implements value' t) eqn:Hassert; [|done].
  simplify_eq. by eexists T, t.
Qed.

(** The statements of the parameters from position [k] on, when every
    argument converts to a value of the parameter's type, run to the state
    that holds the converted values. *)
Lemma steps_success program p params : forall k names vs steps rest m,
  paramNames params = Some names ->
  mapM (fun qv => convertedArgument qv.1 qv.2) (zip params (drop k p)) = Some vs ->
  k + length params <= length p ->
  mapM (wrapperSteps fmtOther fmtExtra) (imap (fun j q => (k + j, q)) params)
  = Some steps ->
  wexecBody program p (concat steps ++ rest) m
  = wexecBody program p rest (asserted m (zip names vs)).
Proof.
  induction params as [|q params IH];
    intros k names vs steps rest m Hnames Hconv Hlen Hsteps.
  - apply mapM_Some, Forall2_nil_inv_l in Hnames as ->.
    apply mapM_Some, Forall2_nil_inv_l in Hsteps as ->. done.
  - unfold paramNames in Hnames. apply mapM_Some in Hnames.
    inversion Hnames as [|? n ? names' Hn Hnames']; subst.
    apply mapM_Some in Hnames'.
    simpl in Hlen.
    destruct (lookup_lt_is_Some_2 p k) as [v Hv]; [lia|].
    rewrite (drop_S _ _ _ Hv) in Hconv. cbn [zip zip_with] in Hconv.
    apply mapM_Some in Hconv.
    inversion Hconv as [|? value ? vs' Hvalue Hconv']; subst.
    apply mapM_Some in Hconv'. cbn [fst snd] in Hvalue.
    destruct (convertedArgument_inv q v value Hvalue)
      as (T & t & HT & Ht & Hto & Hassert).
    rewrite imap_cons in Hsteps. apply mapM_Some in Hsteps.
    inversion Hsteps as [|? group ? steps' Hgroup Hsteps']; subst.
    apply mapM_Some in Hsteps'.
    replace (k + 0) with k in Hgroup by lia.
    rewrite (wrapperSteps_named k q n T Hn HT) in Hgroup. simplify_eq.
    cbn [concat]. rewrite <-(assoc_L (++)).
    rewrite (group_run fmtOther fmtExtra scope implements implDependentInt
               json_Marshal json_Unmarshal EncodeFunctionCall hostGlobal
               program p n k T t v _ m _ _ Ht Hv).
    rewrite Hto. cbn beta iota. rewrite Hassert.
    rewrite (IH (S k) names' vs' steps' rest _ Hnames' Hconv'); [done|lia|].
    rewrite <-Hsteps'. f_equal. apply imap_ext. intros j q' _.
    unfold compose. simpl. f_equal. lia.
Qed.

Lemma frame_lookup names : forall (pps : list (option string * string)) vs n v j,
  pps.*1 = map Some names -> NoDup names -> length vs = length names ->
  names !! j = Some n -> vs !! j = Some v ->
  snd <$> find (fun pv : option string * string * Value =>
                  bool_decide (pv.1.1 = Some n)) (zip pps vs)
  = Some v.
Proof.
  induction names as [|n0 names IH];
    intros pps vs n v j Hpps Hnd Hlen Hn Hv; [done|].
  destruct pps as [|[pn pt] pps]; [done|].
  destruct vs as [|v0 vs]; [done|].
  cbn [fmap list_fmap map fst] in Hpps. injection Hpps as -> Hpps.
  apply NoDup_cons in Hnd as [Hfresh Hnd].
  cbn [zip zip_with find fst snd].
  destruct j as [|j].
  - simplify_eq/=. by rewrite bool_decide_eq_true_2.
  - rewrite bool_decide_eq_false_2.
    + apply (IH pps vs n v j); try done. simpl in Hlen. lia.
    + intros [= ->]. apply Hfresh. by eapply list_elem_of_lookup_2.
Qed.

(** A call of the proxy emitted for a catalog entry. *)
Lemma runProxy_generated info fn w names vs :
  generateNewClientFunc info = Some (fn, w) ->
  paramNames (Params info) = Some names -> NoDup names ->
  length vs = length names ->
  runProxy fn vs
  = Some (let '(data, err) :=
            EncodeFunctionCall (ToIdentifierString info) (zip names vs) in
          match err with
          | VNil => sendMessage data
          | _ => (err, [])
          end).
Proof.
  intros Hgen Hnames Hnd Hlen.
  destruct (generateNewClientFunc_inv info fn w names Hgen Hnames)
    as (name & steps & Hname & _ & Hencname & Hpps & Hargs & _ & _).
  unfold ToIdentifierString. rewrite Hname.
  unfold Model.runProxy.
  assert (length (ProxyParams fn) = length names) as Hlenp.
  { by rewrite <-(length_fmap fst), Hpps, length_map. }
  rewrite decide_True by lia.
  assert (mapM (fun kx : string * string =>
                  v ← snd <$> find (fun pv : option string * string * Value =>
                                      bool_decide (pv.1.1 = Some kx.2))
                               (zip (ProxyParams fn) vs);
                  Some (kx.1, v)) (EncodeArgs fn)
          = Some (zip names vs)) as ->.
  { rewrite Hargs. apply mapM_Some, Forall2_fmap_l.
    apply Forall2_same_length_lookup_2; [by rewrite length_zip_with; lia|].
    intros i n [n' v] Hn Hnv.
    apply lookup_zip_with_Some in Hnv as (n'' & v' & [= -> ->] & Hn'' & Hv').
    rewrite Hn in Hn''. injection Hn'' as <-. unfold compose. cbn [fst snd].
    by rewrite (frame_lookup names (ProxyParams fn) vs n v' i). }
  cbn [mbind option_bind]. rewrite Hencname.
  destruct (EncodeFunctionCall name (zip names vs)) as [data err].
  by destruct err.
Qed.

(** X6: the native proxy called with one operand per parameter: the call is
    encoded under the original name with each operand keyed by the name of
    its parameter; an error of the encoder is returned and nothing is
    sent; without a sendMessage function on the host an error object is
    returned and nothing is sent; otherwise the payload is sent once and
    the proxy returns nil. *)
Theorem proxy_sends_the_call_keyed_by_parameter_names
    info fn w names vs data err :
  generateNewClientFunc info = Some (fn, w) ->
  paramNames (Params info) = Some names -> NoDup names ->
  length vs = length names ->
  EncodeFunctionCall (ToIdentifierString info) (zip names vs) = (data, err) ->
  (err <> VNil -> runProxy fn vs = Some (err, [])) /\
  (err = VNil -> JsValue_Type (hostGlobal "sendMessage") = TypeFunction ->
   runProxy fn vs = Some (VNil, [EvSend data])) /\
  (err = VNil -> JsValue_Type (hostGlobal "sendMessage") <> TypeFunction ->
   runProxy fn vs
   = Some (jsGlobalError "sendMessage is not a JS function", [])).
Proof.
  intros Hgen Hnames Hnd Hlen Hencode.
  rewrite (runProxy_generated info fn w names vs Hgen Hnames Hnd Hlen), Hencode.
  unfold Model.sendMessage. split_and!.
  - intros Herr. by destruct err.
  - intros -> ->. done.
  - intros -> Hhost. by destruct (JsValue_Type (hostGlobal "sendMessage")).
Qed.

(** X7: a wrapper called with one argument per parameter, each converting to
    a value of its parameter's type: the native proxy is called once with
    the converted values in the order of the parameters; when the encoder
    succeeds and the host has a sendMessage function, one payload is sent
    and the wrapper returns nil. *)
Theorem wrapper_forwards_the_converted_arguments
    info fn w program p names vs data :
  generateNewClientFunc info = Some (fn, w) ->
  findProxy program (ToIdentifierString info) = Some fn ->
  paramNames (Params info) = Some names ->
  NoDup names -> hygienic names = true ->
  length p = length (Params info) ->
  mapM (fun qv => convertedArgument qv.1 qv.2) (zip (Params info) p) = Some vs ->
  EncodeFunctionCall (ToIdentifierString info) (zip names vs) = (data, VNil) ->
  JsValue_Type (hostGlobal "sendMessage") = TypeFunction ->
  runWrapper program w p
  = WHalt VNil [EvCall (ToIdentifierString info) vs; EvSend data].
Proof.
  intros Hgen Hfind Hnames Hnd Hhyg Hlen Hconv Hencode Hhost.
  assert (length vs = length names) as Hlenvs.
  { apply length_mapM in Hconv. apply length_mapM in Hnames.
    rewrite length_zip_with in Hconv. lia. }
  assert (runProxy fn vs = Some (VNil, [EvSend data])) as Hsent.
  { rewrite (runProxy_generated info fn w names vs Hgen Hnames Hnd Hlenvs).
    rewrite Hencode. unfold Model.sendMessage. by rewrite Hhost. }
  destruct (generateNewClientFunc_inv info fn w names Hgen Hnames)
    as (name & steps & Hname & _ & _ & _ & _ & Hsteps & Hbody).
  unfold ToIdentifierString in *. rewrite Hname in *.
  unfold Model.runWrapper. rewrite Hbody.
  cbn [app Model.wexecBody wexec]. rewrite decide_True by done.
  rewrite (steps_success program p (Params info) 0 names vs steps); try done;
    [|lia].
  cbn [Model.wexecBody wexec]. rewrite Hfind.
  rewrite lookup_asserted by (done || lia).
  by rewrite Hsent.
Qed.

(** The run of a wrapper's parameter statements reaches those of the
    parameter at position [j] when the arguments before it convert. *)
Lemma steps_reach program p params : forall k j q n T vs steps rest m,
  is_Some (paramNames params) ->
  mapM (fun qv => convertedArgument qv.1 qv.2) (zip (take j params) (drop k p))
  = Some vs ->
  k + length params <= length p ->
  mapM (wrapperSteps fmtOther fmtExtra) (imap (fun j q => (k + j, q)) params)
  = Some steps ->
  params !! j = Some q -> firstName (DstField q) = Some n ->
  typeIdentName (DstField q) = Some T ->
  exists rest' m',
    wexecBody program p (concat steps ++ rest) m
    = wexecBody program p
        ([WConvert (n +:+ "AsAny") (k + j) T;
          WCheckErr (Sprintf "failed to make go type '%s' from js value: %%+v"
                       [VString T]);
          WAssert n (n +:+ "AsAny") T;
          WCheckOk (Sprintf "parameter '%s' is not in the received arguments"
                      [VString n])] ++ rest') m'.
Proof.
  induction params as [|q0 params IH];
    intros k j q n T vs steps rest m [names Hnames] Hconv Hlen Hsteps Hq Hn HT;
    [done|].
  unfold paramNames in Hnames. apply mapM_Some in Hnames.
  inversion Hnames as [|? n0 ? names' Hn0 Hnames']; subst.
  apply mapM_Some in Hnames'.
  rewrite imap_cons in Hsteps. apply mapM_Some in Hsteps.
  inversion Hsteps as [|? group ? steps' Hgroup Hsteps']; subst.
  apply mapM_Some in Hsteps'.
  rewrite (imap_ext _ (fun j q => (S k + j, q))) in Hsteps'
    by (intros; unfold compose; simpl; f_equal; lia).
  cbn [concat]. rewrite <-(assoc_L (++)).
  destruct j as [|j].
  - simplify_eq/=. rewrite (wrapperSteps_named (k + 0) q n T Hn HT) in Hgroup.
    simplify_eq. by eexists _, _.
  - simpl in Hq, Hlen.
    destruct (lookup_lt_is_Some_2 p k) as [v Hv]; [lia|].
    rewrite (drop_S _ _ _ Hv) in Hconv. cbn [take zip zip_with] in Hconv.
    apply mapM_Some in Hconv.
    inversion Hconv as [|? value ? vs' Hvalue Hconv']; subst.
    apply mapM_Some in Hconv'. cbn [fst snd] in Hvalue.
    destruct (convertedArgument_inv q0 v value Hvalue)
      as (T0 & t0 & HT0 & Ht0 & Hto & Hassert).
    replace (k + 0) with k in Hgroup by lia.
    rewrite (wrapperSteps_named k q0 n0 T0 Hn0 HT0) in Hgroup. simplify_eq.
    rewrite (group_run fmtOther fmtExtra scope implements implDependentInt
               json_Marshal json_Unmarshal EncodeFunctionCall hostGlobal
               program p n0 k T0 t0 v _ m _ _ Ht0 Hv).
    rewrite Hto. cbn beta iota. rewrite Hassert.
    replace (k + S j) with (S k + j) by lia.
    eapply (IH (S k) j q n T vs' steps'); try done; lia.
Qed.

(** The statements of the parameter at position [j] of a wrapper called
    with one argument per parameter, the arguments before it
    converting. *)
Lemma wrapper_reaches info fn w program p j q n T t v vs :
  generateNewClientFunc info = Some (fn, w) ->
  length p = length (Params info) ->
  mapM (fun qv => convertedArgument qv.1 qv.2) (zip (take j (Params info)) p)
  = Some vs ->
  Params info !! j = Some q -> firstName (DstField q) = Some n ->
  typeIdentName (DstField q) = Some T -> scope !! T = Some t ->
  p !! j = Some v ->
  runWrapper program w p
  = match jsValueToAny v t with
    | (value, VNil) =>
        if assertType implements value t
        then runWrapper program w p
        else WHalt (jsGlobalError
                      (Sprintf (Sprintf "parameter '%s' is not in the received arguments"
                                  [VString n]) [])) []
    | (_, err) =>
        WHalt (jsGlobalError
                 (Sprintf (Sprintf "failed to make go type '%s' from js value: %%+v"
                             [VString T]) [err])) []
    end.
Proof.
  intros Hgen Hlen Hconv Hq Hn HT Ht Hv.
  destruct (jsValueToAny v t) as [value err] eqn:Hto.
  assert (is_Some (paramNames (Params info))) as Hnamed.
  { destruct (wrapper_body fmtOther fmtExtra info fn w Hgen)
      as (steps & operands & name & _ & _ & Henc & _).
    unfold paramNames. apply mapM_is_Some, Forall_forall. intros q' Hq'.
    assert (Forall (is_Some ∘ encodeArg) (Params info)) as Hall
      by (apply mapM_is_Some_1; by eexists).
    rewrite Forall_forall in Hall. specialize (Hall q' Hq').
    unfold encodeArg, compose in Hall. unfold compose.
    destruct (firstName (DstField q')); [by eexists|by destruct Hall]. }
  destruct Hnamed as [names Hnames].
  destruct (generateNewClientFunc_inv info fn w names Hgen Hnames)
    as (name & steps & _ & _ & _ & _ & _ & Hsteps & Hbody).
  destruct (steps_reach program p (Params info) 0 j q n T vs steps
              [WReturnCall name names] ∅) as (rest' & m' & Hreach);
    try done; try lia; try by eexists.
  assert (runWrapper program w p
          = wexecBody program p
              ([WConvert (n +:+ "AsAny") (0 + j) T;
                WCheckErr (Sprintf "failed to make go type '%s' from js value: %%+v"
                             [VString T]);
                WAssert n (n +:+ "AsAny") T;
                WCheckOk (Sprintf "parameter '%s' is not in the received arguments"
                            [VString n])] ++ rest') m') as Hrun.
  { unfold Model.runWrapper. rewrite Hbody.
    cbn [app Model.wexecBody wexec]. rewrite decide_True by done.
    exact Hreach. }
  destruct err;
    try (rewrite Hrun,
           (group_run fmtOther fmtExtra scope implements implDependentInt
              json_Marshal json_Unmarshal EncodeFunctionCall hostGlobal
              program p n (0 + j) T t v _ m' _ _ Ht Hv), Hto; done).
  destruct (assertType implements value t) eqn:Hassert; [done|].
  rewrite Hrun,
    (group_run fmtOther fmtExtra scope implements implDependentInt
       json_Marshal json_Unmarshal EncodeFunctionCall hostGlobal
       program p n (0 + j) T t v _ m' _ _ Ht Hv), Hto.
  cbn beta iota. by rewrite Hassert.
Qed.

(** X8: an argument that converts without error to a value of another type
    than its parameter's: the wrapper returns the error object saying the
    parameter is not in the received arguments, and calls nothing. *)
Theorem argument_of_another_type_is_refused
    info fn w program p j q n T t v value vs :
  generateNewClientFunc info = Some (fn, w) ->
  length p = length (Params info) ->
  mapM (fun qv => convertedArgument qv.1 qv.2) (zip (take j (Params info)) p)
  = Some vs ->
  Params info !! j = Some q -> firstName (DstField q) = Some n ->
  percentFree n = true ->
  typeIdentName (DstField q) = Some T -> scope !! T = Some t ->
  p !! j = Some v ->
  jsValueToAny v t = (value, VNil) -> assertType implements value t = false ->
  runWrapper program w p
  = WHalt (jsGlobalError
             ("parameter '" +:+ n +:+ "' is not in the received arguments")) [].
Proof.
  intros Hgen Hlen Hconv Hq Hn Hfree HT Ht Hv Hto Hassert.
  rewrite (wrapper_reaches info fn w program p j q n T t v vs); try done.
  rewrite Hto, Hassert. by rewrite Sprintf_not_received.
Qed.

(** X9: an argument whose conversion gives an error: the wrapper returns an
    error object that names the parameter's type and shows the error, and
    calls nothing. *)
Theorem argument_that_does_not_convert_is_refused
    info fn w program p j q n T t v value err vs :
  generateNewClientFunc info = Some (fn, w) ->
  length p = length (Params info) ->
  mapM (fun qv => convertedArgument qv.1 qv.2) (zip (take j (Params info)) p)
  = Some vs ->
  Params info !! j = Some q -> firstName (DstField q) = Some n ->
  typeIdentName (DstField q) = Some T -> percentFree T = true ->
  scope !! T = Some t -> p !! j = Some v ->
  jsValueToAny v t = (value, err) -> err <> VNil ->
  runWrapper program w p
  = WHalt (jsGlobalError
             ("failed to make go type '" +:+ T +:+ "' from js value: " +:+
              formatOperand fmtOther "+v" err)) [].
Proof.
  intros Hgen Hlen Hconv Hq Hn HT Hfree Ht Hv Hto Herr.
  rewrite (wrapper_reaches info fn w program p j q n T t v vs); try done.
  rewrite Hto. destruct err; try done; by rewrite Sprintf_not_made.
Qed.

(** X10: null and undefined convert to the nil interface, which no type
    assertion accepts: the wrapper refuses them for a parameter of any
    type. *)
Theorem null_and_undefined_are_refused_for_every_parameter
    info fn w program p j q n T t v vs :
  generateNewClientFunc info = Some (fn, w) ->
  length p = length (Params info) ->
  mapM (fun qv => convertedArgument qv.1 qv.2) (zip (take j (Params info)) p)
  = Some vs ->
  Params info !! j = Some q -> firstName (DstField q) = Some n ->
  percentFree n = true ->
  typeIdentName (DstField q) = Some T -> scope !! T = Some t ->
  p !! j = Some v -> v = JsNull \/ v = JsUndefined ->
  runWrapper program w p
  = WHalt (jsGlobalError
             ("parameter '" +:+ n +:+ "' is not in the received arguments")) [].
Proof.
  intros Hgen Hlen Hconv Hq Hn Hfree HT Ht Hv Hnull.
  rewrite (wrapper_reaches info fn w program p j q n T t v vs); try done.
  assert (jsValueToAny v t = (VNil, VNil)) as -> by by destruct Hnull as [->| ->].
  assert (assertType implements VNil t = false) as ->.
  { unfold assertType. by case_decide. }
  by rewrite Sprintf_not_received.
Qed.

(** ** The conversion routine on objects *)

Lemma JsValue_nested_ind (P : JsValue -> Prop) :
  P JsUndefined -> P JsNull -> (forall b, P (JsBoolean b)) ->
  (forall f, P (JsNumber f)) -> (forall s, P (JsString s)) ->
  (forall d, P (JsSymbol d)) ->
  (forall props, Forall (fun kv => P kv.2) props -> P (JsObject props)) ->
  (forall msg, P (JsErrorObject msg)) -> (forall i, P (JsFunction i)) ->
  forall v, P v.
Proof.
  intros Hu Hn Hb Hf Hs Hy Ho He Hfn.
  fix IH 1. intros [| |b|f|s|d|props|msg|i].
  - exact Hu.
  - exact Hn.
  - apply Hb.
  - apply Hf.
  - apply Hs.
  - apply Hy.
  - apply Ho. induction props as [|[k v] props IHprops]; constructor.
    + apply IH.
    + exact IHprops.
  - apply He.
  - apply Hfn.
Qed.

Lemma jsValueToAny_object props t :
  jsValueToAny (JsObject props) t
  = match fillProperties (fun v => jsValueToAny v anyType) props [] with
    | inl result =>
        throughJSON fmtOther fmtExtra json_Marshal json_Unmarshal result t
    | inr err => (VNil, err)
    end.
Proof.
  cbn [Model.jsValueToAny]. generalize (@nil (string * Value)).
  induction props as [|[k v] props IH]; intros result; [done|].
  cbn [fillProperties]. destruct (jsValueToAny v anyType) as [value err].
  destruct err; done.
Qed.

Lemma throughJSON_value_or_error result t value err :
  throughJSON fmtOther fmtExtra json_Marshal json_Unmarshal result t
  = (value, err) ->
  err <> VNil -> value = VNil /\ exists message, err = jsGlobalError message.
Proof.
  unfold throughJSON. intros H Herr.
  destruct (json_Marshal result) as [jsonData e1].
  destruct e1;
    try (simplify_eq; split; [done|by eexists]).
  destruct (json_Unmarshal jsonData t) as [targetValue e2].
  destruct e2; simplify_eq; try done; split; try done; by eexists.
Qed.

(** X11: whatever the bridge value and the target type, the conversion routine
    returns a nil value with every error, and every error it returns is an
    Error object of the host. *)
Theorem conversion_returns_a_value_or_an_error_object v :
  forall t value err,
    jsValueToAny v t = (value, err) -> err <> VNil ->
    value = VNil /\ exists message, err = jsGlobalError message.
Proof.
  induction v as [| |b|f|s|d|props IH|msg|i] using JsValue_nested_ind;
    intros t value err H Herr;
    try (cbn [Model.jsValueToAny] in H;
         first [by simplify_eq
               | by destruct (kindOf t); simplify_eq
               | by eapply throughJSON_value_or_error
               | simplify_eq; split; [done|by eexists] ]).
  rewrite jsValueToAny_object in H.
  destruct (fillProperties _ props []) as [result|e] eqn:Hfill.
  { by eapply throughJSON_value_or_error. }
  simplify_eq. split; [done|].
  clear Herr. revert Hfill. generalize (@nil (string * Value)).
  induction IH as [|[k v] props Hv _ IHprops]; intros result Hfill; [done|].
  cbn [fillProperties snd] in *.
  destruct (jsValueToAny v anyType) as [value e] eqn:Hconv.
  destruct e;
    try (simplify_eq;
         by destruct (Hv anyType value _ Hconv) as [_ Hmsg]).
  by eapply IHprops.
Qed.

Lemma assocSet_fresh {A} key (a : A) l :
  key ∉ l.*1 -> assocSet key a l = l ++ [(key, a)].
Proof.
  induction l as [|[k b] l IH]; intros Hfresh; [done|].
  cbn [fmap list_fmap fst] in Hfresh. apply not_elem_of_cons in Hfresh as [Hne Hfresh].
  simpl. rewrite decide_False by done. by rewrite IH.
Qed.

Lemma scalar_conversion v value :
  scalar v = Some value -> jsValueToAny v anyType = (value, VNil).
Proof. destruct v; intros H; by simplify_eq/=. Qed.

Lemma fillProperties_scalars props : forall values result,
  mapM (fun kv : string * JsValue => v ← scalar kv.2; Some (kv.1, v)) props
  = Some values ->
  NoDup (result.*1 ++ props.*1) ->
  fillProperties (fun v => jsValueToAny v anyType) props result
  = inl (result ++ values).
Proof.
  induction props as [|[k v] props IH]; intros values result Hvalues Hnd.
  - apply mapM_Some, Forall2_nil_inv_l in Hvalues as ->.
    by rewrite app_nil_r.
  - apply mapM_Some in Hvalues.
    inversion Hvalues as [|? kv ? values' Hkv Hvalues']; subst.
    apply mapM_Some in Hvalues'. cbn [fst snd] in Hkv.
    destruct (scalar v) as [value|] eqn:Hscalar; [|done].
    cbn [mbind option_bind] in Hkv. simplify_eq.
    cbn [fillProperties]. rewrite (scalar_conversion v value Hscalar).
    cbn [fmap list_fmap fst] in Hnd.
    rewrite assocSet_fresh.
    + rewrite (IH values' _ Hvalues').
      * by rewrite <-(assoc_L (++)).
      * rewrite fmap_app. cbn [fmap list_fmap fst].
        by rewrite <-(assoc_L (++)).
    + apply NoDup_app in Hnd as (_ & Hdis & _).
      intros Hk. apply (Hdis k Hk). by left.
Qed.

(** X12: an object whose properties hold no object and no symbol goes through
    JSON as the map of its properties, each converted against the empty
    interface: a number as a float64, whatever the target type declares
    for it. *)
Theorem object_of_scalars_goes_through_json props values t :
  mapM (fun kv : string * JsValue => v ← scalar kv.2; Some (kv.1, v)) props
  = Some values ->
  NoDup props.*1 ->
  jsValueToAny (JsObject props) t
  = throughJSON fmtOther fmtExtra json_Marshal json_Unmarshal values t.
Proof.
  intros Hvalues Hnd. rewrite jsValueToAny_object.
  by rewrite (fillProperties_scalars props values []).
Qed.

End ClientRun.

(** The proxy of Sum called with 2 and 3, the encoder succeeding and the
    host offering sendMessage. *)
Lemma proxy_sends_the_call_witness :
  runProxy plainEncode plainHost (stubOf sampleFile 0).1 [VInt Int 2; VInt Int 3]
  = Some (VNil, [EvSend []]).
Proof.
  edestruct (proxy_sends_the_call_keyed_by_parameter_names plainOther
               plainExtra plainEncode plainHost (entryOf sampleFile 0)
               (stubOf sampleFile 0).1 (stubOf sampleFile 0).2 ["a"; "b"]
               [VInt Int 2; VInt Int 3] [] VNil) as (_ & Hsent & _);
    [reflexivity | reflexivity | | reflexivity | reflexivity
    | apply Hsent; reflexivity].
  apply (bool_decide_unpack _). by vm_compute.
Defined.

(** The wrapper of Sum called with the numbers 2 and 3. *)
Lemma wrapper_forwards_witness :
  runWrapper plainOther plainExtra predeclared plainImplements saturate
    plainMarshal plainUnmarshal plainEncode plainHost (clientProgram sampleFile)
    (stubOf sampleFile 0).2 [JsNumber two; JsNumber three]
  = WHalt VNil [EvCall "Sum" [VInt Int 2; VInt Int 3]; EvSend []].
Proof.
  eapply (wrapper_forwards_the_converted_arguments plainOther plainExtra
            predeclared plainImplements saturate plainMarshal plainUnmarshal
            plainEncode plainHost (entryOf sampleFile 0)
            (stubOf sampleFile 0).1 (stubOf sampleFile 0).2
            (clientProgram sampleFile) [JsNumber two; JsNumber three]
            ["a"; "b"] [VInt Int 2; VInt Int 3] []);
    try reflexivity.
  apply (bool_decide_unpack _). by vm_compute.
Defined.

(** The wrapper of Greet called with a boolean. *)
Lemma argument_of_another_type_witness :
  runWrapper plainOther plainExtra predeclared plainImplements saturate
    plainMarshal plainUnmarshal plainEncode plainHost (clientProgram sampleFile)
    (stubOf sampleFile 1).2 [JsBoolean true]
  = WHalt (jsGlobalError "parameter 'name' is not in the received arguments") [].
Proof.
  eapply (argument_of_another_type_is_refused plainOther plainExtra
            predeclared plainImplements saturate plainMarshal plainUnmarshal
            plainEncode plainHost (entryOf sampleFile 1)
            (stubOf sampleFile 1).1 (stubOf sampleFile 1).2
            (clientProgram sampleFile) [JsBoolean true] 0 _ "name" "string"
            (TBasic String') (JsBoolean true) (VBool true) []);
    reflexivity.
Defined.

(** The wrapper of Greet called with a symbol. *)
Lemma argument_that_does_not_convert_witness :
  runWrapper plainOther plainExtra predeclared plainImplements saturate
    plainMarshal plainUnmarshal plainEncode plainHost (clientProgram sampleFile)
    (stubOf sampleFile 1).2 [JsSymbol "tag"]
  = WHalt (jsGlobalError
             ("failed to make go type 'string' from js value: " +:+
              plainOther "+v"
                (jsGlobalError "unsupported js value type: symbol"))) [].
Proof.
  eapply (argument_that_does_not_convert_is_refused plainOther plainExtra
            predeclared plainImplements saturate plainMarshal plainUnmarshal
            plainEncode plainHost (entryOf sampleFile 1)
            (stubOf sampleFile 1).1 (stubOf sampleFile 1).2
            (clientProgram sampleFile) [JsSymbol "tag"] 0 _ "name" "string"
            (TBasic String') (JsSymbol "tag") VNil
            (jsGlobalError "unsupported js value type: symbol") []);
    try reflexivity.
  discriminate.
Defined.

(** The wrapper of Greet called with null. *)
Lemma null_is_refused_witness :
  runWrapper plainOther plainExtra predeclared plainImplements saturate
    plainMarshal plainUnmarshal plainEncode plainHost (clientProgram sampleFile)
    (stubOf sampleFile 1).2 [JsNull]
  = WHalt (jsGlobalError "parameter 'name' is not in the received arguments") [].
Proof.
  eapply (null_and_undefined_are_refused_for_every_parameter plainOther
            plainExtra predeclared plainImplements saturate plainMarshal
            plainUnmarshal plainEncode plainHost (entryOf sampleFile 1)
            (stubOf sampleFile 1).1 (stubOf sampleFile 1).2
            (clientProgram sampleFile) [JsNull] 0 _ "name" "string"
            (TBasic String') JsNull []);
    try reflexivity.
  by left.
Defined.

(** An object with a symbol among its properties. *)
Lemma conversion_error_witness :
  (jsValueToAny plainOther plainExtra saturate plainMarshal plainUnmarshal
     (JsObject [("a", JsNumber two); ("b", JsSymbol "tag")]) (TBasic Int)).1
  = VNil /\
  exists message,
    (jsValueToAny plainOther plainExtra saturate plainMarshal plainUnmarshal
       (JsObject [("a", JsNumber two); ("b", JsSymbol "tag")]) (TBasic Int)).2
    = jsGlobalError message.
Proof.
  apply (conversion_returns_a_value_or_an_error_object plainOther plainExtra
           saturate plainMarshal plainUnmarshal
           (JsObject [("a", JsNumber two); ("b", JsSymbol "tag")]) (TBasic Int)).
  - reflexivity.
  - discriminate.
Defined.

(** The object {A: 2, B: "x"} converted against CalcInput. *)
Lemma object_of_scalars_witness :
  jsValueToAny plainOther plainExtra saturate plainMarshal plainUnmarshal
    (JsObject [("A", JsNumber two); ("B", JsString "x")])
    (TStruct "CalcInput" [("A", TBasic Int); ("B", TBasic Int)])
  = throughJSON plainOther plainExtra plainMarshal plainUnmarshal
      [("A", VFloat Float64 two); ("B", VString "x")]
      (TStruct "CalcInput" [("A", TBasic Int); ("B", TBasic Int)]).
Proof.
  apply (object_of_scalars_goes_through_json plainOther plainExtra saturate
           plainMarshal plainUnmarshal).
  - reflexivity.
  - apply (bool_decide_unpack _). by vm_compute.
Defined.

(** ** The layout of the output *)

Section LayoutFacts.

Variable IsExported : string -> bool.
Variable fmtOther : string -> Value -> string.
Variable fmtExtra : list Value -> string.
Variable renderedImports : list Generated -> list Spec.

Local Abbreviation Sprintf := (Sprintf fmtOther fmtExtra).
Local Abbreviation run := (run IsExported fmtOther fmtExtra renderedImports).
Local Abbreviation writeCombinedTreeAndGenerated :=
  (writeCombinedTreeAndGenerated fmtOther fmtExtra renderedImports).
Local Abbreviation modifyOriginalFunctions :=
  (modifyOriginalFunctions IsExported fmtOther fmtExtra).
Local Abbreviation decorated := (decorated renderedImports).
Local Abbreviation extractFuncInfo := (extractFuncInfo IsExported).
Local Abbreviation generateServerReceiver :=
  (generateServerReceiver fmtOther fmtExtra).
Local Abbreviation clientFragments := (clientFragments fmtOther fmtExtra).

Lemma writeCombined_parts now1 now2 tree generated genType :
  ArtifactName (writeCombinedTreeAndGenerated now1 now2 tree generated genType)
  = (if decide (genType = SERVER) then PackageName tree
     else if decide (genType = CLIENT) then "main" else PackageName tree) /\
  FilePrefix (writeCombinedTreeAndGenerated now1 now2 tree generated genType)
  = (if decide (genType = SERVER) then ""
     else if decide (genType = CLIENT)
          then "//go:build js && wasm && client" +:+ newline
          else "") +:+
    Sprintf headerFormat [VString (formatDate now1); VString (formatClock now2)] /\
  Combined (writeCombinedTreeAndGenerated now1 now2 tree generated genType)
  = Original
      (if decide (genType = SERVER)
       then GenDecl IMPORT (importSpecs (map Original (Decls tree)) ++
                            importSpecs (decorated generated))
       else GenDecl IMPORT (importSpecs (decorated generated))) ::
    List.filter (fun x => negb (isImport x))
      (map Original (Decls tree) ++ decorated generated).
Proof.
  split_and!; unfold Model.writeCombinedTreeAndGenerated;
    cbv beta iota zeta delta [ArtifactName FilePrefix Combined]; reflexivity.
Qed.

Lemma importSpecs_originals ds :
  importSpecs (map Original ds)
  = flat_map (fun d => match d with GenDecl IMPORT specs => specs | _ => [] end) ds.
Proof.
  induction ds as [|d ds IH]; [done|]. simpl. rewrite <-IH.
  by destruct d as [|[] ?|].
Qed.

Lemma importSpecs_decorated generated :
  importSpecs (decorated generated) = renderedImports generated.
Proof.
  unfold Model.decorated, importSpecs. rewrite flat_map_app.
  assert (flat_map (fun item => match item with
                                | Original (GenDecl IMPORT specs) => specs
                                | _ => []
                                end) (map Emitted generated) = []) as ->.
  { by induction generated. }
  rewrite app_nil_r. destruct (renderedImports generated); [done|].
  simpl. by rewrite app_nil_r.
Qed.

Lemma filter_originals ds :
  List.filter (fun x => negb (isImport x)) (map Original ds)
  = map Original (List.filter (fun d => negb (isImportDecl d)) ds).
Proof.
  induction ds as [|d ds IH]; [done|]. simpl. rewrite IH.
  by destruct d as [|[] ?|].
Qed.

Lemma filter_decorated generated :
  List.filter (fun x => negb (isImport x)) (decorated generated)
  = map Emitted generated.
Proof.
  unfold Model.decorated. rewrite List.filter_app.
  assert (List.filter (fun x => negb (isImport x)) (map Emitted generated)
          = map Emitted generated) as ->.
  { induction generated as [|g gs IH]; [done|]. simpl. by rewrite IH. }
  by destruct (renderedImports generated).
Qed.

Lemma writeCombined_layout now1 now2 tree generated genType :
  Combined (writeCombinedTreeAndGenerated now1 now2 tree generated genType)
  = Original
      (GenDecl IMPORT
         ((if decide (genType = SERVER) then sourceImports tree else []) ++
          renderedImports generated)) ::
    map Original (List.filter (fun d => negb (isImportDecl d)) (Decls tree)) ++
    map Emitted generated.
Proof.
  destruct (writeCombined_parts now1 now2 tree generated genType)
    as (_ & _ & ->).
  rewrite List.filter_app, filter_originals, filter_decorated.
  rewrite importSpecs_originals, importSpecs_decorated.
  by case_decide.
Qed.

Lemma modified_imports tree :
  sourceImports (modifyOriginalFunctions tree) = sourceImports tree.
Proof.
  unfold sourceImports, Model.modifyOriginalFunctions. cbn [Decls].
  induction (Decls tree) as [|d ds IH]; [done|].
  cbn [map flat_map]. rewrite IH. destruct d as [fn| |]; try done.
  by destruct (IsExported (FuncName fn)).
Qed.

(** X13: the server output: the package name of the input, the provenance
    header with no build constraint before it, one import declaration
    that merges the imports of the input with those of the generated
    code, then the declarations of the input in their order with the
    exported functions renamed, then the dispatcher. *)
Theorem server_output_layout now1 now2 tree server :
  run now1 now2 tree SERVER = Some server ->
  exists r,
    generateServerReceiver (extractFuncInfo tree (extractTypeMap tree)) = Some r /\
    ArtifactName server = PackageName tree /\
    FilePrefix server
    = Sprintf headerFormat [VString (formatDate now1); VString (formatClock now2)] /\
    Combined server
    = Original (GenDecl IMPORT
                  (sourceImports tree ++ renderedImports [GReceiver r])) ::
      map Original (List.filter (fun d => negb (isImportDecl d))
                      (Decls (modifyOriginalFunctions tree))) ++
      [Emitted (GReceiver r)].
Proof.
  unfold Model.run. rewrite decide_True by done. intros H.
  destruct (generateServerReceiver _) as [r|] eqn:Hr; [|done].
  cbn [mbind option_bind] in H. injection H as <-.
  exists r. split; [done|].
  destruct (writeCombined_parts now1 now2 (modifyOriginalFunctions tree)
              [GReceiver r] SERVER) as (-> & -> & _).
  rewrite writeCombined_layout, modified_imports.
  rewrite !decide_True by done. done.
Qed.

(** X14: the client output: the package main, the build constraint before the
    provenance header, one import declaration that holds the imports of
    the generated code only, then the declarations of the input that are
    neither imports nor functions, in their order, then the fragments. *)
Theorem client_output_layout now1 now2 tree client :
  run now1 now2 tree CLIENT = Some client ->
  exists fragments,
    clientFragments (extractFuncInfo tree (extractTypeMap tree)) = Some fragments /\
    ArtifactName client = "main" /\
    FilePrefix client
    = "//go:build js && wasm && client" +:+ newline +:+
      Sprintf headerFormat [VString (formatDate now1); VString (formatClock now2)] /\
    Combined client
    = Original (GenDecl IMPORT (renderedImports fragments)) ::
      map Original (List.filter
                      (fun d => negb (isImportDecl d) && negb (isFuncDecl d))
                      (Decls tree)) ++
      map Emitted fragments.
Proof.
  unfold Model.run. rewrite decide_False by done. rewrite decide_True by done.
  intros H.
  destruct (clientFragments _) as [fragments|] eqn:Hf; [|done].
  cbn [mbind option_bind] in H. injection H as <-.
  exists fragments. split; [done|].
  destruct (writeCombined_parts now1 now2
              (removeOriginalAndUnexportedFunctions tree) fragments CLIENT)
    as (-> & -> & _).
  rewrite writeCombined_layout.
  rewrite decide_False by done. rewrite !decide_True by done.
  split_and!;
    [done
    |generalize (Sprintf headerFormat
                   [VString (formatDate now1); VString (formatClock now2)]);
     intros header; apply append_assoc|].
  cbn [app]. do 3 f_equal.
  unfold removeOriginalAndUnexportedFunctions. cbn [Decls].
  induction (Decls tree) as [|d ds IH]; [done|].
  simpl. destruct d as [fn|[] specs|]; simpl; by rewrite ?IH.
Qed.

Lemma run_server now1 now2 tree server :
  run now1 now2 tree SERVER = Some server ->
  exists r,
    generateServerReceiver (extractFuncInfo tree (extractTypeMap tree)) = Some r /\
    server = writeCombinedTreeAndGenerated now1 now2
               (modifyOriginalFunctions tree) [GReceiver r] SERVER.
Proof.
  unfold Model.run. rewrite decide_True by done. intros H.
  destruct (generateServerReceiver _) as [r|] eqn:Hr; [|done].
  cbn [mbind option_bind] in H. injection H as <-. by exists r.
Qed.

Lemma run_client now1 now2 tree client :
  run now1 now2 tree CLIENT = Some client ->
  exists stubs regs,
    mapM (generateNewClientFunc fmtOther fmtExtra)
      (extractFuncInfo tree (extractTypeMap tree)) = Some stubs /\
    mapM (registration fmtOther fmtExtra)
      (extractFuncInfo tree (extractTypeMap tree)) = Some regs /\
    client = writeCombinedTreeAndGenerated now1 now2
               (removeOriginalAndUnexportedFunctions tree)
               ([GJsValueToAny] ++
                flat_map (fun stub => [GProxy stub.1; GWrapper stub.2]) stubs ++
                [GSendMessage; GClientMain regs]) CLIENT.
Proof.
  unfold Model.run. rewrite decide_False by done. rewrite decide_True by done.
  unfold Model.clientFragments, generateClientMain. intros H.
  destruct (mapM (generateNewClientFunc fmtOther fmtExtra) _) as [stubs|];
    [|done].
  cbn [mbind option_bind] in H.
  destruct (mapM (registration fmtOther fmtExtra) _) as [regs|]; [|done].
  cbn [mbind option_bind] in H. injection H as <-. by exists stubs, regs.
Qed.

Lemma joinTypes_from (types : list string) : forall k (l : list string) agg,
  k + length l = length types ->
  fold_left (fun agg (it : nat * string) =>
    agg +:+ it.2 +:+
    (if (Z.of_nat it.1 <? Z.of_nat (length types) - 1)%Z then ", " else ""))
    (imap (fun i t => (k + i, t)) l) agg
  = agg +:+ String.concat ", " l.
Proof.
  intros k l. revert k. induction l as [|t l IH]; intros k agg Hlen.
  - simpl. by rewrite append_empty_r.
  - rewrite imap_cons. cbn [fold_left fst snd].
    rewrite (imap_ext _ (fun i t => (S k + i, t)))
      by (intros; unfold compose; simpl; f_equal; lia).
    simpl in Hlen. rewrite IH by lia.
    replace (k + 0) with k by lia.
    destruct l as [|t' l].
    + simpl in Hlen. rewrite (proj2 (Z.ltb_ge _ _)) by lia.
      simpl. by rewrite !append_empty_r.
    + simpl in Hlen. rewrite (proj2 (Z.ltb_lt _ _)) by lia.
      cbn [String.concat]. by rewrite !append_assoc.
Qed.

Lemma joinTypes_concat types : joinTypes types = String.concat ", " types.
Proof.
  unfold joinTypes.
  rewrite (imap_ext pair (fun i t => (0 + i, t))) by done.
  by rewrite (joinTypes_from types 0 types "").
Qed.

Lemma paramInfos_typeNames typeMap fn types :
  mapM (fun item => typeIdentName (DstField item))
    (paramInfos typeMap (Params_ fn)) = Some types ->
  types = paramTypeNames fn.
Proof.
  unfold paramInfos, paramTypeNames.
  destruct (Params_ fn) as [fields|].
  2:{ intros H. by apply mapM_Some, Forall2_nil_inv_l in H. }
  change (default [] (Some fields)) with fields.
  revert types. induction fields as [|f fields IH]; intros types H.
  { by apply mapM_Some, Forall2_nil_inv_l in H. }
  cbn [flat_map] in *. apply mapM_Some in H.
  apply Forall2_app_inv_l in H as (ts1 & ts2 & H1 & H2 & ->).
  apply mapM_Some in H2. rewrite <-(IH ts2 H2). f_equal.
  clear -H1. revert ts1 H1.
  induction (Names f) as [|n names IHn]; intros ts1 H1.
  - apply Forall2_nil_inv_l in H1 as ->. by destruct (Type' f).
  - cbn [map] in H1. inversion H1 as [|? t ? ts1' Ht H1']; subst.
    specialize (IHn ts1' H1'). unfold typeIdentName in Ht. cbn [DstField FType] in Ht.
    destruct (Type' f) as [T| |]; simplify_eq. done.
Qed.

Lemma Sprintf_registered name types :
  Sprintf "AGROWS: '%s(%s)' function registered" [VString name; VString types]
  = "AGROWS: '" +:+ name +:+ "(" +:+ types +:+ ")' function registered".
Proof. reflexivity. Qed.

Lemma registration_inv typeMap fn reg :
  registration fmtOther fmtExtra (funcInfoOf typeMap fn) = Some reg ->
  reg = {| GlobalName := FuncName fn;
           Registered := FuncName fn +:+ "Wrapper";
           Message := registeredMessage fn |}.
Proof.
  unfold registration. cbn [funcInfoOf OriginalIdentifier Params mbind option_bind].
  intros H.
  destruct (mapM _ (paramInfos typeMap (Params_ fn))) as [types|] eqn:Htypes;
    [|done].
  cbn [mbind option_bind] in H. simplify_eq.
  rewrite (paramInfos_typeNames typeMap fn types Htypes).
  by rewrite Sprintf_registered, joinTypes_concat.
Qed.

Lemma emitted_fragments now1 now2 tree generated genType :
  flat_map (fun d => match d with
                     | Emitted (GClientMain rs) => rs
                     | _ => []
                     end)
    (Combined (writeCombinedTreeAndGenerated now1 now2 tree generated genType))
  = flat_map (fun g => match g with GClientMain rs => rs | _ => [] end) generated.
Proof.
  rewrite writeCombined_layout. cbn [flat_map app].
  rewrite flat_map_app.
  assert (forall ds, flat_map (fun d => match d with
                                        | Emitted (GClientMain rs) => rs
                                        | _ => []
                                        end) (map Original ds) = []) as ->.
  { by induction ds. }
  cbn [app]. induction generated as [|g gs IH]; [done|].
  cbn [map flat_map]. by rewrite IH.
Qed.

(** X15: in the client output, the main function comes last and registers, in
    the order of the input, each exported function under its own name
    with the bridge wrapper emitted for it, printing the function's name
    and the type names of its parameters joined by a comma and a
    space. *)
Theorem every_wrapper_is_registered_under_the_name_of_its_function
    now1 now2 tree client :
  run now1 now2 tree CLIENT = Some client ->
  last (Combined client) = Some (Emitted (GClientMain (registrations client))) /\
  map GlobalName (registrations client) = map ProxyName (proxies client) /\
  map Registered (registrations client) = map WrapperName (wrappers client) /\
  map Message (registrations client)
  = map registeredMessage (exportedFunctions IsExported tree).
Proof.
  intros Hrun.
  destruct (run_client now1 now2 tree client Hrun)
    as (stubs & regs & Hstubs & Hregs & ->).
  assert (registrations
            (writeCombinedTreeAndGenerated now1 now2
               (removeOriginalAndUnexportedFunctions tree)
               ([GJsValueToAny] ++
                flat_map (fun stub => [GProxy stub.1; GWrapper stub.2]) stubs ++
                [GSendMessage; GClientMain regs]) CLIENT) = regs) as Hmain.
  { unfold registrations. rewrite emitted_fragments.
    cbn [app flat_map]. rewrite flat_map_app. cbn [flat_map].
    rewrite !app_nil_r.
    assert (flat_map (fun g => match g with GClientMain rs => rs | _ => [] end)
              (flat_map (fun stub : Proxy * Wrapper =>
                           [GProxy stub.1; GWrapper stub.2]) stubs) = []) as ->.
    { clear. induction stubs as [|stub stubs IH]; [done|]. simpl. exact IH. }
    done. }
  assert (proxies
            (writeCombinedTreeAndGenerated now1 now2
               (removeOriginalAndUnexportedFunctions tree)
               ([GJsValueToAny] ++
                flat_map (fun stub => [GProxy stub.1; GWrapper stub.2]) stubs ++
                [GSendMessage; GClientMain regs]) CLIENT) = map fst stubs)
    as Hproxies.
  { unfold proxies.
    rewrite (combined_emitted fmtOther fmtExtra renderedImports) by done.
    apply proxies_of_stubs. intros g Hg.
    repeat (apply elem_of_cons in Hg as [->|Hg]; [done|]).
    by apply elem_of_nil in Hg. }
  assert (wrappers
            (writeCombinedTreeAndGenerated now1 now2
               (removeOriginalAndUnexportedFunctions tree)
               ([GJsValueToAny] ++
                flat_map (fun stub => [GProxy stub.1; GWrapper stub.2]) stubs ++
                [GSendMessage; GClientMain regs]) CLIENT) = map snd stubs)
    as Hwrappers.
  { unfold wrappers.
    rewrite (combined_emitted fmtOther fmtExtra renderedImports) by done.
    apply wrappers_of_stubs. intros g Hg.
    repeat (apply elem_of_cons in Hg as [->|Hg]; [done|]).
    by apply elem_of_nil in Hg. }
  rewrite Hmain, Hproxies, Hwrappers.
  rewrite extractFuncInfo_functions in Hstubs, Hregs.
  apply mapM_Some, Forall2_fmap_l in Hstubs.
  apply mapM_Some, Forall2_fmap_l in Hregs.
  split_and!.
  - rewrite writeCombined_layout.
    rewrite last_cons, last_app, map_app, last_app, map_app, last_app. done.
  - rewrite map_map.
    assert (map GlobalName regs
            = map FuncName (exportedFunctions IsExported tree)) as ->.
    { clear -Hregs. induction Hregs as [|fn reg fns regs Hreg _ IH]; [done|].
      unfold compose in Hreg. apply registration_inv in Hreg as ->.
      cbn [map GlobalName]. by rewrite IH. }
    clear -Hstubs. induction Hstubs as [|fn [p w] fns stubs Hstub _ IH]; [done|].
    unfold compose in Hstub.
    apply generateNewClientFunc_names in Hstub as (name & Hname & Hp & _ & _).
    cbn [funcInfoOf OriginalIdentifier] in Hname. injection Hname as <-.
    cbn [map fst]. by rewrite IH, Hp.
  - rewrite map_map.
    assert (map Registered regs
            = map (fun fn => FuncName fn +:+ "Wrapper")
                (exportedFunctions IsExported tree)) as ->.
    { clear -Hregs. induction Hregs as [|fn reg fns regs Hreg _ IH]; [done|].
      unfold compose in Hreg. apply registration_inv in Hreg as ->.
      cbn [map Registered]. by rewrite IH. }
    clear -Hstubs. induction Hstubs as [|fn [p w] fns stubs Hstub _ IH]; [done|].
    unfold compose in Hstub.
    apply generateNewClientFunc_names in Hstub as (name & Hname & _ & _ & Hw).
    cbn [funcInfoOf OriginalIdentifier] in Hname. injection Hname as <-.
    cbn [map snd]. by rewrite IH, Hw.
  - clear -Hregs. induction Hregs as [|fn reg fns regs Hreg _ IH]; [done|].
    unfold compose in Hreg. apply registration_inv in Hreg as ->.
    cbn [map Message]. by rewrite IH.
Qed.

(** ** When the generators panic *)

Lemma forallb_Forall_iff {A} (f : A -> bool) l :
  forallb f l = true <-> Forall (fun x => f x = true) l.
Proof.
  induction l as [|x l IH]; simpl; [by split; constructor|].
  by rewrite andb_true_iff, Forall_cons, IH.
Qed.

Lemma paramInfos_ready typeMap fields :
  Forall namedAndTyped (paramInfos typeMap fields)
  <-> forallb (fun f => isIdent (Type' f) || bool_decide (Names f = []))
        (default [] fields) = true.
Proof.
  unfold paramInfos. destruct fields as [fields|]; [|done].
  change (default [] (Some fields)) with fields.
  induction fields as [|f fields IH]; [done|].
  cbn [flat_map forallb]. rewrite Forall_app, andb_true_iff, IH.
  apply and_iff_compat_r. rewrite Forall_fmap. split.
  - intros Hall. destruct (Names f) as [|n names]; [by rewrite orb_true_r|].
    apply Forall_cons in Hall as [[_ [T HT]] _].
    unfold typeIdentName in HT. cbn in HT.
    by destruct (Type' f).
  - intros Hf. apply Forall_forall. intros n Hn. split; [by eexists|].
    unfold compose, typeIdentName. cbn.
    apply orb_true_iff in Hf as [Hf|Hf].
    + destruct (Type' f); try done; by eexists.
    + apply bool_decide_eq_true in Hf. rewrite Hf in Hn.
      by apply elem_of_nil in Hn.
Qed.

Lemma resultInfos_ready typeMap fields :
  is_Some (typeNames (resultInfos typeMap fields))
  <-> forallb (fun f => isIdent (Type' f)) (default [] fields) = true.
Proof.
  unfold typeNames. rewrite mapM_is_Some.
  unfold resultInfos. destruct fields as [fields|]; [|done].
  change (default [] (Some fields)) with fields.
  rewrite Forall_fmap, forallb_forall, Forall_forall.
  split; intros H f Hf.
  - apply list_elem_of_In in Hf. specialize (H f Hf).
    unfold compose, typeIdentName in H. cbn in H.
    destruct (Type' f); try done; by destruct H.
  - apply list_elem_of_In in Hf. specialize (H f Hf).
    unfold compose, typeIdentName. cbn.
    destruct (Type' f); try done; by eexists.
Qed.

Lemma replyPart_typed name fnInfo :
  is_Some (replyPart fmtOther fmtExtra name fnInfo) ->
  is_Some (typeNames (Results fnInfo)).
Proof.
  unfold replyPart. intros [reply H].
  destruct (mapM callOperand (Params fnInfo)) as [operands|]; [|done].
  cbn [mbind option_bind] in H.
  case_decide as Hlen.
  { apply nil_length_inv in Hlen. rewrite Hlen. by eexists. }
  rewrite resultVars_spec in H.
  destruct (typeNames (Results fnInfo)); [by eexists|done].
Qed.

Lemma decodePart_typed fnInfo :
  is_Some (decodePart fnInfo) -> Forall namedAndTyped (Params fnInfo).
Proof.
  intros [decode H].
  destruct (decodePart_parts fnInfo decode H) as (defs & decodes & Hdecs & _).
  apply mapM_Some in Hdecs. apply Forall_forall. intros q Hq.
  apply list_elem_of_lookup in Hq as [i Hq].
  destruct (Forall2_lookup_l _ _ _ _ _ Hdecs Hq) as (d & _ & Hd).
  destruct (paramDecode_named q d Hd) as (n & T & Hn & HT).
  split; by eexists.
Qed.

Lemma dispatchCase_ready typeMap fn :
  is_Some (dispatchCase fmtOther fmtExtra (funcInfoOf typeMap fn))
  <-> serverReady fn = true.
Proof.
  unfold serverReady, clientReady.
  rewrite andb_true_iff, <-(paramInfos_ready typeMap),
    <-(resultInfos_ready typeMap).
  split.
  - intros [c Hc].
    destruct (dispatchCase_parts fmtOther fmtExtra _ c Hc)
      as (name & decode & reply & _ & Hdecode & Hreply & _).
    split.
    + apply (decodePart_typed (funcInfoOf typeMap fn)). by eexists.
    + apply (replyPart_typed name (funcInfoOf typeMap fn)). by eexists.
  - intros [Hparams Hresults]. by eapply dispatchCase_total.
Qed.

Lemma generateNewClientFunc_ready typeMap fn :
  is_Some (generateNewClientFunc fmtOther fmtExtra (funcInfoOf typeMap fn))
  <-> clientReady fn = true.
Proof.
  unfold clientReady. rewrite <-(paramInfos_ready typeMap). split.
  - intros [[p w] H]. unfold Model.generateNewClientFunc in H.
    cbn [funcInfoOf OriginalIdentifier Params mbind option_bind] in H.
    destruct (mapM proxyParam _) as [pps|] eqn:Hpps; [|done].
    cbn [mbind option_bind] in H.
    destruct (mapM encodeArg _) as [encoded|] eqn:Henc; [|done].
    apply mapM_Some in Hpps. apply mapM_Some in Henc.
    apply Forall_forall. intros q Hq.
    apply list_elem_of_lookup in Hq as [i Hq].
    destruct (Forall2_lookup_l _ _ _ _ _ Hpps Hq) as (pp & _ & Hpp).
    destruct (Forall2_lookup_l _ _ _ _ _ Henc Hq) as (e & _ & He).
    unfold encodeArg in He. unfold proxyParam in Hpp. unfold namedAndTyped.
    destruct (firstName (DstField q)) as [n|]; [|done].
    split; [by eexists|].
    case_decide; destruct (typeIdentName (DstField q)); try done; by eexists.
  - intros Hparams. by eapply generateNewClientFunc_total.
Qed.

Lemma registration_ready typeMap fn :
  clientReady fn = true ->
  is_Some (registration fmtOther fmtExtra (funcInfoOf typeMap fn)).
Proof.
  unfold clientReady. rewrite <-(paramInfos_ready typeMap).
  intros Hparams. by eapply registration_total.
Qed.

(** X16: on the catalog of a file, the generator of the dispatcher returns (it
    does not panic) exactly when every named parameter and every result
    of every exported function has an identifier for type; the generators
    of the client output exactly when every named parameter has (a
    pointer, a slice, a qualified name, ... is no identifier). *)
Theorem the_generators_panic_exactly_on_types_that_are_no_identifiers tree :
  (is_Some (generateServerReceiver
              (extractFuncInfo tree (extractTypeMap tree)))
   <-> forallb serverReady (exportedFunctions IsExported tree) = true) /\
  (is_Some (clientFragments (extractFuncInfo tree (extractTypeMap tree)))
   <-> forallb clientReady (exportedFunctions IsExported tree) = true).
Proof.
  rewrite extractFuncInfo_functions. split.
  - unfold Model.generateServerReceiver. rewrite forallb_Forall_iff. split.
    + intros [r H].
      destruct (mapM (dispatchCase fmtOther fmtExtra) _) as [cs|] eqn:Hcs;
        [|done].
      assert (is_Some (mapM (dispatchCase fmtOther fmtExtra)
                         (map (funcInfoOf (extractTypeMap tree))
                            (exportedFunctions IsExported tree))))
        as Hsome by by eexists.
      rewrite mapM_is_Some, Forall_fmap in Hsome.
      eapply Forall_impl; [exact Hsome|].
      intros fn Hfn. by apply (dispatchCase_ready (extractTypeMap tree)).
    + intros Hready.
      assert (is_Some (mapM (dispatchCase fmtOther fmtExtra)
                         (map (funcInfoOf (extractTypeMap tree))
                            (exportedFunctions IsExported tree))))
        as [cs ->].
      { rewrite mapM_is_Some, Forall_fmap.
        eapply Forall_impl; [exact Hready|].
        intros fn Hfn. by apply (dispatchCase_ready (extractTypeMap tree)). }
      by eexists.
  - unfold Model.clientFragments, generateClientMain.
    rewrite forallb_Forall_iff. split.
    + intros [fragments H].
      destruct (mapM (generateNewClientFunc fmtOther fmtExtra) _)
        as [stubs|] eqn:Hstubs; [|done].
      assert (is_Some (mapM (generateNewClientFunc fmtOther fmtExtra)
                         (map (funcInfoOf (extractTypeMap tree))
                            (exportedFunctions IsExported tree))))
        as Hsome by by eexists.
      rewrite mapM_is_Some, Forall_fmap in Hsome.
      eapply Forall_impl; [exact Hsome|].
      intros fn Hfn. by apply (generateNewClientFunc_ready (extractTypeMap tree)).
    + intros Hready.
      assert (is_Some (mapM (generateNewClientFunc fmtOther fmtExtra)
                         (map (funcInfoOf (extractTypeMap tree))
                            (exportedFunctions IsExported tree))))
        as [stubs ->].
      { rewrite mapM_is_Some, Forall_fmap.
        eapply Forall_impl; [exact Hready|].
        intros fn Hfn.
        by apply (generateNewClientFunc_ready (extractTypeMap tree)). }
      assert (is_Some (mapM (registration fmtOther fmtExtra)
                         (map (funcInfoOf (extractTypeMap tree))
                            (exportedFunctions IsExported tree))))
        as [regs ->].
      { rewrite mapM_is_Some, Forall_fmap.
        eapply Forall_impl; [exact Hready|].
        intros fn Hfn. by apply registration_ready. }
      by eexists.
Qed.

(** ** The renamed implementations *)

Lemma replyPart_called name fnInfo reply :
  replyPart fmtOther fmtExtra name fnInfo = Some reply ->
  flat_map called reply = ["agrows_" +:+ name].
Proof.
  unfold replyPart. rewrite Sprintf_modified. intros H.
  destruct (mapM callOperand (Params fnInfo)) as [operands|]; [|done].
  cbn [mbind option_bind] in H.
  case_decide; [by simplify_eq|].
  destruct (resultVars (Results fnInfo)) as [[[fe fs] vn]|]; [|done].
  cbn [mbind option_bind] in H.
  repeat case_decide; simplify_option_eq; done.
Qed.

Lemma silent_called body :
  Forall (fun s => silent s = true) body -> flat_map called body = [].
Proof.
  induction 1 as [|s body Hs _ IH]; [done|].
  simpl. rewrite IH. by destruct s.
Qed.

Lemma dispatchCase_called typeMap fn c :
  dispatchCase fmtOther fmtExtra (funcInfoOf typeMap fn) = Some c ->
  CaseKey c = FuncName fn /\
  flat_map called (CaseBody c) = ["agrows_" +:+ FuncName fn].
Proof.
  intros Hc.
  destruct (dispatchCase_parts fmtOther fmtExtra _ c Hc)
    as (name & decode & reply & Hname & Hdecode & Hreply & ->).
  cbn [funcInfoOf OriginalIdentifier] in Hname. injection Hname as <-.
  split; [done|]. cbn [CaseBody]. rewrite flat_map_app.
  rewrite (silent_called decode) by by eapply decodePart_silent.
  by rewrite (replyPart_called _ _ _ Hreply).
Qed.

Lemma modified_exported tree fn :
  fn ∈ exportedFunctions IsExported tree ->
  FuncDecl (renamed fn) ∈ Decls (modifyOriginalFunctions tree).
Proof.
  unfold exportedFunctions, Model.modifyOriginalFunctions. cbn [Decls].
  intros Hfn. apply list_elem_of_In, in_flat_map in Hfn as (d & Hd & Hfn).
  apply list_elem_of_In in Hd.
  destruct d as [fn'| |]; try by apply in_nil in Hfn.
  destruct (IsExported (FuncName fn')) eqn:Hexp; [|by apply in_nil in Hfn].
  destruct Hfn as [->|[]].
  apply list_elem_of_fmap. exists (FuncDecl fn). split; [|done].
  rewrite Hexp, Sprintf_modified. done.
Qed.

(** X17: in the server output every case of the dispatcher, in the order of
    the exported functions of the input, is keyed by the name of its
    function and makes one call, of the function named agrows_ followed by
    that name; and the output declares that function: the declaration of
    the input under the new name, otherwise unchanged. *)
Theorem every_case_calls_the_renamed_function_of_its_key now1 now2 tree server :
  run now1 now2 tree SERVER = Some server ->
  Forall2 (fun c fn =>
             CaseKey c = FuncName fn /\
             flat_map called (CaseBody c) = ["agrows_" +:+ FuncName fn])
    (switchCases server) (exportedFunctions IsExported tree) /\
  forall fn, fn ∈ exportedFunctions IsExported tree ->
    FuncDecl (renamed fn) ∈ originals (Combined server).
Proof.
  intros Hrun.
  destruct (run_server now1 now2 tree server Hrun) as (r & Hr & ->).
  split.
  - assert (switchCases
              (writeCombinedTreeAndGenerated now1 now2
                 (modifyOriginalFunctions tree) [GReceiver r] SERVER)
            = Cases r) as ->.
    { unfold switchCases.
      rewrite (combined_emitted fmtOther fmtExtra renderedImports) by done.
      simpl. by rewrite app_nil_r. }
    apply cases_of_infos in Hr. rewrite extractFuncInfo_functions in Hr.
    apply Forall2_fmap_l in Hr. apply Forall2_flip.
    eapply Forall2_impl; [exact Hr|].
    intros fn c Hc. by apply (dispatchCase_called (extractTypeMap tree)).
  - intros fn Hfn. rewrite writeCombined_layout.
    unfold originals. cbn [flat_map]. apply elem_of_app. right.
    rewrite flat_map_app. apply elem_of_app. left.
    apply list_elem_of_In, in_flat_map.
    exists (Original (FuncDecl (renamed fn))). split; [|by left].
    apply list_elem_of_In, list_elem_of_fmap. eexists. split; [done|].
    apply list_elem_of_In, filter_In. split; [|done].
    by apply list_elem_of_In, modified_exported.
Qed.

(** X18: given that no name that starts with agrows_ is exported (an
    identifier is exported when its first letter is upper case), the
    renaming leaves no exported function in the tree and is idempotent. *)
Theorem renaming_leaves_no_exported_function tree :
  (forall n, IsExported ("agrows_" +:+ n) = false) ->
  exportedFunctions IsExported (modifyOriginalFunctions tree) = [] /\
  modifyOriginalFunctions (modifyOriginalFunctions tree)
  = modifyOriginalFunctions tree /\
  length (Decls (modifyOriginalFunctions tree)) = length (Decls tree).
Proof.
  intros Hnot. unfold exportedFunctions, Model.modifyOriginalFunctions.
  cbn [Decls PackageName]. split_and!.
  - induction (Decls tree) as [|d ds IH]; [done|].
    cbn [map flat_map]. rewrite IH, app_nil_r.
    destruct d as [fn| |]; try done.
    destruct (IsExported (FuncName fn)) eqn:Hexp; cbn [FuncName].
    + by rewrite Sprintf_modified, Hnot.
    + by rewrite Hexp.
  - f_equal. rewrite map_map. apply map_ext. intros [fn| |]; try done.
    destruct (IsExported (FuncName fn)) eqn:Hexp; cbn [FuncName].
    + by rewrite Sprintf_modified, Hnot.
    + by rewrite Hexp.
  - by rewrite length_map.
Qed.

End LayoutFacts.

(** The renaming on the sample file, whose exported functions start with
    an ASCII capital. *)
Lemma renaming_witness :
  exportedFunctions asciiExported
    (modifyOriginalFunctions asciiExported plainOther plainExtra sampleFile) = [] /\
  modifyOriginalFunctions asciiExported plainOther plainExtra
    (modifyOriginalFunctions asciiExported plainOther plainExtra sampleFile)
  = modifyOriginalFunctions asciiExported plainOther plainExtra sampleFile /\
  length (Decls (modifyOriginalFunctions asciiExported plainOther plainExtra
                   sampleFile))
  = length (Decls sampleFile).
Proof.
  apply (renaming_leaves_no_exported_function asciiExported plainOther
           plainExtra sampleFile).
  intros n. reflexivity.
Defined.

(** The server output of the sample file. *)
Lemma server_output_layout_witness :
  exists r,
    generateServerReceiver plainOther plainExtra
      (extractFuncInfo asciiExported sampleFile (extractTypeMap sampleFile))
    = Some r /\
    ArtifactName (outputOf sampleFile SERVER) = PackageName sampleFile /\
    FilePrefix (outputOf sampleFile SERVER)
    = Sprintf plainOther plainExtra headerFormat
        [VString (formatDate stamp); VString (formatClock stamp)] /\
    Combined (outputOf sampleFile SERVER)
    = Original (GenDecl IMPORT
                  (sourceImports sampleFile ++ noImports [GReceiver r])) ::
      map Original
        (List.filter (fun d => negb (isImportDecl d))
           (Decls (modifyOriginalFunctions asciiExported plainOther plainExtra
                     sampleFile))) ++
      [Emitted (GReceiver r)].
Proof.
  apply (server_output_layout asciiExported plainOther plainExtra noImports
           stamp stamp sampleFile (outputOf sampleFile SERVER)).
  by vm_compute.
Defined.

(** The client output of the sample file. *)
Lemma client_output_layout_witness :
  exists fragments,
    clientFragments plainOther plainExtra
      (extractFuncInfo asciiExported sampleFile (extractTypeMap sampleFile))
    = Some fragments /\
    ArtifactName (outputOf sampleFile CLIENT) = "main" /\
    FilePrefix (outputOf sampleFile CLIENT)
    = "//go:build js && wasm && client" +:+ newline +:+
      Sprintf plainOther plainExtra headerFormat
        [VString (formatDate stamp); VString (formatClock stamp)] /\
    Combined (outputOf sampleFile CLIENT)
    = Original (GenDecl IMPORT (noImports fragments)) ::
      map Original
        (List.filter (fun d => negb (isImportDecl d) && negb (isFuncDecl d))
           (Decls sampleFile)) ++
      map Emitted fragments.
Proof.
  apply (client_output_layout asciiExported plainOther plainExtra noImports
           stamp stamp sampleFile (outputOf sampleFile CLIENT)).
  by vm_compute.
Defined.

(** The registrations of the client output of the sample file. *)
Lemma every_wrapper_is_registered_witness :
  last (Combined (outputOf sampleFile CLIENT))
  = Some (Emitted (GClientMain (registrations (outputOf sampleFile CLIENT)))) /\
  map GlobalName (registrations (outputOf sampleFile CLIENT))
  = map ProxyName (proxies (outputOf sampleFile CLIENT)) /\
  map Registered (registrations (outputOf sampleFile CLIENT))
  = map WrapperName (wrappers (outputOf sampleFile CLIENT)) /\
  map Message (registrations (outputOf sampleFile CLIENT))
  = map registeredMessage (exportedFunctions asciiExported sampleFile).
Proof.
  apply (every_wrapper_is_registered_under_the_name_of_its_function
           asciiExported plainOther plainExtra noImports stamp stamp sampleFile
           (outputOf sampleFile CLIENT)).
  by vm_compute.
Defined.

(** The cases of the server output of the sample file. *)
Lemma every_case_calls_the_renamed_function_witness :
  Forall2 (fun c fn =>
             CaseKey c = FuncName fn /\
             flat_map called (CaseBody c) = ["agrows_" +:+ FuncName fn])
    (switchCases (outputOf sampleFile SERVER))
    (exportedFunctions asciiExported sampleFile) /\
  forall fn, fn ∈ exportedFunctions asciiExported sampleFile ->
    FuncDecl (renamed fn) ∈ originals (Combined (outputOf sampleFile SERVER)).
Proof.
  apply (every_case_calls_the_renamed_function_of_its_key asciiExported
           plainOther plainExtra noImports stamp stamp sampleFile
           (outputOf sampleFile SERVER)).
  by vm_compute.
Defined.

(** ** The type map *)

Lemma lastDeclared_cons name x types :
  lastDeclared name (x :: types)
  = match lastDeclared name types with
    | Some e => Some e
    | None => if decide (x.1 = name) then Some x.2 else None
    end.
Proof.
  unfold lastDeclared. cbn [List.filter].
  destruct (decide (x.1 = name)) as [Heq|Hne].
  - rewrite bool_decide_eq_true_2 by done. rewrite last_cons.
    by destruct (last _).
  - rewrite bool_decide_eq_false_2 by done. by destruct (last _).
Qed.

Lemma recordTypes_lookup types : forall typeMap name,
  recordTypes typeMap types !! name
  = match lastDeclared name types with
    | Some e => Some e
    | None => typeMap !! name
    end.
Proof.
  induction types as [|x types IH]; intros typeMap name; [done|].
  unfold recordTypes in *. cbn [fold_left]. rewrite IH, lastDeclared_cons.
  destruct (lastDeclared name types); [done|].
  destruct (decide (x.1 = name)) as [<-|Hne].
  - by rewrite lookup_insert_eq.
  - by rewrite lookup_insert_ne.
Qed.

Lemma recordTypes_app typeMap a b :
  recordTypes (recordTypes typeMap a) b = recordTypes typeMap (a ++ b).
Proof. unfold recordTypes. by rewrite fold_left_app. Qed.

Lemma recordSpec_types specs : forall typeMap,
  fold_left recordSpec specs typeMap
  = recordTypes typeMap (flat_map typesOfSpec specs).
Proof.
  induction specs as [|spec specs IH]; intros typeMap; [done|].
  cbn [fold_left flat_map]. rewrite IH, <-recordTypes_app.
  by destruct spec.
Qed.

Lemma extractTypeMap_declared node :
  extractTypeMap node = recordTypes ∅ (declaredTypes node).
Proof.
  unfold extractTypeMap, declaredTypes. generalize (∅ : gmap string Expr).
  induction (Decls node) as [|decl decls IH]; intros typeMap; [done|].
  cbn [fold_left flat_map]. rewrite IH, <-recordTypes_app. f_equal.
  destruct decl as [fn|tok specs|]; try done.
  by rewrite recordSpec_types, recordTypes_app.
Qed.

(** X19: the type map gives a name the type of its last declaration in the
    order of the walk, declarations inside function bodies included; and
    a type name is classified as a struct exactly when that last
    declaration is an inline struct type (a name declared as another
    named struct type is not). *)
Theorem type_map_holds_the_last_declaration_of_each_name node name :
  extractTypeMap node !! name = lastDeclared name (declaredTypes node) /\
  (isStruct (extractTypeMap node) (Ident name) = true
   <-> exists fields,
         lastDeclared name (declaredTypes node) = Some (StructType fields)).
Proof.
  assert (extractTypeMap node !! name = lastDeclared name (declaredTypes node))
    as Hlookup.
  { rewrite extractTypeMap_declared, recordTypes_lookup.
    by destruct (lastDeclared name (declaredTypes node)). }
  split; [done|]. unfold isStruct. rewrite Hlookup.
  destruct (lastDeclared name (declaredTypes node)) as [[T|fields|text]|];
    split; try done; try (intros [fields' Hf]; done).
  intros _. by eexists.
Qed.

(** ** The debug rendering *)

Section RenderingFacts.

Variable fmtOther : string -> Value -> string.
Variable fmtExtra : list Value -> string.

Lemma rendered_params typeMap fields :
  is_Some (mapM (ParamReflectInfo_String fmtOther fmtExtra)
             (paramInfos typeMap fields)).
Proof.
  apply mapM_is_Some, Forall_forall. intros q Hq.
  unfold paramInfos in Hq. destruct fields as [fields|];
    [|by apply elem_of_nil in Hq].
  apply list_elem_of_In, in_flat_map in Hq as (f & _ & Hq).
  apply in_map_iff in Hq as (n & <- & _).
  unfold compose, ParamReflectInfo_String. cbn. by eexists.
Qed.

Lemma rendered_results typeMap fields :
  is_Some (mapM (ParamReflectInfo_String fmtOther fmtExtra)
             (resultInfos typeMap fields))
  <-> forallb (fun f => isIdent (Type' f) || negb (bool_decide (Names f = [])))
        (default [] fields) = true.
Proof.
  rewrite mapM_is_Some. unfold resultInfos.
  destruct fields as [fields|]; [|done].
  change (default [] (Some fields)) with fields.
  rewrite Forall_fmap.
  induction fields as [|f fields IH]; [done|].
  cbn [forallb]. rewrite Forall_cons, andb_true_iff, IH.
  apply and_iff_compat_r.
  unfold compose, ParamReflectInfo_String, typeIdentName. cbn.
  destruct (Names f) as [|n names]; cbn.
  - destruct (Type' f); cbn; split; try done; try (by intros [? ?]);
      intros _; by eexists.
  - rewrite orb_true_r. split; [done|]. intros _. by eexists.
Qed.

(** X20: the rendering of a catalog entry never panics on a parameter; it
    panics exactly when a result without a name has a type that is no
    identifier. *)
Theorem rendering_panics_exactly_on_unnamed_results_of_other_types typeMap fn :
  is_Some (FuncInfo_String fmtOther fmtExtra (funcInfoOf typeMap fn))
  <-> printable fn = true.
Proof.
  unfold printable. rewrite <-(rendered_results typeMap).
  unfold FuncInfo_String. cbn [funcInfoOf Params Results].
  destruct (rendered_params typeMap (Params_ fn)) as [params ->].
  cbn [mbind option_bind].
  destruct (mapM _ (resultInfos typeMap (Results_ fn))) as [results|];
    cbn [mbind option_bind]; split; intros [x Hx]; try done; by eexists.
Qed.

End RenderingFacts.

(** ** The earlier revision of the catalog *)

Lemma NumFields_from (l : list Field) : forall k,
  fold_left (fun n f =>
    match Names f with
    | [] => n + 1
    | names => n + length names
    end) l k
  = k + length (flat_map (fun f =>
                  match Names f with
                  | [] => [f]
                  | names => map (fun _ => f) names
                  end) l).
Proof.
  induction l as [|f l IH]; intros k; [simpl; lia|].
  cbn [fold_left flat_map]. rewrite IH, length_app.
  destruct (Names f) as [|n names]; [simpl; lia|].
  rewrite length_map. lia.
Qed.

(** X21: the catalog of the earlier revision keeps, for every exported
    function, one result entry per declared result: one for each name of
    a group, and one for a result without a name. *)
Theorem earlier_catalog_keeps_every_declared_result IsExported tree :
  map (fun info => length (Earlier.Results info))
    (Earlier.extractFuncInfo IsExported tree)
  = map (fun fn => NumFields (Results_ fn)) (exportedFunctions IsExported tree) /\
  map Earlier.OriginalIdentifier (Earlier.extractFuncInfo IsExported tree)
  = map FuncName (exportedFunctions IsExported tree).
Proof.
  unfold Earlier.extractFuncInfo, exportedFunctions.
  induction (Decls tree) as [|decl decls [IH1 IH2]]; [done|].
  cbn [flat_map]. rewrite !map_app, IH1, IH2.
  destruct decl as [fn| |]; try done.
  destruct (IsExported (FuncName fn)); [|done].
  cbn [map app Earlier.Results Earlier.OriginalIdentifier]. split; [|done].
  f_equal. unfold NumFields. destruct (Results_ fn) as [l|]; [|done].
  rewrite NumFields_from. cbn [Nat.add].
  induction l as [|f l IHl]; [done|].
  cbn [flat_map]. rewrite !length_app, IHl. f_equal.
  destruct (Names f); [done|]. simpl. by rewrite !length_map.
Qed.

(** ** What a call of the dispatcher can call *)

Section CallFacts.

Variable fmtOther : string -> Value -> string.
Variable fmtExtra : list Value -> string.
Variable IsExported : string -> bool.
Variable scope : gmap string GoType.
Variable implements : Value -> TypeId -> bool.
Variable implementation : string -> option (list Value -> list Value).
Variable DecodeFunctionCall :
  list Byte.byte -> string * gmap string Argument * Value.

Local Abbreviation dispatchCase := (dispatchCase fmtOther fmtExtra).
Local Abbreviation generateServerReceiver :=
  (generateServerReceiver fmtOther fmtExtra).
Local Abbreviation generateNewClientFunc :=
  (generateNewClientFunc fmtOther fmtExtra).
Local Abbreviation exec :=
  (exec fmtOther fmtExtra IsExported scope implements implementation).
Local Abbreviation execBody :=
  (execBody fmtOther fmtExtra IsExported scope implements implementation).
Local Abbreviation AgrowsReceive :=
  (AgrowsReceive fmtOther fmtExtra IsExported scope implements implementation
     DecodeFunctionCall).

Lemma setField_halt_calls st x key v st' o :
  setField scope implements st x key v = Halt st' o -> calls st' = calls st.
Proof.
  unfold setField. intros H.
  repeat case_match; by simplify_eq.
Qed.

Lemma copyFields_halt_calls keys : forall st target source st' o,
  copyFields IsExported scope implements st target source keys = Halt st' o ->
  calls st' = calls st.
Proof.
  induction keys as [|key keys IH]; intros st target source st' o H; [done|].
  cbn [copyFields] in H.
  destruct (reflected st source) as [[]|]; try by simplify_eq.
  destruct (canSet IsExported target key); [|by eapply IH].
  destruct (assoc key fields) as [v|]; [|by simplify_eq].
  destruct target as [| |x]; try by simplify_eq.
  destruct (setField scope implements st x key v) as [st1|st1 o1|] eqn:Hset;
    [|simplify_eq; by eapply setField_halt_calls|done].
  rewrite (IH _ _ _ _ _ H). by eapply setField_calls.
Qed.

Lemma exec_halt_calls args s st st' o :
  exec args s st = Halt st' o -> calls st' = calls st.
Proof.
  destruct s; cbn [Model.exec]; intros H;
    try (repeat case_match; by simplify_eq).
  repeat case_match; simplify_eq; try done.
  by eapply copyFields_halt_calls.
Qed.

Lemma exec_next_calls args s st st' :
  exec args s st = Next st' ->
  exists extra, calls st' = calls st ++ extra /\ map fst extra = called s.
Proof.
  destruct (silent s) eqn:Hsilent.
  - intros H. exists []. rewrite app_nil_r. split.
    + by eapply exec_silent.
    + by destruct s.
  - destruct s; try done; cbn [Model.exec]; intros H;
      repeat case_match; simplify_eq; by eexists [_].
Qed.

(** The calls a body makes before it ends: of the functions its call
    statements name, in their order, up to the statement that ends it. *)
Lemma execBody_calls args body : forall st st' o,
  execBody args body st = Halt st' o ->
  exists extra,
    calls st' = calls st ++ extra /\
    map fst extra `prefix_of` flat_map called body.
Proof.
  induction body as [|s body IH]; intros st st' o H; [done|].
  cbn [Model.execBody] in H.
  destruct (exec args s st) as [st1|st1 o1|] eqn:Hs; [| |done].
  - destruct (exec_next_calls args s st st1 Hs) as (e1 & He1 & Hcalled).
    destruct (IH st1 st' o H) as (e2 & He2 & Hprefix).
    exists (e1 ++ e2). split.
    + by rewrite He2, He1, (assoc_L (++)).
    + rewrite map_app, Hcalled. cbn [flat_map]. by apply prefix_app.
  - simplify_eq. exists []. rewrite app_nil_r. split.
    + by eapply exec_halt_calls.
    + apply prefix_nil.
Qed.

Lemma dispatchCase_calls fnInfo c :
  dispatchCase fnInfo = Some c ->
  flat_map called (CaseBody c) = ["agrows_" +:+ CaseKey c].
Proof.
  intros Hc.
  destruct (dispatchCase_parts fmtOther fmtExtra fnInfo c Hc)
    as (name & decode & reply & Hname & Hdecode & Hreply & ->).
  cbn [CaseBody CaseKey]. rewrite flat_map_app.
  rewrite (silent_called decode) by by eapply decodePart_silent.
  by rewrite (replyPart_called fmtOther fmtExtra _ _ _ Hreply).
Qed.

(** X22: however a call of the dispatcher ends (a reply, an error, a panic),
    it has called at most one implementation, and then the one named
    agrows_ followed by the function name of the payload. *)
Theorem at_most_the_named_implementation_is_called infos r data o cs :
  generateServerReceiver infos = Some r ->
  result (AgrowsReceive r data) = Some (o, cs) ->
  cs = [] \/
  exists vs, cs = [("agrows_" +:+ (DecodeFunctionCall data).1.1, vs)].
Proof.
  intros Hgen. unfold Model.AgrowsReceive.
  destruct (DecodeFunctionCall data) as [[functionName args] err].
  cbn [fst].
  destruct err; try (intros H; simplify_eq/=; by left).
  destruct (find _ (Cases r)) as [c|] eqn:Hfind;
    [|intros H; simplify_eq/=; by left].
  apply find_some in Hfind as [Hin Hkey].
  apply bool_decide_eq_true in Hkey.
  apply list_elem_of_In, list_elem_of_lookup in Hin as [i Hi].
  pose proof (cases_of_infos fmtOther fmtExtra infos r Hgen) as Hcases.
  destruct (Forall2_lookup_r _ _ _ _ _ Hcases Hi) as (info & _ & Hc).
  destruct (execBody args (CaseBody c) initial) as [st|st o'|] eqn:Hrun;
    try done.
  intros H. cbn [result] in H. simplify_eq.
  destruct (execBody_calls args (CaseBody c) initial st o Hrun)
    as (extra & Hextra & Hprefix).
  rewrite (dispatchCase_calls info c Hc) in Hprefix.
  cbn [calls initial app] in Hextra. rewrite Hextra.
  destruct extra as [|[fn vs] extra]; [by left|]. right.
  destruct Hprefix as [k Hk]. cbn [map fst app] in Hk.
  injection Hk as <- Hk.
  destruct extra; [by exists vs|done].
Qed.

(** X23: the network name and the keys agree between the two outputs: the
    proxy encodes the call under the key of the dispatcher's case, with
    one entry per parameter under the parameter's name, and every key the
    case looks up is among them; when no parameter is classified as a
    struct the case looks up exactly those keys, in the same order. *)
Theorem proxy_and_case_agree_on_the_name_and_the_keys info fn w c names :
  generateNewClientFunc info = Some (fn, w) ->
  dispatchCase info = Some c ->
  paramNames (Params info) = Some names ->
  EncodeName fn = CaseKey c /\
  (EncodeArgs fn).*1 = names /\
  flat_map lookedUp (CaseBody c) ⊆ names /\
  (primitives (Params info) = true -> flat_map lookedUp (CaseBody c) = names).
Proof.
  intros Hgen Hc Hnames.
  destruct (generateNewClientFunc_inv fmtOther fmtExtra info fn w names
              Hgen Hnames)
    as (name & steps & Hname & _ & Hencname & _ & Hargs & _ & _).
  pose proof (dispatchCase_key fmtOther fmtExtra info c Hc) as Hkey.
  rewrite Hname in Hkey. injection Hkey as Hkey.
  pose proof (dispatchCase_lookedUp fmtOther fmtExtra info c Hc) as Hlooked.
  unfold paramNames in Hnames. apply mapM_Some in Hnames.
  split_and!.
  - by rewrite Hencname.
  - rewrite Hargs, <-list_fmap_compose. unfold compose. cbn [fst].
    by rewrite list_fmap_id.
  - intros k Hk.
    assert (Some k ∈ map Some (flat_map lookedUp (CaseBody c))) as Hin.
    { apply list_elem_of_fmap. by exists k. }
    rewrite Hlooked in Hin.
    apply list_elem_of_In, in_flat_map in Hin as (q & Hq & Hin).
    apply list_elem_of_In, list_elem_of_lookup in Hq as [i Hq].
    destruct (Forall2_lookup_l _ _ _ _ _ Hnames Hq) as (n & Hn & Hqn).
    destruct (IsStruct q); [by apply in_nil in Hin|].
    destruct Hin as [Hin|[]]. rewrite Hqn in Hin. injection Hin as <-.
    by eapply list_elem_of_lookup_2.
  - intros Hprim.
    assert (map Some (flat_map lookedUp (CaseBody c)) = map Some names) as Heq.
    { rewrite Hlooked. clear -Hnames Hprim.
      induction Hnames as [|q n params names Hq _ IH]; [done|].
      simpl in Hprim. apply andb_prop in Hprim as [Hs Hprim].
      apply negb_true_iff in Hs. cbn [flat_map map]. rewrite Hs, Hq.
      cbn [app]. by rewrite IH. }
    clear -Heq. revert Heq. generalize (flat_map lookedUp (CaseBody c)).
    induction names as [|n names IH]; intros [|k l] Heq; try done.
    cbn [map] in Heq. injection Heq as -> Heq. by rewrite (IH l).
Qed.

End CallFacts.

(** Sum called with {a: 2, b: 3}: no call, or one call of agrows_Sum. *)
Lemma at_most_the_named_implementation_witness :
  callsOf (receive predeclared sampleImplementation sampleFile "Sum"
             sumArguments) = []
  \/ exists vs,
       callsOf (receive predeclared sampleImplementation sampleFile "Sum"
                  sumArguments)
       = [("agrows_Sum", vs)].
Proof.
  apply (at_most_the_named_implementation_is_called plainOther plainExtra
           asciiExported predeclared plainImplements sampleImplementation
           (decodesTo "Sum" sumArguments) (catalogOf sampleFile)
           (receiverOf sampleFile) [] (Returned "'5', '<nil>'" VNil)
           (callsOf (receive predeclared sampleImplementation sampleFile "Sum"
                       sumArguments))).
  - reflexivity.
  - reflexivity.
Defined.

(** The proxy and the case emitted for Sum. *)
Lemma proxy_and_case_agree_witness :
  EncodeName (stubOf sampleFile 0).1 = CaseKey (caseOf sampleFile 0) /\
  (EncodeArgs (stubOf sampleFile 0).1).*1 = ["a"; "b"] /\
  flat_map lookedUp (CaseBody (caseOf sampleFile 0)) ⊆ ["a"; "b"] /\
  (primitives (Params (entryOf sampleFile 0)) = true ->
   flat_map lookedUp (CaseBody (caseOf sampleFile 0)) = ["a"; "b"]).
Proof.
  apply (proxy_and_case_agree_on_the_name_and_the_keys plainOther plainExtra
           (entryOf sampleFile 0) (stubOf sampleFile 0).1
           (stubOf sampleFile 0).2 (caseOf sampleFile 0) ["a"; "b"]);
    reflexivity.
Defined.

(** * Several results of type error or string *)

(** ** The names of the result variables end in a digit *)

Lemma pretty_N_go_lastChar x s :
  s <> "" -> lastChar (pretty_N_go x s) = lastChar s.
Proof.
  revert s. induction (N.lt_wf_0 x) as [x _ IH]; intros s Hs.
  destruct (decide (0 < x)%N) as [Hpos|Hzero].
  - rewrite pretty_N_go_step by done.
    rewrite IH; [|by apply N.div_lt|done]. by destruct s.
  - assert (x = 0%N) as -> by lia. by rewrite pretty_N_go_0.
Qed.

Lemma Sprint_lastChar i :
  exists d, lastChar (Sprint i) = Some (pretty_N_char d).
Proof.
  unfold Sprint, pretty, pretty_nat, pretty, pretty_N.
  case_decide as Hz; [by exists 0%N|].
  rewrite pretty_N_go_step by lia. rewrite pretty_N_go_lastChar by done.
  by eexists.
Qed.

Lemma varNameFor_lastChar i ty :
  exists d, lastChar (varNameFor i ty) = Some (pretty_N_char d).
Proof.
  destruct (Sprint_lastChar i) as [d Hd].
  assert (Sprint i <> "") as Hne by (intros E; by rewrite E in Hd).
  exists d. unfold varNameFor. repeat case_decide; by rewrite lastChar_append.
Qed.

Lemma varNameFor_neq i ty s a c :
  lastChar a = Some c -> (forall d, pretty_N_char d <> c) ->
  varNameFor i ty <> s +:+ a.
Proof.
  intros Ha Hc Heq. destruct (varNameFor_lastChar i ty) as [d Hd].
  rewrite Heq, lastChar_append, Ha in Hd by (by destruct a).
  injection Hd as Hd. by eapply Hc.
Qed.

(** A variable that stands for a parameter, the table or the flag of a
    lookup is the variable of no result. *)
Lemma parameter_variable_is_no_result i ty s a :
  a ∈ ["Param"; "Arg"; "Value"; "args"; "ok"] -> varNameFor i ty <> s +:+ a.
Proof.
  intros Ha.
  repeat (apply elem_of_cons in Ha as [->|Ha]);
    [eapply varNameFor_neq; [reflexivity|];
     intros d; unfold pretty_N_char; by repeat case_match ..|].
  by apply elem_of_nil in Ha.
Qed.

(** ** What the statements of a case read and declare *)

Lemma paramDecode_reads q ss x :
  paramDecode q = Some ss -> x ∈ flat_map reads ss ->
  exists s a, x = s +:+ a /\ a ∈ ["Param"; "Arg"; "Value"; "args"; "ok"].
Proof.
  intros Hq Hx.
  destruct (paramDecode_named q ss Hq) as (n & T & Hn & HT).
  destruct (IsStruct q) eqn:Hstruct.
  - rewrite (paramDecode_struct q n T) in Hq by done. injection Hq as <-.
    cbn [flat_map reads app] in Hx.
    repeat (apply elem_of_cons in Hx as [->|Hx]);
      [eexists _, _; split; [reflexivity|set_solver] ..|].
    by apply elem_of_nil in Hx.
  - rewrite (paramDecode_primitive q n T) in Hq by done. injection Hq as <-.
    cbn [flat_map reads app] in Hx.
    repeat (apply elem_of_cons in Hx as [->|Hx]);
      try (by apply elem_of_nil in Hx);
      try (eexists _, _; split; [reflexivity|set_solver]).
    + exists "", "args". split; [done|set_solver].
    + exists "", "ok". split; [done|set_solver].
    + exists "", "ok". split; [done|set_solver].
Qed.

Lemma decodePart_reads fnInfo decode x :
  decodePart fnInfo = Some decode -> x ∈ flat_map reads decode ->
  exists s a, x = s +:+ a /\ a ∈ ["Param"; "Arg"; "Value"; "args"; "ok"].
Proof.
  intros Hdecode.
  destruct (decodePart_parts fnInfo decode Hdecode)
    as (defs & decodes & Hdecs & -> & Hdefs).
  rewrite flat_map_app.
  assert (flat_map reads defs = []) as ->.
  { by destruct Hdefs as [[-> _]|(ds & _ & ->)]. }
  cbn [app]. apply mapM_Some in Hdecs. clear Hdecode Hdefs.
  induction Hdecs as [|q ss params decodes Hq _ IH]; cbn [concat flat_map].
  { intros Hx. by apply elem_of_nil in Hx. }
  rewrite flat_map_app. intros [Hx|Hx]%elem_of_app; [|by apply IH].
  by eapply paramDecode_reads.
Qed.

Lemma callOperand_reads params operands x :
  mapM callOperand params = Some operands -> x ∈ operands ->
  exists s a, x = s +:+ a /\ a ∈ ["Param"; "Arg"; "Value"; "args"; "ok"].
Proof.
  intros Hops%mapM_Some.
  induction Hops as [|q o params operands Hq _ IH].
  { intros Hx. by apply elem_of_nil in Hx. }
  intros [->|Hx]%elem_of_cons; [|by apply IH].
  unfold callOperand in Hq. destruct (firstName (DstField q)) as [n|]; [|done].
  injection Hq as <-. eexists _, _. split; [reflexivity|set_solver].
Qed.

Section ResultVariables.

Variable fmtOther : string -> Value -> string.
Variable fmtExtra : list Value -> string.
Variable IsExported : string -> bool.
Variable scope : gmap string GoType.
Variable implements : Value -> TypeId -> bool.
Variable implementation : string -> option (list Value -> list Value).
Variable DecodeFunctionCall :
  list Byte.byte -> string * gmap string Argument * Value.

Local Abbreviation Sprintf := (Sprintf fmtOther fmtExtra).
Local Abbreviation replyPart := (replyPart fmtOther fmtExtra).
Local Abbreviation dispatchCase := (dispatchCase fmtOther fmtExtra).
Local Abbreviation generateServerReceiver :=
  (generateServerReceiver fmtOther fmtExtra).
Local Abbreviation execSteps :=
  (execSteps fmtOther fmtExtra IsExported scope implements implementation).
Local Abbreviation AgrowsReceive :=
  (AgrowsReceive fmtOther fmtExtra IsExported scope implements implementation
     DecodeFunctionCall).

(** The statements emitted after the decoding for a function with a
    result of type string: the results are bound, the last one of type
    error is tested, the last one of type string is returned. *)
Lemma replyPart_with_string name fnInfo reply tys j :
  replyPart name fnInfo = Some reply ->
  typeNames (Results fnInfo) = Some tys ->
  lastIndexOf "string" tys = Some j ->
  exists operands,
    mapM callOperand (Params fnInfo) = Some operands /\
    reply
    = [SDefineCall (imap varNameFor tys) ("agrows_" +:+ name) operands] ++
      match lastIndexOf "error" tys with
      | Some k => [SIfNotNilReturn (varNameFor k "error")]
      | None => []
      end ++
      [SReturn (ReplyId (varNameFor j "string"))].
Proof.
  intros Hreply Htys Hj. unfold Model.replyPart in Hreply.
  rewrite Sprintf_modified in Hreply.
  destruct (mapM callOperand (Params fnInfo)) as [operands|]; [|done].
  cbn [mbind option_bind] in Hreply. exists operands. split; [done|].
  pose proof (typeNames_length _ _ Htys) as Hlen.
  pose proof (lastIndexOf_lookup _ _ _ Hj) as Hjth.
  apply lookup_lt_Some in Hjth.
  destruct (decide (length (Results fnInfo) = 0)) as [Hzero|_]; [lia|].
  rewrite resultVars_spec, Htys in Hreply. cbn [mbind option_bind] in Hreply.
  rewrite Hj in Hreply.
  destruct (decide ("str" +:+ Sprint j = "")) as [Hcontra|_];
    [discriminate Hcontra|].
  cbn [mbind option_bind] in Hreply.
  unfold varNameFor. rewrite decide_False, decide_True by done.
  destruct (lastIndexOf "error" tys) as [k|].
  - destruct (decide ("err" +:+ Sprint k = "")) as [Hcontra|_];
      [discriminate Hcontra|].
    rewrite decide_True by done. by injection Hreply as <-.
  - destruct (decide ("" = "")) as [_|]; [|done]. by injection Hreply as <-.
Qed.

(** Beside a result of type string, the variable of every result but the
    last of type error and the last of type string is declared and not
    used. *)
Lemma other_result_is_not_used fnInfo c tys i j ty :
  dispatchCase fnInfo = Some c ->
  typeNames (Results fnInfo) = Some tys ->
  lastIndexOf "string" tys = Some j ->
  tys !! i = Some ty -> i <> j -> lastIndexOf "error" tys <> Some i ->
  varNameFor i ty ∈ declaredAndNotUsed (CaseBody c).
Proof.
  intros Hc Htys Hj Hi Hij Hik.
  destruct (dispatchCase_parts fmtOther fmtExtra fnInfo c Hc)
    as (name & decode & reply & _ & Hdecode & Hreply & ->).
  destruct (replyPart_with_string name fnInfo reply tys j Hreply Htys Hj)
    as (operands & Hoperands & ->).
  cbn [CaseBody]. unfold declaredAndNotUsed. apply list_elem_of_filter. split.
  - set (tested := match lastIndexOf "error" tys with
                   | Some k => [SIfNotNilReturn (varNameFor k "error")]
                   | None => []
                   end).
    assert (flat_map reads
              (decode ++
               [SDefineCall (imap varNameFor tys) ("agrows_" +:+ name) operands] ++
               tested ++ [SReturn (ReplyId (varNameFor j "string"))])
            = flat_map reads decode ++ operands ++ flat_map reads tested ++
              [varNameFor j "string"]) as ->.
    { rewrite !flat_map_app. cbn [flat_map reads]. by rewrite !app_nil_r. }
    rewrite !elem_of_app. intros [Hx|[Hx|[Hx|Hx]]].
    + destruct (decodePart_reads _ _ _ Hdecode Hx) as (s & a & Heq & Ha).
      by eapply parameter_variable_is_no_result.
    + destruct (callOperand_reads _ _ _ Hoperands Hx) as (s & a & Heq & Ha).
      by eapply parameter_variable_is_no_result.
    + unfold tested in Hx.
      destruct (lastIndexOf "error" tys) as [k|]; cbn [flat_map reads app] in Hx.
      * apply list_elem_of_singleton, varNameFor_inj in Hx. congruence.
      * by apply elem_of_nil in Hx.
    + apply list_elem_of_singleton, varNameFor_inj in Hx. congruence.
  - rewrite !flat_map_app. apply elem_of_app. right.
    cbn [flat_map declares]. rewrite app_nil_r. apply elem_of_app. left.
    apply list_elem_of_lookup. exists i. by rewrite list_lookup_imap, Hi.
Qed.

(** Of two or more results of one type, one stands at another position
    than a given one. *)
Lemma one_result_present (ty : string) tys :
  0 < occurrences (fun t => bool_decide (t = ty)) tys ->
  exists i, tys !! i = Some ty.
Proof.
  unfold occurrences. intros Hocc.
  destruct (List.filter (fun t => bool_decide (t = ty)) tys) as [|t l] eqn:E;
    [simpl in Hocc; lia|].
  assert (In t (List.filter (fun t => bool_decide (t = ty)) tys)) as Hin
    by (rewrite E; by left).
  apply filter_In in Hin as [Hin Ht]. apply bool_decide_eq_true_1 in Ht as ->.
  by apply list_elem_of_In, list_elem_of_lookup in Hin.
Qed.

Lemma another_result_present (ty : string) tys j :
  1 < occurrences (fun t => bool_decide (t = ty)) tys ->
  exists i, i <> j /\ tys !! i = Some ty.
Proof.
  revert j. induction tys as [|t tys IH]; intros j Hocc.
  { unfold occurrences in Hocc. simpl in Hocc. lia. }
  unfold occurrences in Hocc. cbn [List.filter] in Hocc.
  destruct (bool_decide (t = ty)) eqn:Ht.
  - apply bool_decide_eq_true_1 in Ht as ->.
    destruct j as [|j]; [|by exists 0].
    destruct (one_result_present ty tys) as [i Hi].
    { unfold occurrences. simpl in Hocc. lia. }
    by exists (S i).
  - destruct (IH (pred j) Hocc) as (i & Hne & Hi).
    exists (S i). split; [lia|done].
Qed.

(** C10 (as amended): let a function declare more than one result of type
    string, or more than one of type error.  If it declares a result of
    type string, the case emitted for it binds a result of type string or
    error that is not the last of its type to a variable that nothing
    reads, so that Go refuses the dispatcher (declared and not used).  In
    a dispatcher without such variables the function therefore has
    several results of type error and none of type string: only the last
    result of type error is tested against nil and, when it is not nil,
    returned with the empty reply; when it is nil every result is printed
    in the reply, the earlier results of type error among them. *)
Theorem C10_only_the_last_error_is_tested
    infos r data name args fnInfo tys :
  generateServerReceiver infos = Some r ->
  DecodeFunctionCall data = (name, args, VNil) ->
  find (fun info => bool_decide (OriginalIdentifier info = Some name)) infos
  = Some fnInfo ->
  typeNames (Results fnInfo) = Some tys ->
  (1 < occurrences (fun t => bool_decide (t = "string")) tys \/
   1 < occurrences (fun t => bool_decide (t = "error")) tys) ->
  ("string" ∈ tys ->
   exists i ty,
     tys !! i = Some ty /\ (ty = "string" \/ ty = "error") /\
     lastIndexOf ty tys <> Some i /\
     varNameFor i ty ∈ unusedVariables r) /\
  (unusedVariables r = [] ->
   ("string" ∉ tys) /\
   forall decode st operands vs f,
     decodePart fnInfo = Some decode ->
     execSteps args decode initial = Next st ->
     mapM callOperand (Params fnInfo) = Some operands ->
     mapM (readVal st) operands = Some vs ->
     implementation ("agrows_" +:+ name) = Some f ->
     length (f vs) = length tys ->
     (forall i e, lastIndexOf "error" tys = Some i -> f vs !! i = Some e ->
        e <> VNil ->
        result (AgrowsReceive r data)
        = Some (Returned "" e, [("agrows_" +:+ name, vs)])) /\
     (noFailure tys (f vs) ->
        result (AgrowsReceive r data)
        = Some (Returned (joinQuoted fmtOther (f vs)) VNil,
                [("agrows_" +:+ name, vs)]))).
Proof.
  intros Hgen Hdecode Hfind Htys Hseveral.
  destruct (find_case fmtOther fmtExtra _ _ _ _ Hgen Hfind) as (c & Hc & Hcase).
  assert (c ∈ Cases r) as Hin.
  { apply find_some in Hc as [Hc _]. by apply list_elem_of_In. }
  assert (forall x, x ∈ declaredAndNotUsed (CaseBody c) ->
            x ∈ unusedVariables r) as Hreport.
  { intros x Hx. unfold unusedVariables. apply elem_of_app. right.
    apply list_elem_of_In, in_flat_map. exists c.
    split; by apply list_elem_of_In. }
  assert ("string" ∈ tys ->
          exists i ty,
            tys !! i = Some ty /\ (ty = "string" \/ ty = "error") /\
            lastIndexOf ty tys <> Some i /\
            varNameFor i ty ∈ unusedVariables r) as Hstatic.
  { intros Hstring.
    destruct (lastIndexOf "string" tys) as [j|] eqn:Hj;
      [|by apply lastIndexFrom_absent in Hj].
    pose proof (lastIndexOf_lookup _ _ _ Hj) as Hjth.
    destruct Hseveral as [Hstrings|Herrors].
    - destruct (another_result_present "string" tys j Hstrings) as (i & Hij & Hi).
      exists i, "string". split_and!; [done|by left|congruence|].
      apply Hreport. eapply other_result_is_not_used; try done.
      intros Hk%lastIndexOf_lookup. congruence.
    - destruct (lastIndexOf "error" tys) as [k|] eqn:Hk.
      + destruct (another_result_present "error" tys k Herrors)
          as (i & Hik & Hi).
        exists i, "error". split_and!; [done|by right|congruence|].
        apply Hreport. eapply other_result_is_not_used; try done;
          congruence.
      + apply lastIndexFrom_absent in Hk.
        destruct (one_result_present "error" tys) as [i Hi]; [lia|].
        destruct Hk. by eapply list_elem_of_lookup_2. }
  split; [done|]. intros Hbuilt.
  assert ("string" ∉ tys) as Hnone.
  { intros Hstring. destruct (Hstatic Hstring) as (i & ty & _ & _ & _ & Hx).
    rewrite Hbuilt in Hx. by apply elem_of_nil in Hx. }
  split; [done|].
  intros decode st operands vs f Hpart Hsteps Hoperands Hvs Himpl Hlen.
  assert (forall o, replyOf fmtOther tys (f vs) = Some o ->
            result (AgrowsReceive r data)
            = Some (o, [("agrows_" +:+ name, vs)])) as Hrun.
  { intros o Ho. erewrite dispatch_reply by done. by erewrite decode_calls. }
  assert (lastIndexOf "string" tys = None) as Hlast.
  { destruct (lastIndexOf "string" tys) as [j|] eqn:Hj; [|done].
    apply lastIndexOf_lookup in Hj. destruct Hnone.
    by eapply list_elem_of_lookup_2. }
  unfold noFailure. split.
  - intros i e Hi He Hnil. apply Hrun. unfold replyOf. rewrite Hi, He.
    by destruct e.
  - intros Hok. apply Hrun. unfold replyOf. rewrite Hlast.
    destruct (lastIndexOf "error" tys); [by rewrite Hok|done].
Qed.

End ResultVariables.

(** C10, on Twice returning (boom, nil), in a dispatcher that reads the
    table for Keep. *)
Lemma C10_witness :
  unusedVariables (receiverOf twiceFile) = [] /\
  result (receive predeclared (twiceImplementation (VError "boom")) twiceFile
            "Twice" ∅)
  = Some (Returned "'boom', '<nil>'" VNil, [("agrows_Twice", [])]).
Proof.
  split; [reflexivity|].
  edestruct (C10_only_the_last_error_is_tested plainOther plainExtra
               asciiExported predeclared plainImplements
               (twiceImplementation (VError "boom")) (decodesTo "Twice" ∅)
               (catalogOf twiceFile) (receiverOf twiceFile) [] "Twice" ∅)
    as (_ & Hbuilt); [reflexivity.. | right; vm_compute; lia |].
  destruct (Hbuilt eq_refl) as (_ & Hrun).
  edestruct Hrun as (_ & Hprinted); [reflexivity..|].
  apply Hprinted. reflexivity.
Defined.

(** C10 as stated fails: two implementations of
    [Twice() (error, error)] that agree on the last result (nil) and
    differ in the earlier one get different replies, so the earlier result
    of type error is not dropped from the reply.  The dispatcher declares
    no variable it does not use. *)
Lemma C10_counterexample :
  unusedVariables (receiverOf twiceFile) = [] /\
  result (receive predeclared (twiceImplementation (VError "boom")) twiceFile
            "Twice" ∅)
  = Some (Returned "'boom', '<nil>'" VNil, [("agrows_Twice", [])]) /\
  result (receive predeclared (twiceImplementation (VError "bang")) twiceFile
            "Twice" ∅)
  = Some (Returned "'bang', '<nil>'" VNil, [("agrows_Twice", [])]) /\
  result (receive predeclared (twiceImplementation (VError "boom")) twiceFile
            "Twice" ∅)
  <> result (receive predeclared (twiceImplementation (VError "bang")) twiceFile
               "Twice" ∅).
Proof. split_and!; by vm_compute. Qed.

(** C10, on [Names(n int) (string, string)]: the first result is bound to
    str0, which nothing reads. *)
Example C10_names_unused :
  unusedVariables (receiverOf namesFile) = ["str0"].
Proof. by vm_compute. Qed.
